(** * Logo asset pack: the image pipeline of [build_logo_pack.py]

    A shallow embedding of [find_input], the background remover, the two
    canvas compositors, the flag mockups and the run of [main] over the file
    system, together with the Python and Pillow primitives they rest on:

    - Python [float] is IEEE-754 binary64; its operations are the ones of
      the Standard Library's [SpecFloat] at precision 53;
    - Python exceptions are the left summand of ExtLib's error monad;
    - an image is a mode, a size and rows of 8-bit pixels;
    - what depends on the machine and on the directory the program runs in
      is a variable of the section that uses it: whether an image of a given
      size can be allocated, what the file system holds, which writes fail. *)

From Stdlib Require Import ZArith List Bool String Ascii Lia Lra Psatz Reals.
From Stdlib Require Import SpecFloat Strings.Byte DecimalString.
From ExtLib Require Import Structures.Monad Data.Monads.EitherMonad.
Import ListNotations.
Import MonadNotation.
Local Open Scope monad_scope.
Local Open Scope Z_scope.

(** ** Python exceptions and the error monad *)

Inductive exn : Type :=
| ValueError
| ZeroDivisionError
| OverflowError
| MemoryError
| FileNotFoundError
| OSError.

Definition py (A : Type) : Type := sum exn A.

#[global] Instance Monad_py : Monad py := Monad_either exn.

Definition raise {A : Type} (e : exn) : py A := inl e.

(** ** Python numbers *)

Module Py.

Definition prec : Z := 53.
Definition emax : Z := 1024.

Definition float : Type := spec_float.

(** A Python [int] seen as an exact, unnormalised binary number. *)
Definition exact (n : Z) : float :=
  match n with
  | Z0 => S754_zero false
  | Zpos m => S754_finite false m 0
  | Zneg m => S754_finite true m 0
  end.

(** [float(n)]: the nearest double, [OverflowError] past the range. *)
Definition of_int (n : Z) : py float :=
  match binary_normalize prec emax n 0 false with
  | S754_infinity _ => raise OverflowError
  | f => ret f
  end.

(** [a / b] on two ints: the correctly rounded quotient. *)
Definition truediv (a b : Z) : py float :=
  if b =? 0 then raise ZeroDivisionError
  else match SFdiv prec emax (exact a) (exact b) with
       | S754_infinity _ => raise OverflowError
       | q => ret q
       end.

(** A decimal literal [n / d], [d] a power of ten, as the parser reads it. *)
Definition literal (n d : Z) : float := SFdiv prec emax (exact n) (exact d).

Definition mul : float -> float -> float := SFmul prec emax.
Definition sub : float -> float -> float := SFsub prec emax.

(** [n * x] and [n - x] with an int on the left: the int is converted. *)
Definition int_mul (n : Z) (x : float) : py float :=
  f <- of_int n ;; ret (mul f x).

Definition int_sub (n : Z) (x : float) : py float :=
  f <- of_int n ;; ret (sub f x).

(** [int(x)]: truncation toward zero. *)
Definition to_int (x : float) : py Z :=
  match x with
  | S754_zero _ => ret 0
  | S754_finite s m e => ret (cond_Zopp s (Z.shiftl (Zpos m) e))
  | S754_infinity _ => raise OverflowError
  | S754_nan => raise ValueError
  end.

(** [round(x)] with one argument: to the nearest int, ties to even. *)
Definition round (x : float) : py Z :=
  match x with
  | S754_zero _ => ret 0
  | S754_finite s m e =>
      let q := Z.shiftl (Zpos m) e in
      let up :=
        match e with
        | Zneg k =>
            let rest := Zpos m - Z.shiftl q (Zpos k) in
            let half := Z.shiftl 1 (Zpos k - 1) in
            (half <? rest) || ((half =? rest) && Z.odd q)
        | _ => false
        end in
      ret (cond_Zopp s (if up then q + 1 else q))
  | S754_infinity _ => raise OverflowError
  | S754_nan => raise ValueError
  end.

(** [min(a, b)]: the second argument wins only when it is smaller. *)
Definition min (a b : float) : float := if SFltb b a then b else a.

(** [max(a, b)] on ints. *)
Definition max (a b : Z) : Z := if a <? b then b else a.

End Py.

(** ** Pillow images *)

Definition b2z (b : byte) : Z := Z.of_N (Byte.to_N b).

(** Storing an int into a [uint8] cell keeps its low eight bits. *)
Definition z2b (z : Z) : byte :=
  match Byte.of_N (Z.to_N (z mod 256)) with
  | Some b => b
  | None => x00
  end.

Inductive mode : Type := RGB | RGBA.

(** Four bytes per pixel in both modes; in mode [RGB] the fourth byte is
    Pillow's padding byte, always 255. *)
Record pixel : Type := Px { red : byte; green : byte; blue : byte; alpha : byte }.

Record image : Type := Img {
  img_mode : mode;
  width : Z;
  height : Z;
  rows : list (list pixel)
}.

Definition zrange (n : Z) : list Z := map Z.of_nat (seq 0 (Z.to_nat n)).

(** The [h] rows of [w] pixels whose pixel at column [i], row [j] is [f i j]. *)
Definition tabulate (w h : Z) (f : Z -> Z -> pixel) : list (list pixel) :=
  map (fun j => map (fun i => f i j) (zrange w)) (zrange h).

Definition getpixel (img : image) (i j : Z) : pixel :=
  nth (Z.to_nat i) (nth (Z.to_nat j) (rows img) []) (Px x00 x00 x00 x00).

Definition int_max : Z := 2147483647.

(** The checks on a size before anything is allocated: it must not be
    negative, and it is passed on as a pair of C ints. *)
Definition check_size (w h : Z) : py unit :=
  if (w <? 0) || (h <? 0) then raise ValueError
  else if (int_max <? w) || (int_max <? h) then raise OverflowError
  else ret tt.

Section Allocation.

(** Whether the machine has room for a new image of [w] by [h] pixels.
    Pillow raises [MemoryError] when it has not, and no machine has room for
    every size that fits a C int. The conversions between modes, which copy
    an image that is already there, are taken to succeed. *)
Variable allocates : Z -> Z -> bool.

(** [Image.new(mode, (w, h), color)] *)
Definition Image_new (m : mode) (w h : Z) (color : pixel) : py image :=
  check_size w h ;;
  if allocates w h then ret (Img m w h (tabulate w h (fun _ _ => color)))
  else raise MemoryError.

End Allocation.

(** [img.convert("RGBA")]: an opaque alpha channel is added to RGB. *)
Definition convert_RGBA (img : image) : image :=
  match img_mode img with
  | RGBA => img
  | RGB =>
      Img RGBA (width img) (height img)
        (map (map (fun p => Px (red p) (green p) (blue p) xff)) (rows img))
  end.

(** [img.convert("RGB")]: the alpha channel is dropped. *)
Definition convert_RGB (img : image) : image :=
  match img_mode img with
  | RGB => img
  | RGBA =>
      Img RGB (width img) (height img)
        (map (map (fun p => Px (red p) (green p) (blue p) xff)) (rows img))
  end.

(** Pillow's 8-bit blend: [(dst * (255 - mask) + src * mask) / 255], rounded. *)
Definition div255 (a : Z) : Z :=
  let t := a + 128 in Z.shiftr (Z.shiftr t 8 + t) 8.

Definition blend (mask dst src : byte) : byte :=
  z2b (div255 (b2z dst * (255 - b2z mask) + b2z src * b2z mask)).

Definition blend_pixel (mask : byte) (dst src : pixel) : pixel :=
  Px (blend mask (red dst) (red src)) (blend mask (green dst) (green src))
     (blend mask (blue dst) (blue src)) (blend mask (alpha dst) (alpha src)).

Definition in_box (x y w h i j : Z) : bool :=
  (x <=? i) && (i <? x + w) && (y <=? j) && (j <? y + h).

(** The pixels of [dst] once [src] is blended into it at [(x, y)] through the
    alpha channel of [mask], clipped to [dst]. *)
Definition pasted (dst src : image) (x y : Z) (mask : image) : image :=
  Img (img_mode dst) (width dst) (height dst)
    (tabulate (width dst) (height dst) (fun i j =>
       let d := getpixel dst i j in
       if in_box x y (width src) (height src) i j
       then blend_pixel (alpha (getpixel mask (i - x) (j - y))) d
                        (getpixel src (i - x) (j - y))
       else d)).

(** The box of [src] at [(x, y)] misses [dst] altogether. *)
Definition nothing_to_paste (dst src : image) (x y : Z) : bool :=
  (Z.min (x + width src) (width dst) <=? Z.max x 0)
  || (Z.min (y + height src) (height dst) <=? Z.max y 0).

(** [dst.paste(src, (x, y), mask)]. The mask must have the size of the box,
    which is the size of [src]; when the box misses [dst] nothing more is
    done; otherwise the mask must carry an alpha channel: a mask of mode
    [RGB] is a bad transparency mask. *)
Definition paste (dst src : image) (x y : Z) (mask : image) : py image :=
  if negb ((width mask =? width src) && (height mask =? height src))
  then raise ValueError
  else if nothing_to_paste dst src x y then ret (pasted dst src x y mask)
  else match img_mode mask with
       | RGBA => ret (pasted dst src x y mask)
       | RGB => raise ValueError
       end.

(** ** The background remover *)

(** One cell of the boolean array [near_white]: the channels are [uint8], so
    is their difference. *)
Definition near_white (threshold tolerance : Z) (p : pixel) : bool :=
  let r := b2z (red p) in
  let g := b2z (green p) in
  let b := b2z (blue p) in
  let max_rgb := Z.max (Z.max r g) b in
  let min_rgb := Z.min (Z.min r g) b in
  (threshold <? max_rgb) && ((max_rgb - min_rgb) mod 256 <? tolerance).

(** One cell of [arr] after [arr[...,3] = np.where(near_white, 0, a)]. *)
Definition clear_near_white (threshold tolerance : Z) (p : pixel) : pixel :=
  Px (red p) (green p) (blue p)
     (if near_white threshold tolerance p then z2b 0 else alpha p).

Definition remove_near_white_bg (img : image) (threshold tolerance : Z) : image :=
  let arr := convert_RGBA img in
  Img RGBA (width arr) (height arr)
    (map (map (clear_near_white threshold tolerance)) (rows arr)).

(** ** The canvas compositor *)

(** The locals of a placement that the properties speak about: the resampled
    content, where it was pasted, and the canvas returned. *)
Record placement : Type := Placement {
  content : image;
  pos_x : Z;
  pos_y : Z;
  canvas : image
}.

(** [int(n*(1 - 2*pad_ratio))] *)
Definition padded (n : Z) (pad_ratio : Py.float) : py Z :=
  t <- Py.int_mul 2 pad_ratio ;;
  u <- Py.int_sub 1 t ;;
  v <- Py.int_mul n u ;;
  Py.to_int v.

(** [int(n*scale)] *)
Definition scaled (n : Z) (scale : Py.float) : py Z :=
  v <- Py.int_mul n scale ;;
  Py.to_int v.

Section Compositor.

Variable allocates : Z -> Z -> bool.

(** The Lanczos filter of Pillow is not part of this program: [lanczos img w
    h i j] stands for the pixel at column [i], row [j] of [img] resampled to
    [w] by [h]. *)
Variable lanczos : image -> Z -> Z -> Z -> Z -> pixel.

(** [img.resize((w, h), Image.LANCZOS)]: a new image, which needs room as
    the one of [Image.new] does. *)
Definition resize (img : image) (w h : Z) : py image :=
  if (w <? 1) || (h <? 1) then raise ValueError
  else if (int_max <? w) || (int_max <? h) then raise OverflowError
  else if allocates w h
       then ret (Img (img_mode img) w h (tabulate w h (lanczos img w h)))
       else raise MemoryError.

Definition fit_on_square_run (img : image) (size : Z) (pad_ratio : Py.float)
  : py placement :=
  canvas <- Image_new allocates RGBA size size (Px x00 x00 x00 x00) ;;
  let w := width img in
  let h := height img in
  max_side <- padded size pad_ratio ;;
  sw <- Py.truediv max_side w ;;
  sh <- Py.truediv max_side h ;;
  let scale := Py.min sw sh in
  iw <- scaled w scale ;;
  ih <- scaled h scale ;;
  let new_w := Py.max 1 iw in
  let new_h := Py.max 1 ih in
  img_resized <- resize img new_w new_h ;;
  let x := (size - new_w) / 2 in
  let y := (size - new_h) / 2 in
  canvas <- paste canvas img_resized x y img_resized ;;
  ret (Placement img_resized x y canvas).

Definition fit_on_square (img : image) (size : Z) (pad_ratio : Py.float)
  : py image :=
  p <- fit_on_square_run img size pad_ratio ;; ret (canvas p).

Definition center_on_canvas_run (img : image) (w h : Z) (pad_ratio : Py.float)
  : py placement :=
  canvas <- Image_new allocates RGBA w h (Px xff xff xff x00) ;;
  max_w <- padded w pad_ratio ;;
  max_h <- padded h pad_ratio ;;
  sw <- Py.truediv max_w (width img) ;;
  sh <- Py.truediv max_h (height img) ;;
  let scale := Py.min sw sh in
  iw <- scaled (width img) scale ;;
  ih <- scaled (height img) scale ;;
  new <- resize img (Py.max 1 iw) (Py.max 1 ih) ;;
  let x := (w - width new) / 2 in
  let y := (h - height new) / 2 in
  canvas <- paste canvas new x y new ;;
  ret (Placement new x y canvas).

Definition center_on_canvas (img : image) (w h : Z) (pad_ratio : Py.float)
  : py image :=
  p <- center_on_canvas_run img w h pad_ratio ;; ret (canvas p).

(** ** The flag mockups of [main] *)

(** The nested helper [center_canvas] repeats [center_on_canvas]. *)
Definition center_canvas_run (img : image) (w h : Z) (pad_ratio : Py.float)
  : py placement :=
  canvas <- Image_new allocates RGBA w h (Px xff xff xff x00) ;;
  max_w <- padded w pad_ratio ;;
  max_h <- padded h pad_ratio ;;
  sw <- Py.truediv max_w (width img) ;;
  sh <- Py.truediv max_h (height img) ;;
  let scale := Py.min sw sh in
  iw <- scaled (width img) scale ;;
  ih <- scaled (height img) scale ;;
  new <- resize img (Py.max 1 iw) (Py.max 1 ih) ;;
  let x := (w - width new) / 2 in
  let y := (h - height new) / 2 in
  canvas <- paste canvas new x y new ;;
  ret (Placement new x y canvas).

(** [int(width * rh/rw)] *)
Definition flag_height (rw rh width : Z) : py Z :=
  q <- Py.truediv (width * rh) rw ;;
  Py.to_int q.

(** [flag_mockup] with the captured [im_trans] as its first argument; the
    result pairs the placement on the transparent canvas with [bg]. *)
Definition flag_mockup_run (im_trans : image) (rw rh width : Z)
  : py (placement * image) :=
  height <- flag_height rw rh width ;;
  bg <- Image_new allocates RGB width height (Px xff xff xff xff) ;;
  placed <- center_canvas_run im_trans width height (Py.literal 25 100) ;;
  bg <- paste bg (convert_RGB (canvas placed)) 0 0 (canvas placed) ;;
  ret (placed, bg).

Definition flag_mockup (im_trans : image) (rw rh width : Z) : py image :=
  r <- flag_mockup_run im_trans rw rh width ;; ret (snd r).

End Compositor.

(** ** The iOS group of [main] *)

Definition str (n : Z) : string := DecimalString.NilZero.string_of_int (Z.to_int n).

Definition ios_sizes : list Z := [20; 29; 40; 60; 76; 83].
Definition scales : list Z := [1; 2; 3].

(** The file name and the square size of every [save] of the two nested
    loops, in the order of the calls; the base 83 at scale 1 is skipped. *)
Definition ios_loop : list (string * Z) :=
  flat_map (fun base =>
    flat_map (fun scale =>
      let size := base * scale in
      if (base =? 83) && (scale =? 1) then []
      else [("Icon-" ++ str base ++ "pt@" ++ str scale ++ "x-" ++ str size
               ++ ".png", size)]%string)
      scales)
    ios_sizes.

Definition ios_saves : list (string * Z) :=
  ios_loop ++ [("Icon-83.5pt@2x-167.png"%string, 167);
               ("AppStore-1024.png"%string, 1024)].

(** * Auxiliary definitions *)

Definition pow2 (e : Z) : R := powerRZ 2 e.

Definition F2R (m e : Z) : R := (IZR m * pow2 e)%R.

Definition B2R (x : Py.float) : R :=
  match x with
  | S754_finite s m e => F2R (cond_Zopp s (Zpos m)) e
  | _ => 0%R
  end.

Definition loc_ok (m : Z) (x : R) (l : location) : Prop :=
  match l with
  | loc_Exact => x = IZR m
  | loc_Inexact _ => (IZR m < x < IZR m + 1)%R
  end.

Definition rec_ok (mrs : shr_record) (x : R) : Prop :=
  loc_ok (shr_m mrs) x (loc_of_shr_record mrs).

Abbreviation fexp := (SpecFloat.fexp Py.prec Py.emax).

Definition rounds_to (x : R) (r : Py.float) : Prop :=
  exists m' m1 e',
    0 <= m' < 2 ^ 53 /\ (e' = -1074 \/ 2 ^ 52 <= m') /\ -1074 <= e' /\
    ((x = F2R m' e' /\ m1 = m') \/
     ((F2R m' e' < x < F2R (m' + 1) e')%R /\ (m1 = m' \/ m1 = m' + 1))) /\
    ((m1 = 0 /\ exists s, r = S754_zero s) \/
     (exists m2 e2,
        F2R (Zpos m2) e2 = F2R m1 e' /\
        canonical_mantissa Py.prec Py.emax m2 e2 = true /\
        ((e2 <= 971 /\ r = S754_finite false m2 e2) \/
         (971 < e2 /\ r = S754_infinity false)))).

(** Numbers with at most 53 significant bits inside the finite range. *)
Definition representable (b : R) : Prop :=
  exists k c, b = F2R k c /\ 0 <= k < 2 ^ 53 /\ -1074 <= c <= 971.

(** Non-negative finite doubles in canonical form. *)
Definition good (r : Py.float) : Prop :=
  (exists s, r = S754_zero s) \/
  exists m e, r = S754_finite false m e /\ bounded Py.prec Py.emax m e = true.

(** [0 <= pad_ratio < 0.5] on a well-formed double, as the program would test it. *)
Definition pad_in_range (p : Py.float) : bool :=
  valid_binary Py.prec Py.emax p && SFleb (S754_zero false) p
  && SFltb p (Py.literal 1 2).

Definition max3 (p : pixel) : Z := Z.max (Z.max (b2z (red p)) (b2z (green p))) (b2z (blue p)).
Definition min3 (p : pixel) : Z := Z.min (Z.min (b2z (red p)) (b2z (green p))) (b2z (blue p)).

(** The per-pixel rule of the background remover, [p] before and [q] after. *)
Definition cleared (threshold tolerance : Z) (p q : pixel) : Prop :=
  (threshold < max3 p /\ max3 p - min3 p < tolerance -> alpha q = x00) /\
  (~ (threshold < max3 p /\ max3 p - min3 p < tolerance) -> alpha q = alpha p) /\
  (tolerance <= max3 p - min3 p -> alpha q = alpha p).

Definition same_rgb (p q : pixel) : Prop :=
  red q = red p /\ green q = green p /\ blue q = blue p.

(** Steps 1 to 3 of the placement rule, with the rounding of step 3 left open. *)
Definition rule_dims (rounding : Py.float -> py Z)
    (src_w src_h canvas_w canvas_h : Z) (pad_ratio : Py.float) : py (Z * Z) :=
  max_w <- padded canvas_w pad_ratio ;;
  max_h <- padded canvas_h pad_ratio ;;
  sw <- Py.truediv max_w src_w ;;
  sh <- Py.truediv max_h src_h ;;
  let scale := Py.min sw sh in
  fw <- Py.int_mul src_w scale ;;
  new_w <- rounding fw ;;
  fh <- Py.int_mul src_h scale ;;
  new_h <- rounding fh ;;
  ret (Z.max 1 new_w, Z.max 1 new_h).

(** Nearest-neighbour sampling, a resampler to run the compositor with. *)
Definition nearest (img : image) (w h i j : Z) : pixel :=
  getpixel img (i * width img / w) (j * height img / h).

Definition tenth : Py.float := Py.literal 1 10.

Definition sample_4x7 : image :=
  Img RGBA 4 7 (tabulate 4 7 (fun i j => Px (z2b (60 * i)) (z2b (30 * j)) x80 xff)).

Definition dot : image := Img RGBA 1 1 [[Px x10 x20 x30 xff]].



Definition same_placement (a b : placement) : Prop :=
  content a = content b /\ pos_x a = pos_x b /\ pos_y a = pos_y b /\
  img_mode (canvas a) = img_mode (canvas b) /\
  width (canvas a) = width (canvas b) /\ height (canvas a) = height (canvas b).

Definition white : pixel := Px xff xff xff xff.

(** [round(width * rh/rw)], the height the flag table of the spec asks for. *)
Definition flag_height_rounded (rw rh width : Z) : py Z :=
  q <- Py.truediv (width * rh) rw ;;
  Py.round q.

(** An image whose rows have the shape its size announces. *)
Definition well_formed (img : image) : Prop :=
  List.length (rows img) = Z.to_nat (height img) /\
  Forall (fun r => List.length r = Z.to_nat (width img)) (rows img).

(** ** Locating the input *)

Definition INPUT_CANDIDATES : list string :=
  ["logo_input.png"; "logo_input.jpg"; "logo_input.jpeg"; "logo_input.webp";
   "logo_input.tif"; "logo_input.tiff"]%string.

Definition exts : list string :=
  [".png"; ".jpg"; ".jpeg"; ".webp"; ".bmp"; ".tif"; ".tiff"; ".gif"]%string.

(** [s.lower()], on the ASCII letters: the suffixes tested are ASCII, and no
    other character lowers to the letters in them in a way that could
    complete one. *)
Definition lower_ascii (c : ascii) : ascii :=
  let n := N_of_ascii c in
  if ((65 <=? n) && (n <=? 90))%N then ascii_of_N (n + 32) else c.

Fixpoint lower (s : string) : string :=
  match s with
  | EmptyString => EmptyString
  | String c s' => String (lower_ascii c) (lower s')
  end.

(** [s.endswith(suffix)] *)
Definition endswith (s suffix : string) : bool :=
  (String.length suffix <=? String.length s)%nat &&
  String.eqb (substring (String.length s - String.length suffix)
                        (String.length suffix) s) suffix.

(** [s.endswith(tuple)]: any of the suffixes. *)
Definition endswith_any (s : string) (suffixes : list string) : bool :=
  existsb (endswith s) suffixes.

(** [os.path.join(a, b)] on POSIX, for two components. *)
Definition path_join (a b : string) : string :=
  if prefix "/" b then b
  else if String.eqb a "" || endswith a "/" then (a ++ b)%string
  else (a ++ "/" ++ b)%string.

(** The order of Python on [(size, path)] tuples. *)
Definition tuple_leb (x y : Z * string) : bool :=
  (fst x <? fst y) || ((fst x =? fst y) && String.leb (snd x) (snd y)).

Fixpoint insert_desc (x : Z * string) (l : list (Z * string)) : list (Z * string) :=
  match l with
  | [] => [x]
  | y :: l' => if tuple_leb y x then x :: l else y :: insert_desc x l'
  end.

(** [cands.sort(reverse=True)] *)
Definition sort_reverse (l : list (Z * string)) : list (Z * string) :=
  fold_right insert_desc [] l.

Section FindInput.

(** The file system the function looks at. [os.path.exists] answers [False]
    where the operating system reports an error; [os.listdir] and
    [os.path.getsize] raise it: a directory that cannot be read, a link that
    leads nowhere. *)
Variable path_exists : string -> bool.
Variable listdir : string -> py (list string).
Variable getsize : string -> py Z.

(** The loop over the listing: the [(size, path)] of the names with an image
    extension, in the order of the listing. The first size that cannot be
    read ends the loop. *)
Fixpoint image_files (path : string) (names : list string) : py (list (Z * string)) :=
  match names with
  | [] => ret []
  | f :: names' =>
      if endswith_any (lower f) exts
      then size <- getsize (path_join path f) ;;
           cands <- image_files path names' ;;
           ret ((size, path_join path f) :: cands)
      else image_files path names'
  end.

Definition find_input (path : string) : py string :=
  match find (fun name => path_exists (path_join path name)) INPUT_CANDIDATES with
  | Some name => ret (path_join path name)
  | None =>
      names <- listdir path ;;
      cands <- image_files path names ;;
      match sort_reverse cands with
      | c :: _ => ret (snd c)
      | [] => raise FileNotFoundError
      end
  end.

End FindInput.

(** ** The files [main] writes *)

(** How the content of a saved file is made: by one of the compositors, or
    from something already at hand (the source, an earlier raster, text). *)
Inductive render : Type :=
| Square (size : Z) (pad_ratio : Py.float)
| Rect (w h : Z) (pad_ratio : Py.float)
| Flag (rw rh base : Z)
| Derived.

(** One [save] or [open(..., "w")]: the two arguments of [os.path.join] and
    the way the content is made. *)
Record saved : Type := Saved { dir : string; file : string; how : render }.

Local Open Scope string_scope.
Local Open Scope list_scope.

Definition OUT_ROOT : string := "logo_asset_pack".
Definition SRC_DIR : string := path_join OUT_ROOT "source".
Definition WEB_DIR : string := path_join OUT_ROOT "web".
Definition IOS_DIR : string := path_join OUT_ROOT "ios".
Definition ANDROID_DIR : string := path_join OUT_ROOT "android".
Definition DESKTOP_DIR : string := path_join OUT_ROOT "desktop".
Definition EMOJI_DIR : string := path_join OUT_ROOT "emoji".
Definition PRINT_DIR : string := path_join OUT_ROOT "print".
Definition FLAGS_DIR : string := path_join OUT_ROOT "flags".
Definition SOCIAL_DIR : string := path_join OUT_ROOT "social".

Definition android_sizes : list (string * Z) :=
  [("mipmap-mdpi", 48); ("mipmap-hdpi", 72); ("mipmap-xhdpi", 96);
   ("mipmap-xxhdpi", 144); ("mipmap-xxxhdpi", 192)].

(** The decimal literals of the padding ratios. *)
Definition p008 : Py.float := Py.literal 8 100.
Definition p010 : Py.float := Py.literal 10 100.
Definition p012 : Py.float := Py.literal 12 100.
Definition p018 : Py.float := Py.literal 18 100.
Definition p020 : Py.float := Py.literal 20 100.

(** A call of [main] that touches the file system. *)
Inductive call : Type :=
| Ensure (path : string)
| Save (s : saved).

(** The calls of [ensure], [save] and [open(..., "w")] of [main] in program
    order, for a run that nothing stops; [basename] is
    [os.path.basename(src_path)]. *)
Definition main_calls (basename : string) : list call :=
  (map Ensure [SRC_DIR; WEB_DIR; IOS_DIR; ANDROID_DIR; DESKTOP_DIR; EMOJI_DIR;
               PRINT_DIR; FLAGS_DIR; SOCIAL_DIR]
   ++ [Save (Saved SRC_DIR ("original_" ++ basename)%string Derived);
       Save (Saved SRC_DIR "logo_transparent.png" Derived)]
   ++ map (fun s => Save (Saved WEB_DIR ("favicon-" ++ str s ++ ".png")%string
                            (Square s p008)))
          [16; 32; 48]
   ++ [Save (Saved WEB_DIR "favicon.ico" Derived);
       Save (Saved WEB_DIR "apple-touch-icon-180.png" (Square 180 p010))]
   ++ map (fun s => Save (Saved WEB_DIR ("icon-" ++ str s ++ ".png")%string
                            (Square s p010)))
          [192; 256; 384; 512]
   ++ [Save (Saved WEB_DIR "maskable-icon-512.png" (Square 512 p018));
       Save (Saved WEB_DIR "site.webmanifest" Derived);
       Save (Saved SOCIAL_DIR "og-1200x1200.png" (Square 1200 p020));
       Save (Saved SOCIAL_DIR "og-1200x630.png" (Rect 1200 630 p012))]
   ++ map (fun ns => Save (Saved IOS_DIR (fst ns) (Square (snd ns) p012))) ios_saves
   ++ flat_map (fun fp =>
                  let d := path_join ANDROID_DIR (fst fp) in
                  [Ensure d; Save (Saved d "ic_launcher.png" (Square (snd fp) p010))])
               android_sizes
   ++ [Save (Saved ANDROID_DIR "play-store-1024.png" (Square 1024 p012));
       Save (Saved ANDROID_DIR "web_hi_res_512.png" (Square 512 p012))]
   ++ map (fun s => Save (Saved "desktop" ("appicon-" ++ str s ++ ".png")%string
                            (Square s p012)))
          [128; 256; 512; 1024]
   ++ map (fun s => Save (Saved "emoji" ("emoji-" ++ str s ++ ".png")%string
                            (Square s p008)))
          [128; 256; 512]
   ++ [Save (Saved PRINT_DIR "logo-3000x3000.png" (Square 3000 p008));
       Save (Saved PRINT_DIR "logo-cmyk.tiff" Derived);
       Save (Saved PRINT_DIR "logo.pdf" Derived);
       Save (Saved "flags" "flag-900x600-3x2.png" (Flag 3 2 900));
       Save (Saved "flags" "flag-1500x900-5x3.png" (Flag 5 3 1500));
       Save (Saved OUT_ROOT "README.md" Derived)]).

Definition saves_of (cs : list call) : list saved :=
  flat_map (fun c => match c with Save s => [s] | Ensure _ => [] end) cs.

Definition ensures_of (cs : list call) : list string :=
  flat_map (fun c => match c with Ensure p => [p] | Save _ => [] end) cs.

(** The files of a run of [main] that nothing stops, in the order of the
    writes. *)
Definition main_saves (basename : string) : list saved :=
  saves_of (main_calls basename).

Definition saved_path (s : saved) : string := path_join (dir s) (file s).

(** [os.makedirs(p, exist_ok=True)] on a relative path: [p] and the
    directories above it. *)
Fixpoint makedirs_from (done rest : string) : list string :=
  match rest with
  | EmptyString => [done]
  | String c rest' =>
      if Ascii.eqb c "/"%char then done :: makedirs_from (done ++ "/")%string rest'
      else makedirs_from (done ++ String c "")%string rest'
  end.

Definition makedirs (p : string) : list string := makedirs_from "" p.

(** The arguments of the calls of [ensure] in [main], in order. *)
Definition ensured : list string := ensures_of (main_calls "").

(** Every directory the calls of [ensure] make. *)
Definition created_dirs : list string := flat_map makedirs ensured.

Definition is_created (d : string) : bool := existsb (String.eqb d) created_dirs.

Close Scope string_scope.

Definition render_ok (r : render) : bool :=
  match r with
  | Square s p => (0 <=? s) && (s <=? int_max) && pad_in_range p
  | Rect w h p => (0 <=? w) && (w <=? int_max) && (0 <=? h) && (h <=? int_max)
                  && pad_in_range p
  | Flag rw rh base =>
      (1 <=? rw) && (rw <? 2 ^ 53) && (0 <=? base * rh) && (base * rh <? 2 ^ 51)
      && (0 <=? base) && (base <=? int_max) && (base * rh / rw <=? int_max)
  | Derived => true
  end.

Definition expected_size (r : render) : Z * Z :=
  match r with
  | Square s _ => (s, s)
  | Rect w h _ => (w, h)
  | Flag rw rh base => (base, base * rh / rw)
  | Derived => (0, 0)
  end.

Fixpoint distinct (l : list string) : bool :=
  match l with
  | [] => true
  | x :: l' => negb (existsb (String.eqb x) l') && distinct l'
  end.

(** [os.path.basename(p)] on POSIX: what follows the last slash. *)
Fixpoint basename_from (seen rest : string) : string :=
  match rest with
  | EmptyString => seen
  | String c rest' =>
      if Ascii.eqb c "/"%char then basename_from EmptyString rest'
      else basename_from (seen ++ String c EmptyString)%string rest'
  end.

Definition os_path_basename (p : string) : string := basename_from EmptyString p.

(** What a run has done to the file system so far: the directories it made
    and the paths it wrote, in the order of the writes. *)
Record world : Type := World { made : list string; written : list string }.

Section Main.

Variable allocates : Z -> Z -> bool.
Variable lanczos : image -> Z -> Z -> Z -> Z -> pixel.

(** The call that makes the content of a composited file; a derived file
    composites nothing, and the image at hand stands for its content. *)
Definition run_render (im_trans : image) (r : render) : py image :=
  match r with
  | Square s p => fit_on_square allocates lanczos im_trans s p
  | Rect w h p => center_on_canvas allocates lanczos im_trans w h p
  | Flag rw rh base => flag_mockup allocates lanczos im_trans rw rh base
  | Derived => ret im_trans
  end.

(** The directories, named as the program names them, that are there when
    the run starts. *)
Variable isdir : string -> bool.

(** What else the operating system or Pillow raises when a path is created
    or written, if anything: a file in the place of a directory, the
    permissions, the disk, the conversion or the encoder of the image. *)
Variable os_error : string -> option exn.

(** [ensure(path)]: [os.makedirs(path, exist_ok=True)]. *)
Definition ensure (w : world) (path : string) : py world :=
  match os_error path with
  | Some e => raise e
  | None => ret (World (makedirs path ++ made w) (written w))
  end.

Definition has_dir (w : world) (d : string) : bool :=
  existsb (String.eqb d) (made w) || isdir d.

(** [image.save(os.path.join(d, f))] and [open(os.path.join(d, f), "w")]:
    the file is created in [d], and [FileNotFoundError] is raised when [d]
    is not there. *)
Definition save (w : world) (d f : string) : py world :=
  match os_error (path_join d f) with
  | Some e => raise e
  | None =>
      if has_dir w d then ret (World (made w) (written w ++ [path_join d f]))
      else raise FileNotFoundError
  end.

Definition run_call (im_trans : image) (w : world) (c : call) : py world :=
  match c with
  | Ensure path => ensure w path
  | Save s =>
      run_render im_trans (how s) ;;
      save w (dir s) (file s)
  end.

(** The calls one after the other, up to the first that raises; the world
    is the one that call found. *)
Fixpoint run (im_trans : image) (w : world) (cs : list call) : world * option exn :=
  match cs with
  | [] => (w, None)
  | c :: cs' =>
      match run_call im_trans w c with
      | inl e => (w, Some e)
      | inr w' => run im_trans w' cs'
      end
  end.

Variable path_exists : string -> bool.
Variable listdir : string -> py (list string).
Variable getsize : string -> py Z.

(** [Image.open(p).convert("RGBA")]: the decoders are not part of this
    program. *)
Variable Image_open_RGBA : string -> py image.

(** What the final [print] raises, if anything: the message holds a
    character that not every terminal encodes. *)
Variable print_error : option exn.

(** [main]: what it did to the file system, and the exception that ended
    it, if any. *)
Definition main : world * option exn :=
  let start := World [] [] in
  match find_input path_exists listdir getsize "." with
  | inl e => (start, Some e)
  | inr src_path =>
      match Image_open_RGBA src_path with
      | inl e => (start, Some e)
      | inr im =>
          let im_trans := remove_near_white_bg im 245 15 in
          match run im_trans start (main_calls (os_path_basename src_path)) with
          | (w, None) => (w, print_error)
          | stopped => stopped
          end
      end
  end.

End Main.

(** Every save of [cs] goes to a directory that is among [given] or was made
    by an [ensure] before it. *)
Fixpoint dirs_ready (given made : list string) (cs : list call) : bool :=
  match cs with
  | [] => true
  | Ensure p :: cs' => dirs_ready given (makedirs p ++ made) cs'
  | Save s :: cs' =>
      existsb (String.eqb (dir s)) (made ++ given) && dirs_ready given made cs'
  end.



(** The image a render makes is at most [n] pixels wide and high. *)
Definition size_within (n : Z) (r : render) : bool :=
  (fst (expected_size r) <=? n) && (snd (expected_size r) <=? n).

(** The machine has room for every image of up to [w] by [h] pixels, and for
    one of a single pixel. *)
Definition fits (allocates : Z -> Z -> bool) (w h : Z) : Prop :=
  forall w' h', 0 <= w' <= Z.max 1 w -> 0 <= h' <= Z.max 1 h -> allocates w' h' = true.

(** A machine with room for 16 million pixels per image. *)
Definition roomy (w h : Z) : bool := w * h <=? 16777216.

(** ** Inputs to run the functions on *)

Local Open Scope string_scope.

Definition rgb_sample : image :=
  Img RGB 2 1 [[Px xff xff xff xff; Px xc8 x10 x10 xff]].

Definition empty_image : image := Img RGBA 0 0 [].

(** A directory to try [find_input] on. *)
Definition sample_exists (p : string) : bool :=
  String.eqb p "./logo_input.jpg" || String.eqb p "./logo_input.tiff".

Definition sample_listdir (_ : string) : py (list string) :=
  ret ["notes.txt"; "Photo.JPG"; "a.png"; "b.GIF"].

Definition sample_getsize (p : string) : py Z :=
  ret (if String.eqb p "./a.png" then 10
       else if String.eqb p "./Photo.JPG" then 99
       else if String.eqb p "./b.GIF" then 99 else 5).

(** The same directory with a link [gone.png] that leads nowhere. *)
Definition broken_listdir (_ : string) : py (list string) :=
  ret ["a.png"; "gone.png"; "b.GIF"].

Definition broken_getsize (p : string) : py Z :=
  if String.eqb p "./gone.png" then raise FileNotFoundError else sample_getsize p.

Close Scope string_scope.

(** * Lemmas and theorems *)

Lemma pow2_pos e : (0 < pow2 e)%R.
Proof. apply powerRZ_lt. lra. Qed.

Lemma pow2_add a b : pow2 (a + b) = (pow2 a * pow2 b)%R.
Proof. apply powerRZ_add. lra. Qed.

Lemma pow2_Z n : 0 <= n -> pow2 n = IZR (2 ^ n).
Proof.
  intros Hn. unfold pow2.
  destruct n as [|p|p]; [reflexivity| |lia].
  simpl powerRZ. rewrite pow_IZR. now rewrite positive_nat_Z.
Qed.

Lemma pow2_ge_1 n : 0 <= n -> (1 <= pow2 n)%R.
Proof.
  intros Hn. rewrite pow2_Z by assumption. apply IZR_le.
  assert (0 < 2 ^ n) by (apply Z.pow_pos_nonneg; lia). lia.
Qed.

Lemma pow2_1 : pow2 1 = 2%R.
Proof. unfold pow2. simpl. lra. Qed.

Lemma pow2_le a b : a <= b -> (pow2 a <= pow2 b)%R.
Proof.
  intros H. replace b with (a + (b - a)) by lia. rewrite pow2_add.
  pose proof (pow2_pos a). pose proof (pow2_ge_1 (b - a) ltac:(lia)). nra.
Qed.

Lemma pow2_lt a b : a < b -> (pow2 a < pow2 b)%R.
Proof.
  intros H. replace b with (a + 1 + (b - a - 1)) by lia. rewrite !pow2_add.
  pose proof (pow2_pos a). pose proof (pow2_ge_1 (b - a - 1) ltac:(lia)).
  rewrite pow2_1. nra.
Qed.

Lemma pow2_0 : pow2 0 = 1%R.
Proof. reflexivity. Qed.

Lemma pow2_succ a : pow2 (a + 1) = (2 * pow2 a)%R.
Proof. rewrite pow2_add. rewrite pow2_1. lra. Qed.

Lemma pow2_opp a : pow2 (- a) = (/ pow2 a)%R.
Proof. apply powerRZ_neg'. Qed.

(** ** Binary digits *)
Lemma digits2_pos_bounds p :
  2 ^ (Zpos (digits2_pos p) - 1) <= Zpos p < 2 ^ Zpos (digits2_pos p).
Proof.
  induction p as [p IH|p IH|]; simpl digits2_pos.
  - rewrite Pos2Z.inj_succ. replace (Z.succ (Zpos (digits2_pos p)) - 1) with (Z.succ (Zpos (digits2_pos p) - 1)) by lia.
    rewrite !Z.pow_succ_r by lia. lia.
  - rewrite Pos2Z.inj_succ. replace (Z.succ (Zpos (digits2_pos p)) - 1) with (Z.succ (Zpos (digits2_pos p) - 1)) by lia.
    rewrite !Z.pow_succ_r by lia. lia.
  - simpl. lia.
Qed.

Lemma Zdigits2_bounds m : 0 < m ->
  2 ^ (Zdigits2 m - 1) <= m < 2 ^ Zdigits2 m.
Proof. destruct m; try lia. intros _. apply digits2_pos_bounds. Qed.

Lemma Zdigits2_pos m : 0 < m -> 0 < Zdigits2 m.
Proof. destruct m; simpl; lia. Qed.

Lemma Zdigits2_unique m d : 0 < m -> 2 ^ (d - 1) <= m < 2 ^ d -> Zdigits2 m = d.
Proof.
  intros Hm [H1 H2]. pose proof (Zdigits2_bounds m Hm) as [H3 H4].
  pose proof (Zdigits2_pos m Hm).
  assert (0 < d).
  { destruct (Z_lt_le_dec 0 d) as [|Hd]; auto.
    destruct (Z.eq_dec d 0) as [->|]; [simpl in H2; lia|].
    rewrite Z.pow_neg_r in H2 by lia. lia. }
  destruct (Z_lt_le_dec (Zdigits2 m) d).
  - assert (2 ^ Zdigits2 m <= 2 ^ (d - 1)) by (apply Z.pow_le_mono_r; lia). lia.
  - destruct (Z_lt_le_dec d (Zdigits2 m)); [|lia].
    assert (2 ^ d <= 2 ^ (Zdigits2 m - 1)) by (apply Z.pow_le_mono_r; lia). lia.
Qed.

Lemma shr_1_ok mrs x :
  0 <= shr_m mrs -> rec_ok mrs x ->
  rec_ok (shr_1 mrs) (x * pow2 (-1)) /\ shr_m (shr_1 mrs) = shr_m mrs / 2.
Proof.
  assert (Hh : pow2 (-1) = (/ 2)%R) by (unfold pow2; simpl; f_equal; lra).
  rewrite Hh. unfold rec_ok.
  destruct mrs as [m r s]. simpl shr_m. intros Hm.
  assert (HI : forall p, IZR (Zpos p~1) = (2 * IZR (Zpos p) + 1)%R).
  { intros p. rewrite Pos2Z.inj_xI, plus_IZR, mult_IZR. reflexivity. }
  assert (HO : forall p, IZR (Zpos p~0) = (2 * IZR (Zpos p))%R).
  { intros p. rewrite Pos2Z.inj_xO, mult_IZR. reflexivity. }
  assert (DI : forall p, Zpos p~1 / 2 = Zpos p).
  { intros p. rewrite Pos2Z.inj_xI. symmetry. apply (Z.div_unique _ _ _ 1); lia. }
  assert (DO : forall p, Zpos p~0 / 2 = Zpos p).
  { intros p. rewrite Pos2Z.inj_xO. symmetry. apply (Z.div_unique _ _ _ 0); lia. }
  destruct m as [|[p|p|]|p]; try lia; destruct r, s; simpl; intros H;
    try rewrite (HI p) in H; try rewrite (HO p) in H;
    try rewrite (DI p); try rewrite (DO p); (split; [lra | reflexivity]).
Qed.

Lemma pow_xI p : 2 ^ Zpos p~1 = 2 * 2 ^ Zpos p * 2 ^ Zpos p.
Proof.
  replace (Zpos p~1) with (Zpos p + Zpos p + 1) by lia.
  rewrite !Z.pow_add_r by lia. lia.
Qed.

Lemma pow_xO p : 2 ^ Zpos p~0 = 2 ^ Zpos p * 2 ^ Zpos p.
Proof.
  replace (Zpos p~0) with (Zpos p + Zpos p) by lia.
  rewrite !Z.pow_add_r by lia. lia.
Qed.

Lemma iter_shr_1_ok p : forall mrs x,
  0 <= shr_m mrs -> rec_ok mrs x ->
  rec_ok (iter_pos shr_1 p mrs) (x * pow2 (- Zpos p)) /\
  shr_m (iter_pos shr_1 p mrs) = shr_m mrs / 2 ^ Zpos p.
Proof.
  assert (Hpp : forall q, 0 < 2 ^ Zpos q) by (intros; apply Z.pow_pos_nonneg; lia).
  assert (Hnn : forall q m, 0 <= m -> 0 <= m / 2 ^ Zpos q).
  { intros. apply Z.div_pos; auto. }
  induction p as [p IH|p IH|]; intros mrs x Hm Hx; simpl iter_pos.
  - destruct (shr_1_ok mrs x Hm Hx) as [H1 E1].
    assert (Hm1 : 0 <= shr_m (shr_1 mrs)) by (rewrite E1; apply Z.div_pos; lia).
    destruct (IH _ _ Hm1 H1) as [H2 E2].
    assert (Hm2 : 0 <= shr_m (iter_pos shr_1 p (shr_1 mrs))) by (rewrite E2; auto).
    destruct (IH _ _ Hm2 H2) as [H3 E3].
    split.
    + replace (- Z.pos p~1) with (-1 + - Zpos p + - Zpos p) by lia.
      rewrite !pow2_add.
      replace (x * (pow2 (-1) * pow2 (- Zpos p) * pow2 (- Zpos p)))%R
        with (x * pow2 (-1) * pow2 (- Zpos p) * pow2 (- Zpos p))%R by ring.
      exact H3.
    + rewrite E3, E2, E1.
      pose proof (Hpp p).
      rewrite !Z.div_div by lia.
      f_equal. rewrite pow_xI. lia.
  - destruct (IH _ _ Hm Hx) as [H2 E2].
    assert (Hm2 : 0 <= shr_m (iter_pos shr_1 p mrs)) by (rewrite E2; auto).
    destruct (IH _ _ Hm2 H2) as [H3 E3].
    split.
    + replace (- Z.pos p~0) with (- Zpos p + - Zpos p) by lia.
      rewrite !pow2_add.
      replace (x * (pow2 (- Zpos p) * pow2 (- Zpos p)))%R
        with (x * pow2 (- Zpos p) * pow2 (- Zpos p))%R by ring.
      exact H3.
    + rewrite E3, E2.
      pose proof (Hpp p).
      rewrite !Z.div_div by lia.
      f_equal. rewrite pow_xO. lia.
  - destruct (shr_1_ok mrs x Hm Hx) as [H1 E1]. split; assumption.
Qed.

Lemma fexp_val e : fexp e = Z.max (e - 53) (-1074).
Proof. reflexivity. Qed.

Lemma rec_of_loc_ok m l x : rec_ok (shr_record_of_loc m l) x <-> loc_ok m x l.
Proof. unfold rec_ok. destruct l as [|[]]; simpl; tauto. Qed.

Lemma shr_m_of_loc m l : shr_m (shr_record_of_loc m l) = m.
Proof. destruct l as [|[]]; reflexivity. Qed.

Lemma shr_fexp_spec m e l x :
  0 <= m -> loc_ok m (x * pow2 (- e)) l -> e <= fexp (Zdigits2 m + e) ->
  exists mrs,
    shr_fexp Py.prec Py.emax m e l = (mrs, fexp (Zdigits2 m + e)) /\
    shr_m mrs = m / 2 ^ (fexp (Zdigits2 m + e) - e) /\
    rec_ok mrs (x * pow2 (- fexp (Zdigits2 m + e))).
Proof.
  intros Hm Hx He. unfold shr_fexp, shr.
  set (e' := fexp (Zdigits2 m + e)) in *.
  destruct (e' - e) as [|p|p] eqn:En; try lia.
  - exists (shr_record_of_loc m l). replace e' with e by lia.
    rewrite shr_m_of_loc, Z.pow_0_r, Z.div_1_r, rec_of_loc_ok. auto.
  - destruct (iter_shr_1_ok p (shr_record_of_loc m l) (x * pow2 (- e))) as [H1 H2].
    + now rewrite shr_m_of_loc.
    + now apply rec_of_loc_ok.
    + exists (iter_pos shr_1 p (shr_record_of_loc m l)).
      rewrite shr_m_of_loc in H2. repeat split.
      * f_equal. lia.
      * exact H2.
      * replace (- e') with (- e + - Zpos p) by lia. rewrite pow2_add.
        rewrite <- Rmult_assoc. exact H1.
Qed.

Lemma rne_cases m l :
  match l with
  | loc_Exact => round_nearest_even m l = m
  | _ => round_nearest_even m l = m \/ round_nearest_even m l = m + 1
  end.
Proof. destruct l as [|[]]; simpl; auto. destruct (Z.even m); auto. Qed.

Lemma div_pow2_bounds m d n :
  0 <= n -> n < d -> 2 ^ (d - 1) <= m < 2 ^ d ->
  2 ^ (d - 1 - n) <= m / 2 ^ n < 2 ^ (d - n).
Proof.
  intros Hn Hd [H1 H2].
  assert (0 < 2 ^ n) by (apply Z.pow_pos_nonneg; lia).
  split.
  - apply Z.div_le_lower_bound; [lia|].
    rewrite <- Z.pow_add_r by lia. replace (n + (d - 1 - n)) with (d - 1) by lia. lia.
  - apply Z.div_lt_upper_bound; [lia|].
    rewrite <- Z.pow_add_r by lia. replace (n + (d - n)) with d by lia. lia.
Qed.

Lemma div_pow2_small m d n :
  0 <= m < 2 ^ d -> 0 <= d <= n -> m / 2 ^ n = 0.
Proof.
  intros [H1 H2] Hd. apply Z.div_small. split; [lia|].
  assert (2 ^ d <= 2 ^ n) by (apply Z.pow_le_mono_r; lia). lia.
Qed.

(** The mantissa kept by the first shift of [binary_round_aux]. *)
Lemma shifted_mantissa m e :
  0 <= m -> e <= fexp (Zdigits2 m + e) ->
  let e' := fexp (Zdigits2 m + e) in
  let m' := m / 2 ^ (e' - e) in
  0 <= m' < 2 ^ 53 /\ (e' = -1074 \/ 2 ^ 52 <= m').
Proof.
  intros Hm He e' m'. subst e' m'. rewrite fexp_val in *.
  destruct (Z.eq_dec m 0) as [->|Hm0].
  - simpl Zdigits2 in *. rewrite Z.div_0_l.
    + split; [lia|]. left. lia.
    + apply Z.pow_nonzero; lia.
  - assert (Hm1 : 0 < m) by lia.
    pose proof (Zdigits2_bounds m Hm1) as Hb.
    pose proof (Zdigits2_pos m Hm1) as Hd.
    set (d := Zdigits2 m) in *.
    set (n := Z.max (d + e - 53) (-1074) - e) in *.
    assert (Hn : 0 <= n) by lia.
    destruct (Z_lt_le_dec n d) as [Hnd|Hnd].
    + pose proof (div_pow2_bounds m d n Hn Hnd Hb) as [B1 B2].
      assert (2 ^ (d - n) <= 2 ^ 53) by (apply Z.pow_le_mono_r; lia).
      assert (0 <= 2 ^ (d - 1 - n)) by (apply Z.pow_nonneg; lia).
      split; [lia|].
      destruct (Z.eq_dec (Z.max (d + e - 53) (-1074)) (-1074)); [left; assumption|right].
      replace (d - 1 - n) with 52 in B1 by lia. exact B1.
    + rewrite (div_pow2_small m d n) by lia.
      split; [lia|]. left. lia.
Qed.

Lemma unscale x e y : (x * pow2 (- e))%R = y -> x = (y * pow2 e)%R.
Proof.
  intros <-. rewrite Rmult_assoc, <- pow2_add.
  replace (- e + e) with 0 by lia. rewrite pow2_0. ring.
Qed.

Lemma loc_ok_unscale m e l x :
  loc_ok m (x * pow2 (- e)) l ->
  match l with
  | loc_Exact => x = F2R m e
  | _ => (F2R m e < x < F2R (m + 1) e)%R
  end.
Proof.
  unfold F2R. pose proof (pow2_pos e) as Hp.
  assert (Hx : x = (x * pow2 (- e) * pow2 e)%R) by (now apply unscale).
  destruct l as [|c]; simpl; intros H.
  - rewrite <- H. exact Hx.
  - rewrite plus_IZR. destruct H as [H1 H2].
    split; rewrite Hx; [apply Rmult_lt_compat_r|apply Rmult_lt_compat_r]; assumption.
Qed.

Lemma canonical_iff m e :
  canonical_mantissa Py.prec Py.emax m e = true <->
  Z.max (Zpos (digits2_pos m) + e - 53) (-1074) = e.
Proof. unfold canonical_mantissa. rewrite Z.eqb_eq, fexp_val. tauto. Qed.

Lemma iter_shr_zero p : shr_m (iter_pos shr_1 p (Build_shr_record 0 false false)) = 0.
Proof.
  destruct (iter_shr_1_ok p (Build_shr_record 0 false false) 0%R) as [_ E].
  - simpl. lia.
  - unfold rec_ok. simpl. reflexivity.
  - rewrite E. simpl shr_m. apply Z.div_0_l. apply Z.pow_nonzero; lia.
Qed.

Lemma round_aux_spec mx ex lx x :
  0 <= mx -> loc_ok mx (x * pow2 (- ex)) lx -> ex <= fexp (Zdigits2 mx + ex) ->
  rounds_to x (binary_round_aux Py.prec Py.emax false mx ex lx).
Proof.
  intros Hm Hx He.
  destruct (shr_fexp_spec mx ex lx x Hm Hx He) as (mrs & E1 & E2 & E3).
  pose proof (shifted_mantissa mx ex Hm He) as [Hb Hn]. cbv zeta in Hb, Hn.
  unfold binary_round_aux. rewrite E1.
  set (e' := fexp (Zdigits2 mx + ex)) in *.
  rewrite <- E2 in Hb, Hn.
  set (m' := shr_m mrs) in *.
  unfold rec_ok in E3. fold m' in E3.
  apply loc_ok_unscale in E3.
  pose proof (rne_cases m' (loc_of_shr_record mrs)) as Hr.
  set (l' := loc_of_shr_record mrs) in *.
  set (m1 := round_nearest_even m' l') in *.
  assert (He' : -1074 <= e') by (unfold e'; rewrite fexp_val; lia).
  assert (Hloc : (x = F2R m' e' /\ m1 = m') \/
     ((F2R m' e' < x < F2R (m' + 1) e')%R /\ (m1 = m' \/ m1 = m' + 1))).
  { destruct l' as [|c]; [left|right]; auto. }
  assert (Hm1 : 0 <= m1 <= 2 ^ 53) by (destruct Hloc as [[_ ->]|[_ [->| ->]]]; lia).
  exists m', m1, e'. repeat (split; [assumption|]).
  destruct (Z.eq_dec m1 0) as [Z1|NZ1].
  { left. split; [assumption|]. exists false. rewrite Z1.
    unfold shr_fexp, shr. simpl Zdigits2.
    destruct (fexp (0 + e') - e'); simpl; try reflexivity.
    rewrite iter_shr_zero. reflexivity. }
  right.
  destruct (Z.eq_dec m1 (2 ^ 53)) as [T1|NT1].
  { exists (4503599627370496)%positive, (e' + 1). rewrite T1.
    unfold shr_fexp. change (Zdigits2 (2 ^ 53)) with 54.
    replace (fexp (54 + e') - e') with 1 by (rewrite fexp_val; lia).
    simpl.
    repeat split.
    - unfold F2R. rewrite pow2_succ.
      change (Z.pow_pos 2 53) with (2 * 4503599627370496).
      rewrite mult_IZR. ring.
    - apply canonical_iff. change (Zpos (digits2_pos 4503599627370496)) with 53. lia.
    - destruct (Z.leb_spec (e' + 1) 971); [left|right]; split; auto; lia. }
  assert (Hp : 0 < m1 < 2 ^ 53) by lia.
  destruct m1 as [|m2|m2] eqn:Em1; try lia.
  exists m2, e'.
  pose proof (Zdigits2_bounds (Zpos m2) ltac:(lia)) as Hd.
  pose proof (Zdigits2_pos (Zpos m2) ltac:(lia)) as Hd0.
  assert (Hd53 : Zdigits2 (Zpos m2) <= 53).
  { destruct (Z_lt_le_dec 53 (Zdigits2 (Zpos m2))); [|lia].
    assert (2 ^ 53 <= 2 ^ (Zdigits2 (Zpos m2) - 1)) by (apply Z.pow_le_mono_r; lia). lia. }
  unfold shr_fexp, shr.
  destruct (fexp (Zdigits2 (Zpos m2) + e') - e') as [|q|q] eqn:En;
    try (rewrite fexp_val in En; lia); simpl shr_m.
  - repeat split.
    + apply canonical_iff. simpl Zdigits2 in *. rewrite fexp_val in En.
      destruct Hn as [Hn|Hn]; [lia|].
      assert (Zpos (digits2_pos m2) = 53); [|lia].
      apply (Zdigits2_unique (Zpos m2)); lia.
    + destruct (Z.leb_spec e' (Py.emax - Py.prec)); unfold Py.emax, Py.prec in *; [left|right]; split; auto; lia.
  - repeat split.
    + apply canonical_iff. simpl Zdigits2 in *. rewrite fexp_val in En.
      destruct Hn as [Hn|Hn]; [lia|].
      assert (Zpos (digits2_pos m2) = 53); [|lia].
      apply (Zdigits2_unique (Zpos m2)); lia.
    + destruct (Z.leb_spec e' (Py.emax - Py.prec)); unfold Py.emax, Py.prec in *; [left|right]; split; auto; lia.
Qed.

Lemma F2R_le m n e : m <= n -> (F2R m e <= F2R n e)%R.
Proof.
  intros H. unfold F2R. apply Rmult_le_compat_r.
  - left. apply pow2_pos.
  - now apply IZR_le.
Qed.

Lemma F2R_lt_inv m n e : (F2R m e < F2R n e)%R -> m < n.
Proof.
  intros H. destruct (Z_lt_le_dec m n) as [|Hle]; [assumption|].
  apply (F2R_le _ _ e) in Hle. lra.
Qed.

Lemma F2R_le_inv m n e : (F2R m e <= F2R n e)%R -> m <= n.
Proof.
  intros H. destruct (Z_le_gt_dec m n) as [|Hgt]; [assumption|].
  assert (Hlt : n < m) by lia.
  unfold F2R in H. pose proof (pow2_pos e). apply IZR_lt in Hlt. nra.
Qed.

Lemma F2R_shift k c e : e <= c -> F2R k c = F2R (k * 2 ^ (c - e)) e.
Proof.
  intros H. unfold F2R. rewrite mult_IZR, <- pow2_Z by lia.
  rewrite Rmult_assoc, <- pow2_add. f_equal. f_equal. lia.
Qed.

Lemma F2R_0 e : F2R 0 e = 0%R.
Proof. unfold F2R. ring. Qed.

Lemma F2R_nonneg m e : 0 <= m -> (0 <= F2R m e)%R.
Proof. intros H. rewrite <- (F2R_0 e). now apply F2R_le. Qed.

Lemma below_binade k c m' e' :
  0 <= k < 2 ^ 53 -> c < e' -> 2 ^ 52 <= m' -> (F2R k c < F2R m' e')%R.
Proof.
  intros Hk Hc Hm.
  apply Rlt_le_trans with (F2R (2 ^ 53) c).
  - unfold F2R. apply Rmult_lt_compat_r; [apply pow2_pos|]. apply IZR_lt; lia.
  - apply Rle_trans with (F2R (2 ^ 52) e'); [|now apply F2R_le].
    unfold F2R. rewrite <- !pow2_Z, <- !pow2_add by lia. apply pow2_le. lia.
Qed.

Lemma rounds_upper x r b :
  rounds_to x r -> representable b -> (x <= b)%R ->
  good r /\ (B2R r <= b)%R /\ (0 <= B2R r)%R.
Proof.
  intros (m' & m1 & e' & Hb & Hn & He & Hloc & Hr) (k & c & -> & Hk & Hc) Hx.
  assert (Hm1 : 0 <= m1) by (destruct Hloc as [[_ ->]|[_ [->| ->]]]; lia).
  assert (Hv : (F2R m1 e' <= F2R k c)%R).
  { destruct Hloc as [[Ex ->]|[[L1 L2] Hm]].
    - now rewrite <- Ex.
    - apply Rle_trans with (F2R (m' + 1) e'); [apply F2R_le; lia|].
      destruct (Z_lt_le_dec c e') as [Hlt|Hge].
      + destruct Hn as [Hn|Hn]; [lia|].
        pose proof (below_binade k c m' e' Hk Hlt Hn). lra.
      + rewrite (F2R_shift k c e' Hge) in *. apply F2R_le.
        assert (m' < k * 2 ^ (c - e')); [|lia].
        apply (F2R_lt_inv _ _ e'). lra. }
  destruct Hr as [[-> [s ->]]|(m2 & e2 & Ev & Hcan & Hfin)].
  - split; [left; eauto|]. simpl. split; [|lra].
    rewrite F2R_0 in Hv. exact Hv.
  - destruct Hfin as [[He2 ->]|[He2 _]].
    + split; [|split].
      * right. exists m2, e2. split; [reflexivity|]. unfold bounded.
        rewrite Hcan. simpl. apply Z.leb_le. exact He2.
      * simpl. rewrite Ev. exact Hv.
      * simpl. apply F2R_nonneg. lia.
    + exfalso. apply canonical_iff in Hcan.
      assert (Hd : Zpos (digits2_pos m2) = 53) by lia.
      pose proof (digits2_pos_bounds m2) as [B1 _]. rewrite Hd in B1.
      pose proof (below_binade k c (Zpos m2) e2 Hk ltac:(lia) B1). lra.
Qed.

Lemma rounds_lower x r a b :
  rounds_to x r -> representable a -> representable b -> (a <= x <= b)%R ->
  (a <= B2R r)%R.
Proof.
  intros Hr Ha Hrb [Hax Hxb].
  destruct (rounds_upper x r b Hr Hrb Hxb) as (Hg & Hub & _).
  destruct Hr as (m' & m1 & e' & Hb & Hn & He & Hloc & Hr).
  destruct Ha as (k & c & -> & Hk & Hc).
  assert (Hm1 : m' <= m1) by (destruct Hloc as [[_ ->]|[_ [->| ->]]]; lia).
  assert (Hlt : (x < F2R (m' + 1) e')%R).
  { destruct Hloc as [[-> _]|[[_ L2] _]]; [|assumption].
    unfold F2R. rewrite plus_IZR. pose proof (pow2_pos e'). nra. }
  assert (Hv : (F2R k c <= F2R m1 e')%R).
  { apply Rle_trans with (F2R m' e'); [|now apply F2R_le].
    destruct (Z_lt_le_dec c e') as [Hc'|Hge].
    - destruct Hn as [Hn|Hn]; [lia|].
      left. now apply below_binade.
    - rewrite (F2R_shift k c e' Hge) in *. apply F2R_le.
      assert (k * 2 ^ (c - e') < m' + 1); [|lia].
      apply (F2R_lt_inv _ _ e'). lra. }
  destruct Hr as [[-> [s ->]]|(m2 & e2 & Ev & Hcan & Hfin)].
  - simpl. rewrite F2R_0 in Hv. exact Hv.
  - destruct Hfin as [[He2 ->]|[He2 ->]].
    + simpl. rewrite Ev. exact Hv.
    + destruct Hg as [[? Hg]|(? & ? & Hg & _)]; discriminate Hg.
Qed.

(** A number that is itself representable is not changed by rounding. *)
Lemma rounds_exact x r :
  rounds_to x r -> representable x -> good r /\ B2R r = x.
Proof.
  intros Hr Hx.
  destruct (rounds_upper x r x Hr Hx) as (Hg & Hu & _); [lra|].
  pose proof (rounds_lower x r x x Hr Hx Hx ltac:(lra)).
  split; [assumption|lra].
Qed.

(** The rounding error from above, relative in the normal range. *)
Lemma rounds_error x r b :
  rounds_to x r -> representable b -> (0 <= x <= b)%R ->
  (B2R r <= x + x * pow2 (-52) + pow2 (-1074))%R /\
  (x <= B2R r + x * pow2 (-52) + pow2 (-1074))%R.
Proof.
  intros Hr Hrb [Hx0 Hxb].
  destruct (rounds_upper x r b Hr Hrb Hxb) as (Hg & _ & _).
  destruct Hr as (m' & m1 & e' & Hb & Hn & He & Hloc & Hr).
  assert (Hval : B2R r = F2R m1 e').
  { destruct Hr as [[-> [s ->]]|(m2 & e2 & Ev & Hcan & [[_ ->]|[_ ->]])].
    - simpl. now rewrite F2R_0.
    - simpl. exact Ev.
    - destruct Hg as [[? Hg]|(? & ? & Hg & _)]; discriminate Hg. }
  rewrite Hval.
  assert (Hulp : (pow2 e' <= x * pow2 (-52) + pow2 (-1074))%R).
  { pose proof (pow2_pos (-52)). pose proof (pow2_pos (-1074)).
    destruct Hn as [->|Hn]; [nra|].
    assert (F2R (2 ^ 52) e' <= x)%R.
    { apply Rle_trans with (F2R m' e'); [now apply F2R_le|].
      destruct Hloc as [[-> _]|[[L _] _]]; lra. }
    unfold F2R in H1. rewrite <- pow2_Z in H1 by lia.
    assert (pow2 e' = pow2 52 * pow2 e' * pow2 (-52))%R.
    { rewrite <- !pow2_add. f_equal. lia. }
    nra. }
  assert (Hstep : F2R (m' + 1) e' = (F2R m' e' + pow2 e')%R).
  { unfold F2R. rewrite plus_IZR. ring. }
  destruct Hloc as [[-> ->]|[[L1 L2] [->| ->]]]; rewrite ?Hstep in *; split; try lra.
  - pose proof (pow2_pos e'). pose proof (pow2_pos (-52)). pose proof (pow2_pos (-1074)). nra.
  - pose proof (pow2_pos e'). pose proof (pow2_pos (-52)). pose proof (pow2_pos (-1074)). nra.
Qed.

Lemma bounded_iff m e :
  bounded Py.prec Py.emax m e = true <->
  Z.max (Zpos (digits2_pos m) + e - 53) (-1074) = e /\ e <= 971.
Proof.
  unfold bounded. rewrite andb_true_iff, canonical_iff, Z.leb_le.
  unfold Py.emax, Py.prec. lia.
Qed.

Lemma bounded_mantissa m e :
  bounded Py.prec Py.emax m e = true ->
  0 < Zpos m < 2 ^ 53 /\ -1074 <= e <= 971 /\ (e = -1074 \/ 2 ^ 52 <= Zpos m).
Proof.
  intros H. apply bounded_iff in H. destruct H as [Hc He].
  pose proof (digits2_pos_bounds m) as [B1 B2].
  assert (Hd : Zpos (digits2_pos m) <= 53) by lia.
  assert (2 ^ Zpos (digits2_pos m) <= 2 ^ 53) by (apply Z.pow_le_mono_r; lia).
  split; [lia|]. split; [lia|].
  destruct (Z.eq_dec e (-1074)); [left; assumption|right].
  replace (Zpos (digits2_pos m) - 1) with 52 in B1 by lia. exact B1.
Qed.

Lemma good_nonneg r : good r -> (0 <= B2R r)%R.
Proof.
  intros [[s ->]|(m & e & -> & _)]; simpl; [lra|]. apply F2R_nonneg. lia.
Qed.

Lemma good_representable r : good r -> representable (B2R r).
Proof.
  intros [[s ->]|(m & e & -> & H)].
  - exists 0, 0. simpl. rewrite F2R_0. repeat split; lia.
  - apply bounded_mantissa in H. exists (Zpos m), e. simpl. repeat split; lia.
Qed.

(** A double is its own rounding. *)
Lemma rounds_to_self r : good r -> rounds_to (B2R r) r.
Proof.
  intros [[s ->]|(m & e & -> & H)].
  - exists 0, 0, (-1074). simpl. rewrite F2R_0.
    repeat split; try lia; eauto.
  - pose proof (bounded_mantissa m e H) as (Hm & He & Hn).
    apply bounded_iff in H. destruct H as [Hc He2].
    exists (Zpos m), (Zpos m), e. simpl.
    repeat split; try lia; auto.
    right. exists m, e. repeat split; auto.
    now apply canonical_iff.
Qed.

Lemma rounds_to_zero s : rounds_to 0 (S754_zero s).
Proof. apply (rounds_to_self (S754_zero s)). left. eauto. Qed.

Lemma Zdigits2_lower m k : 0 < m -> 2 ^ (k - 1) <= m -> k <= Zdigits2 m.
Proof.
  intros Hm Hk. pose proof (Zdigits2_bounds m Hm) as [_ B].
  destruct (Z_le_gt_dec k (Zdigits2 m)); [assumption|].
  assert (2 ^ Zdigits2 m <= 2 ^ (k - 1)); [|lia].
  apply Z.pow_le_mono_r; lia.
Qed.

(** ** Multiplication *)
Lemma mul_spec x y :
  good x -> good y -> rounds_to (B2R x * B2R y) (Py.mul x y).
Proof.
  intros [[sx ->]|(mx & ex & -> & Hx)] [[sy ->]|(my & ey & -> & Hy)]; simpl B2R;
    try (rewrite ?Rmult_0_l, ?Rmult_0_r; apply rounds_to_zero).
  unfold Py.mul, SFmul. simpl xorb. apply round_aux_spec.
  - lia.
  - simpl. unfold F2R. rewrite Pos2Z.inj_mul, mult_IZR.
    replace (- (ex + ey)) with (- ex + - ey) by lia. rewrite pow2_add.
    transitivity (IZR (Zpos mx) * IZR (Zpos my) * (pow2 ex * pow2 (- ex)) * (pow2 ey * pow2 (- ey)))%R;
      [ring|].
    rewrite <- !pow2_add. replace (ex + - ex) with 0 by lia.
    replace (ey + - ey) with 0 by lia. rewrite pow2_0. ring.
  - apply bounded_iff in Hx, Hy. destruct Hx as [Hx _], Hy as [Hy _].
    pose proof (digits2_pos_bounds mx) as [Bx _].
    pose proof (digits2_pos_bounds my) as [By _].
    set (dx := Zpos (digits2_pos mx)) in *. set (dy := Zpos (digits2_pos my)) in *.
    assert (Hdx : 0 < dx) by (unfold dx; lia).
    assert (Hdy : 0 < dy) by (unfold dy; lia).
    assert (Hd : dx + dy - 1 <= Zdigits2 (Zpos (mx * my))).
    { apply Zdigits2_lower; [lia|].
      replace (dx + dy - 1 - 1) with ((dx - 1) + (dy - 1)) by lia.
      rewrite Z.pow_add_r, Pos2Z.inj_mul by lia.
      apply Z.mul_le_mono_nonneg; try lia; apply Z.pow_nonneg; lia. }
    rewrite fexp_val. lia.
Qed.

(** ** Conversion of ints and subtraction *)
Lemma iter_xO m d : Zpos (Pos.iter xO m d) = Zpos m * 2 ^ Zpos d.
Proof.
  induction d as [|d IH] using Pos.peano_ind.
  - simpl. lia.
  - rewrite Pos.iter_succ, Pos2Z.inj_xO, IH, Pos2Z.inj_succ, Z.pow_succ_r by lia. lia.
Qed.

Lemma Zdigits2_shift m d : 0 < m -> 0 <= d -> Zdigits2 (m * 2 ^ d) = Zdigits2 m + d.
Proof.
  intros Hm Hd. pose proof (Zdigits2_bounds m Hm) as [B1 B2].
  pose proof (Zdigits2_pos m Hm).
  assert (0 < 2 ^ d) by (apply Z.pow_pos_nonneg; lia).
  apply Zdigits2_unique; [nia|].
  replace (Zdigits2 m + d - 1) with ((Zdigits2 m - 1) + d) by lia.
  rewrite !Z.pow_add_r by lia. nia.
Qed.

Lemma shl_align_spec m e e' :
  let '(mz, ez) := shl_align m e e' in
  F2R (Zpos mz) ez = F2R (Zpos m) e /\ ez <= e' /\
  Zdigits2 (Zpos mz) + ez = Zdigits2 (Zpos m) + e /\ (e' <= e -> ez = e').
Proof.
  unfold shl_align. destruct (e' - e) as [|p|p] eqn:E.
  - repeat split; lia.
  - repeat split; lia.
  - rewrite iter_xO. repeat split; try lia.
    + rewrite (F2R_shift (Zpos m) e e') by lia. f_equal. f_equal. f_equal. lia.
    + rewrite Zdigits2_shift by lia. lia.
Qed.

Lemma round_spec m e :
  rounds_to (F2R (Zpos m) e) (binary_round Py.prec Py.emax false m e).
Proof.
  unfold binary_round.
  pose proof (shl_align_spec m e (fexp (Zpos (digits2_pos m) + e))) as H.
  destruct (shl_align m e (fexp (Zpos (digits2_pos m) + e))) as [mz ez].
  destruct H as (Hv & Hle & Hd & _). rewrite <- Hv.
  apply round_aux_spec.
  - lia.
  - simpl. unfold F2R. rewrite Rmult_assoc, <- pow2_add.
    replace (ez + - ez) with 0 by lia. rewrite pow2_0. ring.
  - rewrite Hd. exact Hle.
Qed.

Lemma normalize_spec m e :
  0 <= m -> rounds_to (F2R m e) (binary_normalize Py.prec Py.emax m e false).
Proof.
  intros Hm. destruct m as [|m|m]; try lia; simpl.
  - rewrite F2R_0. apply rounds_to_zero.
  - apply round_spec.
Qed.

Lemma shl_align_fst m e e' :
  e' <= e -> F2R (Zpos (fst (shl_align m e e'))) e' = F2R (Zpos m) e.
Proof.
  intros H. pose proof (shl_align_spec m e e') as S.
  destruct (shl_align m e e') as [mz ez]. simpl.
  destruct S as (Hv & _ & _ & He). rewrite <- Hv, He; auto.
Qed.

Lemma sub_spec x y :
  good x -> good y -> (B2R y <= B2R x)%R -> rounds_to (B2R x - B2R y) (Py.sub x y).
Proof.
  intros Hx Hy Hle. pose proof (good_nonneg y Hy) as Hy0.
  destruct Hx as [[sx ->]|(mx & ex & -> & Hx)]; destruct Hy as [[sy ->]|(my & ey & -> & Hy)].
  - simpl B2R. rewrite Rminus_0_r. destruct sx, sy; apply rounds_to_zero.
  - exfalso. simpl in Hle. unfold F2R in Hle.
    pose proof (pow2_pos ey). assert (0 < IZR (Zpos my))%R by (apply IZR_lt; lia). nra.
  - simpl B2R. rewrite Rminus_0_r.
    apply (rounds_to_self (S754_finite false mx ex)). right. eauto.
  - unfold Py.sub, SFsub. simpl cond_Zopp.
    set (ez := Z.min ex ey).
    pose proof (shl_align_fst mx ex ez ltac:(lia)) as Ex.
    pose proof (shl_align_fst my ey ez ltac:(lia)) as Ey.
    set (ax := Zpos (fst (shl_align mx ex ez))) in *.
    set (ay := Zpos (fst (shl_align my ey ez))) in *.
    assert (Hv : F2R (ax - ay) ez = (B2R (S754_finite false mx ex) - B2R (S754_finite false my ey))%R).
    { cbn [B2R cond_Zopp]. rewrite <- Ex, <- Ey. unfold F2R. rewrite minus_IZR. ring. }
    rewrite <- Hv. apply normalize_spec.
    cbn [B2R cond_Zopp] in Hle. rewrite <- Ex, <- Ey in Hle. apply F2R_le_inv in Hle. lia.
Qed.

Lemma of_int_spec n :
  0 <= n < 2 ^ 53 ->
  exists f, Py.of_int n = inr f /\ good f /\ B2R f = IZR n.
Proof.
  intros Hn. unfold Py.of_int.
  pose proof (normalize_spec n 0 ltac:(lia)) as H.
  assert (Hr : representable (F2R n 0)) by (exists n, 0; repeat split; lia).
  destruct (rounds_exact _ _ H Hr) as [Hg Hv].
  exists (binary_normalize Py.prec Py.emax n 0 false).
  split; [|split; [assumption|]].
  - destruct Hg as [[s ->]|(m & e & -> & _)]; reflexivity.
  - rewrite Hv. unfold F2R. rewrite pow2_0. ring.
Qed.

(** ** Division *)
Lemma new_location_cases n k :
  (k = 0 /\ new_location n k = loc_Exact) \/
  (k <> 0 /\ exists c, new_location n k = loc_Inexact c).
Proof.
  unfold new_location, new_location_even, new_location_odd.
  destruct (Z.even n); destruct (Z.eqb_spec k 0) as [->|Hk];
    try (left; split; reflexivity); right; (split; [assumption|]); eexists; reflexivity.
Qed.

Lemma shifted_dividend m s :
  0 <= s ->
  match s with Z.pos _ => Z.shiftl m s | 0 => m | Z.neg _ => 0 end = m * 2 ^ s.
Proof.
  intros Hs. destruct s as [|p|p]; try lia.
  apply Z.shiftl_mul_pow2. lia.
Qed.

Lemma div_core_spec m1 e1 m2 e2 :
  let '(q, e', l) := SFdiv_core_binary Py.prec Py.emax (Zpos m1) e1 (Zpos m2) e2 in
  0 <= q /\
  loc_ok q (F2R (Zpos m1) e1 / F2R (Zpos m2) e2 * pow2 (- e')) l /\
  e' <= fexp (Zdigits2 q + e').
Proof.
  unfold SFdiv_core_binary.
  set (d1 := Zdigits2 (Zpos m1)). set (d2 := Zdigits2 (Zpos m2)).
  set (e' := Z.min (fexp (d1 + e1 - (d2 + e2))) (e1 - e2)).
  set (s := e1 - e2 - e').
  assert (Ee : e' = Z.min (Z.max (d1 + e1 - (d2 + e2) - 53) (-1074)) (e1 - e2)) by reflexivity.
  assert (Es : s = e1 - e2 - e') by reflexivity.
  assert (Hs : 0 <= s) by lia.
  set (m' := match s with Z.pos _ => Z.shiftl (Zpos m1) s | 0 => Zpos m1 | Z.neg _ => 0 end).
  assert (Hm' : m' = Zpos m1 * 2 ^ s) by (apply shifted_dividend; exact Hs).
  pose proof (Z_div_mod m' (Zpos m2) ltac:(lia)) as Hdiv.
  destruct (Z.div_eucl m' (Zpos m2)) as [q r]. destruct Hdiv as [Hq Hr].
  assert (Hps : 0 < 2 ^ s) by (apply Z.pow_pos_nonneg; lia).
  assert (Hq0 : 0 <= q) by nia.
  assert (Hy : (F2R (Zpos m1) e1 / F2R (Zpos m2) e2 * pow2 (- e'))%R
               = (IZR q + IZR r / IZR (Zpos m2))%R).
  { unfold F2R.
    assert (E1 : pow2 e1 = (pow2 s * pow2 e2 * pow2 e')%R).
    { rewrite <- !pow2_add. f_equal. lia. }
    assert (E2 : (pow2 e' * pow2 (- e') = 1)%R).
    { rewrite <- pow2_add. replace (e' + - e') with 0 by lia. apply pow2_0. }
    assert (E3 : (IZR (Zpos m1) * pow2 s = IZR (Zpos m2) * IZR q + IZR r)%R).
    { rewrite pow2_Z by lia. rewrite <- !mult_IZR, <- plus_IZR. f_equal. lia. }
    pose proof (pow2_pos e2). pose proof (pow2_pos e').
    assert (0 < IZR (Zpos m2))%R by (apply IZR_lt; lia).
    rewrite E1.
    transitivity ((IZR (Zpos m1) * pow2 s) * (pow2 e' * pow2 (- e')) / IZR (Zpos m2))%R.
    - field. split; lra.
    - rewrite E2, E3. field. lra. }
  split; [assumption|]. split.
  - rewrite Hy. assert (0 < IZR (Zpos m2))%R by (apply IZR_lt; lia).
    destruct (new_location_cases (Zpos m2) r) as [[-> ->]|[Hr0 [c ->]]]; simpl.
    + unfold Rdiv. ring.
    + assert (0 < IZR r < IZR (Zpos m2))%R by (split; apply IZR_lt; lia).
      assert (0 < IZR r / IZR (Zpos m2) < 1)%R.
      { split.
        - apply Rdiv_lt_0_compat; lra.
        - apply Rmult_lt_reg_r with (IZR (Zpos m2)); [lra|].
          unfold Rdiv. rewrite Rmult_assoc, Rinv_l by lra. lra. }
      lra.
  - pose proof (Zdigits2_bounds (Zpos m1) ltac:(lia)) as [B1 _].
    pose proof (Zdigits2_bounds (Zpos m2) ltac:(lia)) as [_ B2].
    pose proof (Zdigits2_pos (Zpos m1) ltac:(lia)) as P1.
    pose proof (Zdigits2_pos (Zpos m2) ltac:(lia)) as P2.
    fold d1 in B1, P1. fold d2 in B2, P2.
    assert (Hlow : 2 ^ (d1 - 1 + s) <= m').
    { rewrite Hm', Z.pow_add_r by lia. nia. }
    destruct (Z.eq_dec q 0) as [->|Hqn].
    + change (Zdigits2 0) with 0. pose proof (fexp_val (0 + e')) as Hf.
      assert (Hlt : 2 ^ (d1 - 1 + s) < 2 ^ d2) by lia.
      apply Z.pow_lt_mono_r_iff in Hlt; [|lia|lia].
      lia.
    + assert (Hdq : d1 + s - d2 <= Zdigits2 q).
      { destruct (Z_le_gt_dec (d1 + s - d2) 0) as [Hle|Hgt].
        - pose proof (Zdigits2_pos q ltac:(lia)). lia.
        - apply Zdigits2_lower; [lia|].
          assert (Hlt : 2 ^ (d1 + s - d2 - 1) < q + 1); [|lia].
          apply Z.mul_lt_mono_pos_r with (2 ^ d2); [apply Z.pow_pos_nonneg; lia|].
          rewrite <- Z.pow_add_r by lia.
          replace (d1 + s - d2 - 1 + d2) with (d1 - 1 + s) by lia. nia. }
      pose proof (fexp_val (Zdigits2 q + e')) as Hf. lia.
Qed.

Lemma div_spec a b :
  0 <= a -> 0 < b ->
  rounds_to (IZR a / IZR b) (SFdiv Py.prec Py.emax (Py.exact a) (Py.exact b)).
Proof.
  intros Ha Hb. destruct b as [|mb|mb]; try lia.
  destruct a as [|ma|ma]; try lia.
  - simpl. unfold Rdiv. rewrite Rmult_0_l. apply rounds_to_zero.
  - unfold Py.exact, SFdiv. simpl xorb.
    pose proof (div_core_spec ma 0 mb 0) as H.
    destruct (SFdiv_core_binary Py.prec Py.emax (Zpos ma) 0 (Zpos mb) 0) as [[q e'] l].
    destruct H as (Hq & Hl & He).
    unfold F2R in Hl. rewrite pow2_0, !Rmult_1_r in Hl.
    now apply round_aux_spec.
Qed.

(** ** Comparison *)
Lemma canonical_lt m1 e1 m2 e2 :
  bounded Py.prec Py.emax m1 e1 = true -> bounded Py.prec Py.emax m2 e2 = true ->
  e1 < e2 -> (F2R (Zpos m1) e1 < F2R (Zpos m2) e2)%R.
Proof.
  intros H1 H2 He.
  apply bounded_mantissa in H1, H2.
  destruct H1 as (M1 & E1 & _), H2 as (M2 & E2 & [N2|N2]); [lia|].
  apply below_binade; lia.
Qed.

Lemma ltb_spec a b :
  good a -> good b -> (SFltb a b = true <-> (B2R a < B2R b)%R).
Proof.
  intros [[sa ->]|(ma & ea & -> & Ha)] [[sb ->]|(mb & eb & -> & Hb)]; unfold SFltb; simpl.
  - split; [discriminate|lra].
  - split; [intros _|reflexivity]. unfold F2R.
    pose proof (pow2_pos eb). assert (0 < IZR (Zpos mb))%R by (apply IZR_lt; lia). nra.
  - split; [discriminate|]. unfold F2R.
    pose proof (pow2_pos ea). assert (0 < IZR (Zpos ma))%R by (apply IZR_lt; lia). nra.
  - destruct (Z.compare_spec ea eb) as [->|Hlt|Hgt].
    + change (Pos.compare_cont Eq ma mb) with (Pos.compare ma mb).
      destruct (Pos.compare_spec ma mb) as [->|Hm|Hm].
      * split; [discriminate|lra].
      * split; [intros _|reflexivity]. unfold F2R.
        apply Rmult_lt_compat_r; [apply pow2_pos|]. apply IZR_lt. lia.
      * split; [discriminate|]. intros Hc. apply F2R_lt_inv in Hc. lia.
    + split; [intros _|reflexivity]. now apply canonical_lt.
    + split; [discriminate|]. pose proof (canonical_lt mb eb ma ea Hb Ha ltac:(lia)). lra.
Qed.

Lemma min_spec a b :
  good a -> good b ->
  good (Py.min a b) /\ B2R (Py.min a b) = Rmin (B2R a) (B2R b).
Proof.
  intros Ha Hb. unfold Py.min.
  pose proof (ltb_spec b a Hb Ha) as H.
  destruct (SFltb b a).
  - split; [assumption|]. rewrite Rmin_right; [reflexivity|]. left. now apply H.
  - split; [assumption|]. rewrite Rmin_left; [reflexivity|].
    destruct (Rle_lt_dec (B2R a) (B2R b)); [assumption|].
    assert (false = true) by (now apply H). discriminate.
Qed.

(** ** Truncation *)
Lemma to_int_spec v :
  good v ->
  exists z, Py.to_int v = inr z /\ 0 <= z /\ (IZR z <= B2R v < IZR z + 1)%R.
Proof.
  intros [[s ->]|(m & e & -> & _)].
  - exists 0. simpl. repeat split; try lia; lra.
  - exists (Z.shiftl (Zpos m) e). simpl. split; [reflexivity|].
    destruct (Z_le_gt_dec 0 e) as [He|He].
    + rewrite Z.shiftl_mul_pow2 by lia.
      assert (0 < 2 ^ e) by (apply Z.pow_pos_nonneg; lia).
      split; [nia|]. unfold F2R. rewrite mult_IZR, <- pow2_Z by lia. lra.
    + rewrite Z.shiftl_div_pow2 by lia.
      assert (Hp : 0 < 2 ^ (- e)) by (apply Z.pow_pos_nonneg; lia).
      pose proof (Z_div_mod_eq_full (Zpos m) (2 ^ (- e))) as Hd.
      pose proof (Z.mod_pos_bound (Zpos m) (2 ^ (- e)) Hp) as Hr.
      set (q := Zpos m / 2 ^ (- e)) in *. set (r := Zpos m mod 2 ^ (- e)) in *.
      split; [apply Z.div_pos; lia|].
      assert (Hv : F2R (Zpos m) e = (IZR q + IZR r * pow2 e)%R).
      { unfold F2R. rewrite Hd, plus_IZR, mult_IZR, <- pow2_Z by lia.
        rewrite Rmult_plus_distr_r.
        replace (pow2 (- e) * IZR q * pow2 e)%R with (IZR q * (pow2 (- e) * pow2 e))%R by ring.
        rewrite <- pow2_add. replace (- e + e) with 0 by lia. rewrite pow2_0. ring. }
      rewrite Hv.
      assert (0 <= IZR r * pow2 e < 1)%R.
      { pose proof (pow2_pos e).
        assert (0 <= IZR r)%R by (apply IZR_le; lia).
        assert (IZR r < pow2 (- e))%R by (rewrite pow2_Z by lia; apply IZR_lt; lia).
        assert (pow2 (- e) * pow2 e = 1)%R.
        { rewrite <- pow2_add. replace (- e + e) with 0 by lia. apply pow2_0. }
        split; nra. }
      lra.
Qed.

Lemma eps_val : pow2 (-52) = (/ 4503599627370496)%R.
Proof. change (-52) with (- (52)). rewrite pow2_opp, pow2_Z by lia. reflexivity. Qed.

Lemma delta_le_eps : (pow2 (-1074) <= pow2 (-52))%R.
Proof. apply pow2_le. lia. Qed.

Lemma representable_int n : 0 <= n < 2 ^ 53 -> representable (IZR n).
Proof.
  intros H. exists n, 0. unfold F2R. rewrite pow2_0, Rmult_1_r. repeat split; lia.
Qed.

Lemma representable_half_int n : 0 <= n < 2 ^ 52 -> representable (IZR n + / 2).
Proof.
  intros H. exists (2 * n + 1), (-1). unfold F2R.
  rewrite plus_IZR, mult_IZR. change (-1) with (- (1)). rewrite pow2_opp, pow2_1.
  repeat split; try lia. field.
Qed.

Lemma good_half : good (Py.literal 1 2) /\ B2R (Py.literal 1 2) = (/ 2)%R.
Proof.
  split.
  - right. eexists _, _. split; [reflexivity|]. reflexivity.
  - change (Py.literal 1 2) with (S754_finite false 4503599627370496 (-53)).
    simpl. unfold F2R. change (-53) with (- (53)). rewrite pow2_opp, pow2_Z by lia.
    change (2 ^ 53) with (2 * 4503599627370496). rewrite mult_IZR. field.
Qed.

Lemma pad_in_range_spec p :
  pad_in_range p = true -> good p /\ (0 <= B2R p < / 2)%R.
Proof.
  unfold pad_in_range. rewrite !andb_true_iff. intros [[Hv Hle] Hlt].
  destruct good_half as [Gh Vh].
  assert (Hg : good p).
  { destruct p as [s|s| |s m e]; try discriminate.
    - left. eauto.
    - destruct s; discriminate.
    - destruct s; [discriminate|]. right. eauto. }
  split; [assumption|]. split; [now apply good_nonneg|].
  rewrite <- Vh. now apply ltb_spec.
Qed.

Lemma inr_bind {A B : Type} (c : py A) (f : A -> py B) a :
  c = inr a -> bind c f = f a.
Proof. intros ->. reflexivity. Qed.

Lemma int_mul_spec n x :
  0 <= n < 2 ^ 53 -> good x ->
  exists v, Py.int_mul n x = inr v /\ rounds_to (IZR n * B2R x) v.
Proof.
  intros Hn Hx. destruct (of_int_spec n Hn) as (f & Ef & Gf & Vf).
  exists (Py.mul f x). unfold Py.int_mul. rewrite (inr_bind _ _ _ Ef).
  split; [reflexivity|]. rewrite <- Vf. now apply mul_spec.
Qed.

Lemma int_sub_spec n x :
  0 <= n < 2 ^ 53 -> good x -> (B2R x <= IZR n)%R ->
  exists v, Py.int_sub n x = inr v /\ rounds_to (IZR n - B2R x) v.
Proof.
  intros Hn Hx Hle. destruct (of_int_spec n Hn) as (f & Ef & Gf & Vf).
  exists (Py.sub f x). unfold Py.int_sub. rewrite (inr_bind _ _ _ Ef).
  split; [reflexivity|]. rewrite <- Vf. apply sub_spec; auto. now rewrite Vf.
Qed.

(** [int(n*(1 - 2*pad_ratio))] is total on the valid range, and within a
    rounding error of the exact product. *)
Lemma padded_spec n p :
  0 <= n <= int_max -> pad_in_range p = true ->
  exists m, padded n p = inr m /\ 0 <= m <= n /\
    (IZR m <= IZR n * (1 - 2 * B2R p) + / 1024)%R /\
    (IZR n * (1 - 2 * B2R p) < IZR m + 1 + / 1024)%R.
Proof.
  unfold int_max. intros Hn Hp.
  destruct (pad_in_range_spec p Hp) as [Gp [P0 P1]].
  (* t = 2 * pad_ratio, exactly *)
  destruct (int_mul_spec 2 p ltac:(lia) Gp) as (t & Et & Rt).
  assert (Ht : good t /\ B2R t = (2 * B2R p)%R).
  { apply rounds_exact; [assumption|].
    destruct Gp as [[s ->]|(m & e & -> & Hb)].
    - simpl. rewrite Rmult_0_r. apply (representable_int 0). lia.
    - pose proof (bounded_mantissa m e Hb) as (Hm & He & _).
      exists (Zpos m), (e + 1). simpl B2R in *. unfold F2R in *.
      rewrite pow2_succ. split; [ring|]. split; [lia|].
      destruct (Z_le_gt_dec e 970); [lia|]. exfalso.
      assert (pow2 0 <= pow2 e)%R by (apply pow2_le; lia). rewrite pow2_0 in H.
      assert (1 <= IZR (Zpos m))%R by (apply IZR_le; lia). nra. }
  destruct Ht as [Gt Vt].
  (* u = 1 - t *)
  destruct (int_sub_spec 1 t ltac:(lia) Gt ltac:(rewrite Vt; lra)) as (u & Eu & Ru).
  rewrite Vt in Ru.
  set (x := (1 - 2 * B2R p)%R) in *.
  assert (Hx : (0 <= x <= 1)%R) by (unfold x; lra).
  assert (R1 : representable 1) by (apply (representable_int 1); lia).
  destruct (rounds_upper _ _ 1 Ru R1 ltac:(lra)) as (Gu & Uu & Lu).
  destruct (rounds_error _ _ 1 Ru R1 Hx) as [Eu1 Eu2].
  (* v = n * u *)
  destruct (int_mul_spec n u ltac:(lia) Gu) as (v & Ev & Rv).
  assert (Rn : representable (IZR n)) by (apply representable_int; lia).
  assert (HN : (0 <= IZR n <= 2147483647)%R) by (split; apply IZR_le; lia).
  assert (Hy : (0 <= IZR n * B2R u <= IZR n)%R) by (split; nra).
  destruct (rounds_upper _ _ (IZR n) Rv Rn ltac:(lra)) as (Gv & Uv & Lv).
  destruct (rounds_error _ _ (IZR n) Rv Rn Hy) as [Ev1 Ev2].
  destruct (to_int_spec v Gv) as (m & Em & Hm0 & Hm1 & Hm2).
  exists m. split.
  { unfold padded. rewrite (inr_bind _ _ _ Et), (inr_bind _ _ _ Eu), (inr_bind _ _ _ Ev).
    exact Em. }
  split.
  { split; [assumption|]. apply le_IZR. lra. }
  pose proof eps_val as Ee. pose proof delta_le_eps as Ed.
  pose proof (pow2_pos (-1074)) as Hd0.
  set (eps := pow2 (-52)) in *. set (dl := pow2 (-1074)) in *.
  assert (He0 : (0 < eps)%R) by (rewrite Ee; lra).
  assert (Hne : (IZR n * eps <= 2147483647 * eps)%R) by nra.
  assert (Hxe : (x * eps <= eps)%R) by nra.
  assert (Hye : (IZR n * B2R u * eps <= 2147483647 * eps)%R) by nra.
  assert (Hnd : (IZR n * dl <= 2147483647 * eps)%R) by nra.
  assert (Hnx : (IZR n * (x * eps) <= 2147483647 * eps)%R) by nra.
  assert (Hu1 : (IZR n * B2R u <= IZR n * x + IZR n * (x * eps) + IZR n * dl)%R).
  { replace (IZR n * x + IZR n * (x * eps) + IZR n * dl)%R
      with (IZR n * (x + x * eps + dl))%R by ring.
    apply Rmult_le_compat_l; lra. }
  assert (Hu2 : (IZR n * x <= IZR n * B2R u + IZR n * (x * eps) + IZR n * dl)%R).
  { replace (IZR n * B2R u + IZR n * (x * eps) + IZR n * dl)%R
      with (IZR n * (B2R u + x * eps + dl))%R by ring.
    apply Rmult_le_compat_l; lra. }
  rewrite Ee in *. split; lra.
Qed.

Lemma truediv_spec m w :
  0 <= m < 2 ^ 53 -> 1 <= w ->
  exists s, Py.truediv m w = inr s /\ good s /\ rounds_to (IZR m / IZR w) s /\
            (B2R s <= IZR m)%R.
Proof.
  intros Hm Hw.
  pose proof (div_spec m w ltac:(lia) ltac:(lia)) as Hr.
  assert (HW : (1 <= IZR w)%R) by (apply IZR_le; lia).
  assert (HM : (0 <= IZR m)%R) by (apply IZR_le; lia).
  assert (Hq : (0 <= IZR m / IZR w <= IZR m)%R).
  { split.
    - apply Rmult_le_pos; [lra|]. left. apply Rinv_0_lt_compat. lra.
    - apply Rmult_le_reg_r with (IZR w); [lra|].
      unfold Rdiv. rewrite Rmult_assoc, Rinv_l by lra. nra. }
  destruct (rounds_upper _ _ (IZR m) Hr (representable_int m Hm) ltac:(lra)) as (Hg & Hu & _).
  exists (SFdiv Py.prec Py.emax (Py.exact m) (Py.exact w)).
  split; [|auto].
  unfold Py.truediv. destruct (Z.eqb_spec w 0); [lia|].
  destruct Hg as [[s ->]|(a & b & -> & _)]; reflexivity.
Qed.

Lemma scaled_spec n s b :
  0 <= n < 2 ^ 53 -> good s -> representable b -> (IZR n * B2R s <= b)%R ->
  exists z v, Py.int_mul n s = inr v /\ Py.to_int v = inr z /\ scaled n s = inr z /\
    rounds_to (IZR n * B2R s) v /\ good v /\
    0 <= z /\ (IZR z <= b)%R /\ (IZR z <= B2R v < IZR z + 1)%R.
Proof.
  intros Hn Hs Hb Hle.
  destruct (int_mul_spec n s Hn Hs) as (v & Ev & Rv).
  destruct (rounds_upper _ _ b Rv Hb Hle) as (Gv & Uv & _).
  destruct (to_int_spec v Gv) as (z & Ez & Hz0 & Hz1 & Hz2).
  exists z, v. repeat split; auto; try lra.
  unfold scaled. rewrite (inr_bind _ _ _ Ev). exact Ez.
Qed.

(** One axis of the placement rule: [int(n * scale)] never exceeds the
    padded extent [m] when [scale <= m / n] as a double. *)
Lemma axis_spec m n s q :
  0 <= m <= int_max -> 1 <= n <= int_max ->
  good s -> rounds_to (IZR m / IZR n) q -> (B2R s <= B2R q)%R ->
  exists z, scaled n s = inr z /\ 0 <= z <= m.
Proof.
  unfold int_max. intros Hm Hn Gs Rq Hsq.
  assert (HN : (1 <= IZR n <= 2147483647)%R) by (split; apply IZR_le; lia).
  assert (HM : (0 <= IZR m <= 2147483647)%R) by (split; apply IZR_le; lia).
  assert (Hq : (0 <= IZR m / IZR n <= IZR m)%R).
  { split.
    - apply Rmult_le_pos; [lra|]. left. apply Rinv_0_lt_compat. lra.
    - apply Rmult_le_reg_r with (IZR n); [lra|].
      unfold Rdiv. rewrite Rmult_assoc, Rinv_l by lra. nra. }
  destruct (rounds_error _ _ (IZR m) Rq (representable_int m ltac:(lia)) Hq) as [E1 _].
  pose proof (good_nonneg s Gs) as Hs0.
  pose proof eps_val as Ee. pose proof delta_le_eps as Ed.
  pose proof (pow2_pos (-1074)) as Hd0.
  set (eps := pow2 (-52)) in *. set (dl := pow2 (-1074)) in *.
  assert (Hmn : (IZR n * (IZR m / IZR n) = IZR m)%R) by (field; lra).
  assert (Hprod : (IZR n * B2R s <= IZR m + / 2)%R).
  { apply Rle_trans with (IZR n * (IZR m / IZR n + IZR m / IZR n * eps + dl))%R.
    - apply Rmult_le_compat_l; lra.
    - replace (IZR n * (IZR m / IZR n + IZR m / IZR n * eps + dl))%R
        with (IZR n * (IZR m / IZR n) + IZR n * (IZR m / IZR n) * eps + IZR n * dl)%R by ring.
      rewrite Hmn.
      assert (IZR m * eps <= 2147483647 * eps)%R by nra.
      assert (IZR n * dl <= 2147483647 * eps)%R by nra.
      rewrite Ee in *. lra. }
  destruct (scaled_spec n s (IZR m + / 2) ltac:(lia) Gs
              (representable_half_int m ltac:(lia)) Hprod)
    as (z & v & _ & _ & Ez & _ & _ & Hz0 & Hzb & _).
  exists z. split; [assumption|]. split; [assumption|].
  assert (z < m + 1); [|lia]. apply lt_IZR. rewrite plus_IZR. lra.
Qed.

(** Both axes: the four float steps of the placement rule succeed, and the
    content fits the padded box. *)
Lemma dims_spec mw mh w h :
  0 <= mw <= int_max -> 0 <= mh <= int_max ->
  1 <= w <= int_max -> 1 <= h <= int_max ->
  exists sw sh iw ih,
    Py.truediv mw w = inr sw /\ Py.truediv mh h = inr sh /\
    scaled w (Py.min sw sh) = inr iw /\ scaled h (Py.min sw sh) = inr ih /\
    0 <= iw <= mw /\ 0 <= ih <= mh.
Proof.
  intros Hmw Hmh Hw Hh. unfold int_max in *.
  destruct (truediv_spec mw w ltac:(lia) ltac:(lia)) as (sw & Ew & Gw & Rw & _).
  destruct (truediv_spec mh h ltac:(lia) ltac:(lia)) as (sh & Eh & Gh & Rh & _).
  destruct (min_spec sw sh Gw Gh) as [Gm Vm].
  destruct (axis_spec mw w (Py.min sw sh) sw) as (iw & Eiw & Hiw); auto.
  { rewrite Vm. apply Rmin_l. }
  destruct (axis_spec mh h (Py.min sw sh) sh) as (ih & Eih & Hih); auto.
  { rewrite Vm. apply Rmin_r. }
  exists sw, sh, iw, ih. repeat split; auto; lia.
Qed.

(** A one-pixel source is scaled up to the smaller padded extent. *)
Lemma dims_unit mw mh :
  0 <= mw <= int_max -> 0 <= mh <= int_max ->
  exists sw sh,
    Py.truediv mw 1 = inr sw /\ Py.truediv mh 1 = inr sh /\
    scaled 1 (Py.min sw sh) = inr (Z.min mw mh).
Proof.
  intros Hmw Hmh. unfold int_max in *.
  destruct (truediv_spec mw 1 ltac:(lia) ltac:(lia)) as (sw & Ew & _ & Rw & _).
  destruct (truediv_spec mh 1 ltac:(lia) ltac:(lia)) as (sh & Eh & _ & Rh & _).
  unfold Rdiv in Rw, Rh. rewrite Rinv_1, Rmult_1_r in Rw, Rh.
  destruct (rounds_exact _ _ Rw (representable_int mw ltac:(lia))) as [Gw Vw].
  destruct (rounds_exact _ _ Rh (representable_int mh ltac:(lia))) as [Gh Vh].
  destruct (min_spec sw sh Gw Gh) as [Gm Vm].
  assert (Vmin : B2R (Py.min sw sh) = IZR (Z.min mw mh)).
  { rewrite Vm, Vw, Vh. destruct (Z.min_spec mw mh) as [[H ->]|[H ->]].
    - apply Rmin_left. apply IZR_le. lia.
    - apply Rmin_right. apply IZR_le. lia. }
  assert (Rr : representable (IZR (Z.min mw mh))) by (apply representable_int; lia).
  destruct (scaled_spec 1 (Py.min sw sh) (IZR (Z.min mw mh)) ltac:(lia) Gm Rr)
    as (z & v & _ & _ & Ez & Rv & Gv & Hz0 & Hzb & Hz1 & Hz2).
  { rewrite Vmin. lra. }
  rewrite Vmin, Rmult_1_l in Rv.
  destruct (rounds_exact _ _ Rv Rr) as [_ Vv]. rewrite Vv in Hz1, Hz2.
  exists sw, sh. repeat split; auto.
  rewrite Ez. f_equal.
  apply le_IZR in Hz1. apply lt_IZR in Hz2 || (assert (Z.min mw mh < z + 1) by (apply lt_IZR; rewrite plus_IZR; lra)).
  lia.
Qed.

(** ** The error monad *)
Lemma bind_inv {A B : Type} (c : py A) (f : A -> py B) b :
  bind c f = inr b -> exists a, c = inr a /\ f a = inr b.
Proof. destruct c as [e|a]; simpl; [discriminate|eauto]. Qed.

Ltac inv_bind H :=
  let a := fresh "a" in
  let E := fresh "E" in
  apply bind_inv in H; destruct H as (a & E & H).

Ltac run := cbv beta iota delta [bind ret Monad_py Monad_either]; try reflexivity.

Lemma bind_inr_eq {A B : Type} (a : A) (f : A -> py B) : bind (inr a : py A) f = f a.
Proof. reflexivity. Qed.


Lemma max_1 n : Py.max 1 n = Z.max 1 n.
Proof. unfold Py.max. destruct (Z.ltb_spec 1 n); lia. Qed.

(** ** Rows of pixels *)
Lemma zrange_length n : List.length (zrange n) = Z.to_nat n.
Proof. unfold zrange. now rewrite length_map, length_seq. Qed.

Lemma zrange_nth n k d : 0 <= k < n -> nth (Z.to_nat k) (zrange n) d = k.
Proof.
  intros H. unfold zrange.
  rewrite (nth_indep _ d (Z.of_nat 0)) by (rewrite length_map, length_seq; lia).
  rewrite map_nth, seq_nth by lia. lia.
Qed.

Lemma nth_map_in {A B : Type} (g : A -> B) l k d d' :
  (k < List.length l)%nat -> nth k (map g l) d = g (nth k l d').
Proof.
  intros H. rewrite (nth_indep _ d (g d')) by now rewrite length_map.
  apply map_nth.
Qed.

Lemma getpixel_tabulate m w' h' w h f i j :
  0 <= i < w -> 0 <= j < h ->
  getpixel (Img m w' h' (tabulate w h f)) i j = f i j.
Proof.
  intros Hi Hj. unfold getpixel, tabulate. simpl rows.
  rewrite (nth_map_in _ _ _ _ 0) by (rewrite zrange_length; lia).
  rewrite (nth_map_in _ _ _ _ 0) by (rewrite zrange_length; lia).
  now rewrite !zrange_nth by lia.
Qed.

Lemma tabulate_length w h f : List.length (tabulate w h f) = Z.to_nat h.
Proof. unfold tabulate. now rewrite length_map, zrange_length. Qed.

Lemma tabulate_rows w h f : Forall (fun r => List.length r = Z.to_nat w) (tabulate w h f).
Proof.
  unfold tabulate. apply Forall_forall. intros r Hr.
  apply in_map_iff in Hr. destruct Hr as (j & <- & _).
  now rewrite length_map, zrange_length.
Qed.

Lemma Forall2_map_self {A : Type} (R : A -> A -> Prop) (f : A -> A) l :
  (forall x, R x (f x)) -> Forall2 R l (map f l).
Proof. intros H. induction l; simpl; constructor; auto. Qed.

(** ** Bytes and blending *)
Lemma b2z_range b : 0 <= b2z b <= 255.
Proof. unfold b2z. pose proof (Byte.to_N_bounded b). lia. Qed.

Lemma blend_transparent d s : blend x00 d s = d.
Proof.
  unfold blend. change (b2z x00) with 0.
  rewrite Z.mul_0_r, Z.add_0_r, Z.sub_0_r. destruct d; reflexivity.
Qed.

Lemma blend_opaque d s : blend xff d s = s.
Proof.
  unfold blend. change (b2z xff) with 255.
  rewrite Z.sub_diag, Z.mul_0_r, Z.add_0_l. destruct s; reflexivity.
Qed.

Lemma blend_pixel_transparent d s : blend_pixel x00 d s = d.
Proof. unfold blend_pixel. rewrite !blend_transparent. now destruct d. Qed.

Lemma blend_pixel_opaque d s : blend_pixel xff d s = s.
Proof. unfold blend_pixel. rewrite !blend_opaque. now destruct s. Qed.

(** ** Pillow operations *)
Lemma check_size_inv w h u :
  check_size w h = inr u -> 0 <= w <= int_max /\ 0 <= h <= int_max.
Proof.
  unfold check_size.
  destruct (Z.ltb_spec w 0), (Z.ltb_spec h 0); simpl; try discriminate.
  destruct (Z.ltb_spec int_max w), (Z.ltb_spec int_max h); simpl; try discriminate.
  lia.
Qed.

Lemma check_size_ok w h :
  0 <= w <= int_max -> 0 <= h <= int_max -> check_size w h = inr tt.
Proof.
  intros Hw Hh. unfold check_size.
  destruct (Z.ltb_spec w 0), (Z.ltb_spec h 0); try lia. simpl.
  destruct (Z.ltb_spec int_max w), (Z.ltb_spec int_max h); try lia. reflexivity.
Qed.

Lemma pasted_inv dst src x y mask r :
  paste dst src x y mask = inr r -> r = pasted dst src x y mask.
Proof.
  unfold paste.
  destruct (negb _); [discriminate|].
  destruct (nothing_to_paste dst src x y); [now intros [= <-]|].
  destruct (img_mode mask); [discriminate|now intros [= <-]].
Qed.

Lemma paste_through dst src x y mask :
  img_mode mask = RGBA -> width mask = width src -> height mask = height src ->
  paste dst src x y mask = inr (pasted dst src x y mask).
Proof.
  intros M W H. unfold paste. rewrite W, H, !Z.eqb_refl. cbn [andb negb].
  rewrite M. now destruct (nothing_to_paste dst src x y).
Qed.

Lemma paste_ok dst src x y :
  img_mode src = RGBA -> paste dst src x y src = inr (pasted dst src x y src).
Proof. intros M. now apply paste_through. Qed.

(** A mask without alpha is refused as soon as one of its pixels falls on
    the destination. *)
Lemma paste_bad_mask dst src x y :
  img_mode src = RGB -> nothing_to_paste dst src x y = false ->
  paste dst src x y src = inl ValueError.
Proof.
  intros M N. unfold paste. rewrite !Z.eqb_refl. cbn [andb negb].
  now rewrite N, M.
Qed.

Section Compositor_facts.

Variable allocates : Z -> Z -> bool.
Variable lanczos : image -> Z -> Z -> Z -> Z -> pixel.

Lemma Image_new_inv m w h c img :
  Image_new allocates m w h c = inr img ->
  img = Img m w h (tabulate w h (fun _ _ => c)) /\
  0 <= w <= int_max /\ 0 <= h <= int_max.
Proof.
  unfold Image_new. intros H. inv_bind H. apply check_size_inv in E.
  destruct (allocates w h); [|discriminate].
  injection H as <-. auto.
Qed.

Lemma Image_new_ok m w h c :
  0 <= w <= int_max -> 0 <= h <= int_max -> allocates w h = true ->
  Image_new allocates m w h c = inr (Img m w h (tabulate w h (fun _ _ => c))).
Proof.
  intros Hw Hh Ha. unfold Image_new. rewrite check_size_ok by assumption.
  rewrite bind_inr_eq, Ha. reflexivity.
Qed.

Lemma Image_new_full m w h c :
  0 <= w <= int_max -> 0 <= h <= int_max -> allocates w h = false ->
  Image_new allocates m w h c = inl MemoryError.
Proof.
  intros Hw Hh Ha. unfold Image_new. rewrite check_size_ok by assumption.
  rewrite bind_inr_eq, Ha. reflexivity.
Qed.

Lemma resize_inv img w h r :
  resize allocates lanczos img w h = inr r ->
  r = Img (img_mode img) w h (tabulate w h (lanczos img w h)) /\
  1 <= w <= int_max /\ 1 <= h <= int_max.
Proof.
  unfold resize.
  destruct (Z.ltb_spec w 1), (Z.ltb_spec h 1); simpl; try discriminate.
  destruct (Z.ltb_spec int_max w), (Z.ltb_spec int_max h); simpl; try discriminate.
  destruct (allocates w h); [|discriminate].
  intros Hr. injection Hr as <-. split; [reflexivity|lia].
Qed.

Lemma resize_ok img w h :
  1 <= w <= int_max -> 1 <= h <= int_max -> allocates w h = true ->
  resize allocates lanczos img w h = inr (Img (img_mode img) w h (tabulate w h (lanczos img w h))).
Proof.
  intros Hw Hh Ha. unfold resize.
  destruct (Z.ltb_spec w 1), (Z.ltb_spec h 1); try lia. simpl.
  destruct (Z.ltb_spec int_max w), (Z.ltb_spec int_max h); try lia. simpl.
  now rewrite Ha.
Qed.

(** What a successful run of [fit_on_square] went through. *)
Lemma fit_on_square_run_inv img size p pl :
  fit_on_square_run allocates lanczos img size p = inr pl ->
  exists cv m sw sh iw ih,
    Image_new allocates RGBA size size (Px x00 x00 x00 x00) = inr cv /\
    padded size p = inr m /\
    Py.truediv m (width img) = inr sw /\ Py.truediv m (height img) = inr sh /\
    scaled (width img) (Py.min sw sh) = inr iw /\
    scaled (height img) (Py.min sw sh) = inr ih /\
    resize allocates lanczos img (Z.max 1 iw) (Z.max 1 ih) = inr (content pl) /\
    pos_x pl = (size - Z.max 1 iw) / 2 /\ pos_y pl = (size - Z.max 1 ih) / 2 /\
    canvas pl = pasted cv (content pl) (pos_x pl) (pos_y pl) (content pl).
Proof.
  unfold fit_on_square_run. intros H.
  inv_bind H. inv_bind H. inv_bind H. inv_bind H. inv_bind H. inv_bind H. inv_bind H.
  inv_bind H. apply pasted_inv in E6.
  injection H as <-. rewrite !max_1 in *. simpl.
  eexists _, _, _, _, _, _. repeat split; eassumption.
Qed.

(** The paste of that run: the content onto the fresh canvas, through the
    content itself. *)
Lemma fit_on_square_run_paste img size p pl :
  fit_on_square_run allocates lanczos img size p = inr pl ->
  paste (Img RGBA size size (tabulate size size (fun _ _ => Px x00 x00 x00 x00)))
        (content pl) (pos_x pl) (pos_y pl) (content pl) = inr (canvas pl).
Proof.
  unfold fit_on_square_run. intros H.
  inv_bind H. inv_bind H. inv_bind H. inv_bind H. inv_bind H. inv_bind H. inv_bind H.
  inv_bind H. injection H as <-. simpl.
  apply Image_new_inv in E. destruct E as [<- _]. exact E6.
Qed.

Lemma center_on_canvas_run_inv img w h p pl :
  center_on_canvas_run allocates lanczos img w h p = inr pl ->
  exists cv mw mh sw sh iw ih,
    Image_new allocates RGBA w h (Px xff xff xff x00) = inr cv /\
    padded w p = inr mw /\ padded h p = inr mh /\
    Py.truediv mw (width img) = inr sw /\ Py.truediv mh (height img) = inr sh /\
    scaled (width img) (Py.min sw sh) = inr iw /\
    scaled (height img) (Py.min sw sh) = inr ih /\
    resize allocates lanczos img (Z.max 1 iw) (Z.max 1 ih) = inr (content pl) /\
    pos_x pl = (w - Z.max 1 iw) / 2 /\ pos_y pl = (h - Z.max 1 ih) / 2 /\
    canvas pl = pasted cv (content pl) (pos_x pl) (pos_y pl) (content pl).
Proof.
  unfold center_on_canvas_run. intros H.
  inv_bind H. inv_bind H. inv_bind H. inv_bind H. inv_bind H. inv_bind H. inv_bind H.
  inv_bind H. inv_bind H. apply pasted_inv in E7.
  injection H as <-. rewrite !max_1 in *. simpl.
  pose proof (resize_inv _ _ _ _ E6) as [-> _]. simpl.
  eexists _, _, _, _, _, _, _. repeat split; eassumption.
Qed.

Lemma center_on_canvas_run_paste img w h p pl :
  center_on_canvas_run allocates lanczos img w h p = inr pl ->
  paste (Img RGBA w h (tabulate w h (fun _ _ => Px xff xff xff x00)))
        (content pl) (pos_x pl) (pos_y pl) (content pl) = inr (canvas pl).
Proof.
  unfold center_on_canvas_run. intros H.
  inv_bind H. inv_bind H. inv_bind H. inv_bind H. inv_bind H. inv_bind H. inv_bind H.
  inv_bind H. inv_bind H. injection H as <-. simpl.
  apply Image_new_inv in E. destruct E as [<- _]. exact E7.
Qed.

Lemma center_canvas_run_eq img w h p :
  center_canvas_run allocates lanczos img w h p = center_on_canvas_run allocates lanczos img w h p.
Proof. reflexivity. Qed.

End Compositor_facts.

Lemma clear_near_white_cleared t tol p : cleared t tol p (clear_near_white t tol p).
Proof.
  unfold cleared, clear_near_white, near_white, max3, min3. simpl alpha.
  pose proof (b2z_range (red p)). pose proof (b2z_range (green p)).
  pose proof (b2z_range (blue p)).
  set (mx := Z.max (Z.max (b2z (red p)) (b2z (green p))) (b2z (blue p))) in *.
  set (mn := Z.min (Z.min (b2z (red p)) (b2z (green p))) (b2z (blue p))) in *.
  assert (Hmod : (mx - mn) mod 256 = mx - mn) by (apply Z.mod_small; lia).
  rewrite Hmod.
  destruct (Z.ltb_spec t mx), (Z.ltb_spec (mx - mn) tol); simpl;
    repeat split; intros; try reflexivity; lia.
Qed.

(** Claim C3. For every pixel of the input image, [remove_near_white_bg] sets
    the alpha to 0 when [max(R,G,B) > threshold] and [max(R,G,B) - min(R,G,B)
    < tolerance], and leaves the alpha unchanged otherwise; in particular a
    pixel with [max - min >= tolerance] keeps its alpha whatever its
    brightness. The pixels before are those of the RGBA-converted input. *)
Theorem remove_near_white_bg_rule img threshold tolerance :
  Forall2 (Forall2 (cleared threshold tolerance))
    (rows (convert_RGBA img)) (rows (remove_near_white_bg img threshold tolerance)).
Proof.
  unfold remove_near_white_bg. simpl rows.
  apply Forall2_map_self. intros r. apply Forall2_map_self.
  apply clear_near_white_cleared.
Qed.

Lemma near_white_rgb t tol p q :
  same_rgb p q -> near_white t tol q = near_white t tol p.
Proof. intros (R & G & B). unfold near_white. now rewrite R, G, B. Qed.

Lemma clear_near_white_idem t tol p :
  clear_near_white t tol (clear_near_white t tol p) = clear_near_white t tol p.
Proof.
  unfold clear_near_white at 1 3.
  rewrite (near_white_rgb t tol p (clear_near_white t tol p)) by (repeat split).
  simpl. destruct (near_white t tol p); reflexivity.
Qed.

Lemma convert_RGBA_idem img : img_mode img = RGBA -> convert_RGBA img = img.
Proof. intros H. unfold convert_RGBA. now rewrite H. Qed.

(** Claim C8. [remove_near_white_bg] is idempotent: with the threshold and the
    tolerance fixed, applying it to its own output gives that output again;
    and a pixel whose alpha is already 0 keeps alpha 0. *)
Theorem remove_near_white_bg_idempotent img threshold tolerance :
  remove_near_white_bg (remove_near_white_bg img threshold tolerance) threshold tolerance
  = remove_near_white_bg img threshold tolerance /\
  Forall2 (Forall2 (fun p q => alpha p = x00 -> alpha q = x00))
    (rows (convert_RGBA img)) (rows (remove_near_white_bg img threshold tolerance)).
Proof.
  split.
  - unfold remove_near_white_bg at 1.
    rewrite convert_RGBA_idem by reflexivity.
    unfold remove_near_white_bg. simpl. f_equal.
    rewrite map_map. apply map_ext. intros r. rewrite map_map.
    apply map_ext. intros p. apply clear_near_white_idem.
  - unfold remove_near_white_bg. simpl rows.
    apply Forall2_map_self. intros r. apply Forall2_map_self.
    intros p Hp. unfold clear_near_white. simpl.
    destruct (near_white threshold tolerance p); [reflexivity|assumption].
Qed.

Lemma convert_RGBA_size img :
  width (convert_RGBA img) = width img /\ height (convert_RGBA img) = height img.
Proof. unfold convert_RGBA. destruct (img_mode img); split; reflexivity. Qed.

(** Claim C9. [remove_near_white_bg] returns an image of the width and height
    of its input, with as many rows, in which every pixel has the R, G and B
    of the RGBA-converted input: only the alpha channel may differ. *)
Theorem remove_near_white_bg_frame img threshold tolerance :
  let out := remove_near_white_bg img threshold tolerance in
  width out = width img /\ height out = height img /\
  List.length (rows out) = List.length (rows img) /\
  Forall2 (Forall2 same_rgb) (rows (convert_RGBA img)) (rows out).
Proof.
  simpl. destruct (convert_RGBA_size img) as [W H].
  unfold remove_near_white_bg. simpl. repeat split; auto.
  - rewrite length_map. unfold convert_RGBA.
    destruct (img_mode img); simpl; [now rewrite length_map|reflexivity].
  - apply Forall2_map_self. intros r. apply Forall2_map_self.
    intros p. repeat split.
Qed.


Lemma half_floor n : 2 * (n / 2) <= n < 2 * (n / 2) + 2.
Proof.
  pose proof (Z_div_mod_eq_full n 2). pose proof (Z.mod_pos_bound n 2). lia.
Qed.

Lemma scaled_inv n s z :
  scaled n s = inr z -> exists v, Py.int_mul n s = inr v /\ Py.to_int v = inr z.
Proof. unfold scaled. intros H. apply bind_inv in H. exact H. Qed.

(** Claim C1 as stated fails: on a 4 by 7 source, a canvas of 13 and a
    padding ratio of 0.1 the content is 5 pixels wide, where rounding
    [src_w * scale] to the roomy nearest integer would give 6. *)
Lemma rounded_dims_fail :
  ~ (forall pl, fit_on_square_run roomy nearest sample_4x7 13 tenth = inr pl ->
       rule_dims Py.round (width sample_4x7) (height sample_4x7) 13 13 tenth
       = inr (width (content pl), height (content pl))).
Proof.
  intros H.
  assert (E : exists pl, fit_on_square_run roomy nearest sample_4x7 13 tenth = inr pl /\
                         width (content pl) = 5).
  { vm_compute. eexists. split; reflexivity. }
  destruct E as (pl & E & W). specialize (H pl E).
  assert (R : rule_dims Py.round (width sample_4x7) (height sample_4x7) 13 13 tenth
              = inr (6, 10)) by (vm_compute; reflexivity).
  rewrite R, W in H. discriminate H.
Qed.

Section Placement.

Variable allocates : Z -> Z -> bool.
Variable lanczos : image -> Z -> Z -> Z -> Z -> pixel.

Lemma rule_dims_of_steps src_w src_h cw ch p mw mh sw sh iw ih :
  padded cw p = inr mw -> padded ch p = inr mh ->
  Py.truediv mw src_w = inr sw -> Py.truediv mh src_h = inr sh ->
  scaled src_w (Py.min sw sh) = inr iw -> scaled src_h (Py.min sw sh) = inr ih ->
  rule_dims Py.to_int src_w src_h cw ch p = inr (Z.max 1 iw, Z.max 1 ih).
Proof.
  intros E1 E2 E3 E4 E5 E6.
  apply scaled_inv in E5, E6. destruct E5 as (vw & E5 & E5'), E6 as (vh & E6 & E6').
  unfold rule_dims.
  rewrite E1, bind_inr_eq, E2, bind_inr_eq, E3, bind_inr_eq, E4, bind_inr_eq.
  rewrite E5, bind_inr_eq, E5', bind_inr_eq, E6, bind_inr_eq, E6', bind_inr_eq.
  reflexivity.
Qed.

(** Claim C1, amended. In [fit_on_square] and in [center_on_canvas] the
    content is resampled to [max(1, int(src_w * scale))] by [max(1,
    int(src_h * scale))], with [int] truncating and [scale = min(max_w /
    src_w, max_h / src_h)]: the placement rule with truncation for its
    rounding. *)
Theorem placement_dims_truncated :
  (forall img size p pl,
      fit_on_square_run allocates lanczos img size p = inr pl ->
      rule_dims Py.to_int (width img) (height img) size size p
      = inr (width (content pl), height (content pl))) /\
  (forall img w h p pl,
      center_on_canvas_run allocates lanczos img w h p = inr pl ->
      rule_dims Py.to_int (width img) (height img) w h p
      = inr (width (content pl), height (content pl))).
Proof.
  split.
  - intros img size p pl H.
    apply fit_on_square_run_inv in H.
    destruct H as (cv & m & sw & sh & iw & ih & _ & E1 & E2 & E3 & E4 & E5 & E6 & _).
    apply resize_inv in E6. destruct E6 as [-> _]. simpl.
    eapply rule_dims_of_steps; eassumption.
  - intros img w h p pl H.
    apply center_on_canvas_run_inv in H.
    destruct H as (cv & mw & mh & sw & sh & iw & ih & _ & E1 & E1' & E2 & E3 & E4 & E5 & E6 & _).
    apply resize_inv in E6. destruct E6 as [-> _]. simpl.
    eapply rule_dims_of_steps; eassumption.
Qed.

(** The pixels of the canvas a placement returns. *)
Lemma pasted_pixel m w h fill src x y i j :
  0 <= i < w -> 0 <= j < h ->
  getpixel (pasted (Img m w h (tabulate w h (fun _ _ => fill))) src x y src) i j
  = if in_box x y (width src) (height src) i j
    then blend_pixel (alpha (getpixel src (i - x) (j - y))) fill
           (getpixel src (i - x) (j - y))
    else fill.
Proof.
  intros Hi Hj. unfold pasted. simpl width. simpl height. simpl img_mode.
  rewrite getpixel_tabulate by assumption.
  now rewrite getpixel_tabulate by assumption.
Qed.

(** Claim C4. The canvas [fit_on_square] and [center_on_canvas] return is
    the fresh canvas with the resampled content pasted at [x =
    floor((canvas_w - new_w) / 2)] and [y = floor((canvas_h - new_h) / 2)],
    where [new_w] by [new_h] is the size of the content, the one of the
    placement rule: the pixel at column [u], row [v] of the content is
    blended into the pixel at [(x + u, y + v)] of the canvas, and the pixels
    outside that box keep the fill colour. *)
Theorem placement_centered :
  (forall img size p cv,
      fit_on_square allocates lanczos img size p = inr cv ->
      exists new x y,
        rule_dims Py.to_int (width img) (height img) size size p
        = inr (width new, height new) /\
        resize allocates lanczos img (width new) (height new) = inr new /\
        x = (size - width new) / 2 /\ y = (size - height new) / 2 /\
        2 * x <= size - width new < 2 * x + 2 /\
        2 * y <= size - height new < 2 * y + 2 /\
        paste (Img RGBA size size (tabulate size size (fun _ _ => Px x00 x00 x00 x00)))
              new x y new = inr cv /\
        forall i j, 0 <= i < size -> 0 <= j < size ->
          getpixel cv i j
          = if in_box x y (width new) (height new) i j
            then blend_pixel (alpha (getpixel new (i - x) (j - y)))
                   (Px x00 x00 x00 x00) (getpixel new (i - x) (j - y))
            else Px x00 x00 x00 x00) /\
  (forall img w h p cv,
      center_on_canvas allocates lanczos img w h p = inr cv ->
      exists new x y,
        rule_dims Py.to_int (width img) (height img) w h p
        = inr (width new, height new) /\
        resize allocates lanczos img (width new) (height new) = inr new /\
        x = (w - width new) / 2 /\ y = (h - height new) / 2 /\
        2 * x <= w - width new < 2 * x + 2 /\
        2 * y <= h - height new < 2 * y + 2 /\
        paste (Img RGBA w h (tabulate w h (fun _ _ => Px xff xff xff x00)))
              new x y new = inr cv /\
        forall i j, 0 <= i < w -> 0 <= j < h ->
          getpixel cv i j
          = if in_box x y (width new) (height new) i j
            then blend_pixel (alpha (getpixel new (i - x) (j - y)))
                   (Px xff xff xff x00) (getpixel new (i - x) (j - y))
            else Px xff xff xff x00).
Proof.
  split.
  - intros img size p cv H. unfold fit_on_square in H.
    destruct (fit_on_square_run allocates lanczos img size p) as [e|pl] eqn:E;
      [discriminate H|].
    injection H as <-.
    pose proof (fit_on_square_run_paste _ _ _ _ _ _ E) as P.
    apply fit_on_square_run_inv in E.
    destruct E as (cv & m & sw & sh & iw & ih & Ec & E1 & E2 & E3 & E4 & E5 & E6 & X & Y & Ecv).
    apply Image_new_inv in Ec. destruct Ec as [-> _].
    pose proof E6 as R. apply resize_inv in R. destruct R as [R _].
    exists (content pl), (pos_x pl), (pos_y pl).
    assert (Wn : width (content pl) = Z.max 1 iw) by (rewrite R; reflexivity).
    assert (Hn : height (content pl) = Z.max 1 ih) by (rewrite R; reflexivity).
    rewrite Wn, Hn. split; [eapply rule_dims_of_steps; eassumption|].
    split; [exact E6|]. split; [exact X|]. split; [exact Y|].
    split; [rewrite X; apply half_floor|]. split; [rewrite Y; apply half_floor|].
    split; [exact P|].
    intros i j Hi Hj. rewrite Ecv, pasted_pixel by assumption.
    rewrite Wn, Hn. reflexivity.
  - intros img w h p cv H. unfold center_on_canvas in H.
    destruct (center_on_canvas_run allocates lanczos img w h p) as [e|pl] eqn:E;
      [discriminate H|].
    injection H as <-.
    pose proof (center_on_canvas_run_paste _ _ _ _ _ _ _ E) as P.
    apply center_on_canvas_run_inv in E.
    destruct E as (cv & mw & mh & sw & sh & iw & ih & Ec & E1 & E1' & E2 & E3 & E4 & E5 & E6
                   & X & Y & Ecv).
    apply Image_new_inv in Ec. destruct Ec as [-> _].
    pose proof E6 as R. apply resize_inv in R. destruct R as [R _].
    exists (content pl), (pos_x pl), (pos_y pl).
    assert (Wn : width (content pl) = Z.max 1 iw) by (rewrite R; reflexivity).
    assert (Hn : height (content pl) = Z.max 1 ih) by (rewrite R; reflexivity).
    rewrite Wn, Hn. split; [eapply rule_dims_of_steps; eassumption|].
    split; [exact E6|]. split; [exact X|]. split; [exact Y|].
    split; [rewrite X; apply half_floor|]. split; [rewrite Y; apply half_floor|].
    split; [exact P|].
    intros i j Hi Hj. rewrite Ecv, pasted_pixel by assumption.
    rewrite Wn, Hn. reflexivity.
Qed.

(** The rectangle compositor on a square runs the square compositor over
    another fill colour. *)
Lemma center_on_square img size p :
  center_on_canvas_run allocates lanczos img size size p =
  match fit_on_square_run allocates lanczos img size p with
  | inl e => inl e
  | inr a =>
      inr (Placement (content a) (pos_x a) (pos_y a)
             (pasted (Img RGBA size size
                       (tabulate size size (fun _ _ => Px xff xff xff x00)))
                    (content a) (pos_x a) (pos_y a) (content a)))
  end.
Proof.
  unfold fit_on_square_run, center_on_canvas_run, Image_new.
  destruct (check_size size size) as [e|[]]; run.
  destruct (allocates size size); run.
  destruct (padded size p) as [e|m]; run.
  destruct (Py.truediv m (width img)) as [e|sw]; run.
  destruct (Py.truediv m (height img)) as [e|sh]; run.
  destruct (scaled (width img) (Py.min sw sh)) as [e|iw]; run.
  destruct (scaled (height img) (Py.min sw sh)) as [e|ih]; run.
  unfold resize.
  destruct ((Py.max 1 iw <? 1) || (Py.max 1 ih <? 1)); run.
  destruct ((int_max <? Py.max 1 iw) || (int_max <? Py.max 1 ih)); run.
  destruct (allocates (Py.max 1 iw) (Py.max 1 ih)); run.
  unfold paste, nothing_to_paste. cbn [width height img_mode].
  destruct (negb _); run.
  destruct (_ || _); run.
  destruct (img_mode img); run.
Qed.

(** Claim C5, amended. [fit_on_square img size p] and [center_on_canvas img
    size size p] raise the same exception, or return canvases of the same
    mode and size holding the same content at the same offset, with the same
    alpha at every pixel; outside the content the first is (0,0,0,0) and the
    second (255,255,255,0), and where the content is opaque both hold the
    content's pixel. *)
Theorem square_is_centered_up_to_fill img size p :
  match fit_on_square_run allocates lanczos img size p,
        center_on_canvas_run allocates lanczos img size size p with
  | inr a, inr b =>
      same_placement a b /\
      forall i j, 0 <= i < size -> 0 <= j < size ->
        let c := getpixel (content a) (i - pos_x a) (j - pos_y a) in
        alpha (getpixel (canvas a) i j) = alpha (getpixel (canvas b) i j) /\
        if in_box (pos_x a) (pos_y a) (width (content a)) (height (content a)) i j
        then alpha c = xff -> getpixel (canvas a) i j = c /\ getpixel (canvas b) i j = c
        else getpixel (canvas a) i j = Px x00 x00 x00 x00 /\
             getpixel (canvas b) i j = Px xff xff xff x00
  | inl e1, inl e2 => e1 = e2
  | _, _ => False
  end.
Proof.
  rewrite center_on_square.
  destruct (fit_on_square_run allocates lanczos img size p) as [e|a] eqn:Ea; [reflexivity|].
  apply fit_on_square_run_inv in Ea.
  destruct Ea as (cv & m & sw & sh & iw & ih & Ec & _ & _ & _ & _ & _ & _ & _ & _ & Ecv).
  apply Image_new_inv in Ec. destruct Ec as [-> _].
  split.
  - unfold same_placement. cbn [content pos_x pos_y canvas]. rewrite Ecv.
    repeat split.
  - intros i j Hi Hj. cbn zeta. cbn [canvas]. rewrite Ecv.
    rewrite !pasted_pixel by assumption.
    destruct (in_box _ _ _ _ i j).
    + split.
      * unfold blend_pixel. cbn [alpha]. reflexivity.
      * intros ->. now rewrite !blend_pixel_opaque.
    + split; [reflexivity|split; reflexivity].
Qed.

End Placement.

(** Claim C5 as stated fails: on a one-pixel source and a canvas of 3 the two
    compositors return different canvases. *)
Lemma square_differs_from_centered :
  fit_on_square roomy nearest dot 3 tenth <> center_on_canvas roomy nearest dot 3 3 tenth.
Proof. intros H. vm_compute in H. discriminate H. Qed.

(** Claim C6 as stated fails: on a canvas of 10 with a padding ratio of 0.1 a
    one-pixel source is resampled to 8 by 8, not to 1 by 1. *)
Lemma one_pixel_is_scaled_up :
  ~ (exists pl, fit_on_square_run roomy nearest dot 10 tenth = inr pl /\
                width (content pl) = 1 /\ height (content pl) = 1).
Proof.
  intros (pl & E & W & _).
  assert (F : exists pl', fit_on_square_run roomy nearest dot 10 tenth = inr pl' /\
                          width (content pl') = 8).
  { vm_compute. eexists. split; reflexivity. }
  destruct F as (pl' & E' & W'). rewrite E in E'. injection E' as <-.
  rewrite W in W'. discriminate W'.
Qed.

Section Totality.

Variable allocates : Z -> Z -> bool.
Variable lanczos : image -> Z -> Z -> Z -> Z -> pixel.

(** The sizes a run that returned went through. *)
Lemma fit_on_square_run_facts img size p pl :
  1 <= width img <= int_max -> 1 <= height img <= int_max ->
  pad_in_range p = true ->
  fit_on_square_run allocates lanczos img size p = inr pl ->
  exists m iw ih,
    padded size p = inr m /\ 0 <= m <= size /\
    0 <= iw <= m /\ 0 <= ih <= m /\
    width (content pl) = Z.max 1 iw /\ height (content pl) = Z.max 1 ih /\
    0 <= size <= int_max.
Proof.
  intros Hw Hh Hp H. apply fit_on_square_run_inv in H.
  destruct H as (cv & m0 & sw0 & sh0 & iw0 & ih0 & Ec & Em0 & Esw0 & Esh0 & Eiw0 & Eih0
                 & Er & _).
  apply Image_new_inv in Ec. destruct Ec as (_ & Hs & _).
  destruct (padded_spec size p Hs Hp) as (m & Em & Hm & _).
  rewrite Em in Em0. injection Em0 as <-.
  destruct (dims_spec m m (width img) (height img)) as
    (sw & sh & iw & ih & Esw & Esh & Eiw & Eih & Hiw & Hih); try lia.
  rewrite Esw in Esw0. injection Esw0 as <-.
  rewrite Esh in Esh0. injection Esh0 as <-.
  rewrite Eiw in Eiw0. injection Eiw0 as <-.
  rewrite Eih in Eih0. injection Eih0 as <-.
  apply resize_inv in Er. destruct Er as [-> _].
  exists m, iw, ih. cbn [width height]. repeat split; auto; lia.
Qed.

Lemma center_on_canvas_run_facts img w h p pl :
  1 <= width img <= int_max -> 1 <= height img <= int_max ->
  pad_in_range p = true ->
  center_on_canvas_run allocates lanczos img w h p = inr pl ->
  exists mw mh iw ih,
    padded w p = inr mw /\ padded h p = inr mh /\
    0 <= mw <= w /\ 0 <= mh <= h /\
    0 <= iw <= mw /\ 0 <= ih <= mh /\
    width (content pl) = Z.max 1 iw /\ height (content pl) = Z.max 1 ih /\
    0 <= w <= int_max /\ 0 <= h <= int_max.
Proof.
  intros Hw Hh Hp H. apply center_on_canvas_run_inv in H.
  destruct H as (cv & mw0 & mh0 & sw0 & sh0 & iw0 & ih0 & Ec & Emw0 & Emh0 & Esw0 & Esh0
                 & Eiw0 & Eih0 & Er & _).
  apply Image_new_inv in Ec. destruct Ec as (_ & Hcw & Hch).
  destruct (padded_spec w p Hcw Hp) as (mw & Emw & Hmw & _).
  destruct (padded_spec h p Hch Hp) as (mh & Emh & Hmh & _).
  rewrite Emw in Emw0. injection Emw0 as <-.
  rewrite Emh in Emh0. injection Emh0 as <-.
  destruct (dims_spec mw mh (width img) (height img)) as
    (sw & sh & iw & ih & Esw & Esh & Eiw & Eih & Hiw & Hih); try lia.
  rewrite Esw in Esw0. injection Esw0 as <-.
  rewrite Esh in Esh0. injection Esh0 as <-.
  rewrite Eiw in Eiw0. injection Eiw0 as <-.
  rewrite Eih in Eih0. injection Eih0 as <-.
  apply resize_inv in Er. destruct Er as [-> _].
  exists mw, mh, iw, ih. cbn [width height]. repeat split; auto; lia.
Qed.

(** The run of [fit_on_square] on an RGBA source, a valid canvas and padding,
    and a machine with room for the canvas. *)
Lemma fit_on_square_run_total img size p :
  img_mode img = RGBA ->
  1 <= width img <= int_max -> 1 <= height img <= int_max ->
  0 <= size <= int_max -> pad_in_range p = true -> fits allocates size size ->
  exists pl m iw ih,
    fit_on_square_run allocates lanczos img size p = inr pl /\
    padded size p = inr m /\ 0 <= m <= size /\
    0 <= iw <= m /\ 0 <= ih <= m /\
    width (content pl) = Z.max 1 iw /\ height (content pl) = Z.max 1 ih.
Proof.
  intros M Hw Hh Hs Hp Hroom.
  destruct (padded_spec size p Hs Hp) as (m & Em & Hm & _).
  destruct (dims_spec m m (width img) (height img)) as
    (sw & sh & iw & ih & Esw & Esh & Eiw & Eih & Hiw & Hih); try lia.
  eexists _, m, iw, ih. split.
  - unfold fit_on_square_run. cbv zeta.
    rewrite (Image_new_ok allocates _ _ _ _ Hs Hs) by (apply Hroom; lia).
    rewrite bind_inr_eq.
    rewrite Em, bind_inr_eq, Esw, bind_inr_eq, Esh, bind_inr_eq.
    rewrite Eiw, bind_inr_eq, Eih, bind_inr_eq.
    rewrite resize_ok by (rewrite ?max_1; try apply Hroom; lia).
    rewrite bind_inr_eq, paste_ok by exact M.
    rewrite bind_inr_eq. reflexivity.
  - cbn [content width height]. rewrite !max_1. repeat split; auto; lia.
Qed.

Lemma center_on_canvas_run_total img w h p :
  img_mode img = RGBA ->
  1 <= width img <= int_max -> 1 <= height img <= int_max ->
  0 <= w <= int_max -> 0 <= h <= int_max -> pad_in_range p = true ->
  fits allocates w h ->
  exists pl mw mh iw ih,
    center_on_canvas_run allocates lanczos img w h p = inr pl /\
    padded w p = inr mw /\ padded h p = inr mh /\
    0 <= mw <= w /\ 0 <= mh <= h /\
    0 <= iw <= mw /\ 0 <= ih <= mh /\
    width (content pl) = Z.max 1 iw /\ height (content pl) = Z.max 1 ih.
Proof.
  intros M Hw Hh Hcw Hch Hp Hroom.
  destruct (padded_spec w p Hcw Hp) as (mw & Emw & Hmw & _).
  destruct (padded_spec h p Hch Hp) as (mh & Emh & Hmh & _).
  destruct (dims_spec mw mh (width img) (height img)) as
    (sw & sh & iw & ih & Esw & Esh & Eiw & Eih & Hiw & Hih); try lia.
  eexists _, mw, mh, iw, ih. split.
  - unfold center_on_canvas_run. cbv zeta.
    rewrite (Image_new_ok allocates _ _ _ _ Hcw Hch) by (apply Hroom; lia).
    rewrite bind_inr_eq.
    rewrite Emw, bind_inr_eq, Emh, bind_inr_eq, Esw, bind_inr_eq, Esh, bind_inr_eq.
    rewrite Eiw, bind_inr_eq, Eih, bind_inr_eq.
    rewrite resize_ok by (rewrite ?max_1; try apply Hroom; lia).
    rewrite bind_inr_eq, paste_ok by exact M.
    rewrite bind_inr_eq. reflexivity.
  - cbn [content width height]. rewrite !max_1. repeat split; auto; lia.
Qed.

(** Claim C6, amended. On a 1 by 1 source of mode RGBA, for every padding
    ratio in [0, 0.5) and every canvas size up to the largest C int that the
    machine has room for, [fit_on_square] and [center_on_canvas] raise
    nothing and return their canvas, and the content is resampled to a square
    of side [max(1, m)], with [m] the padded extent [int(size * (1 - 2 *
    pad_ratio))] of the canvas, the smaller of the two for a rectangle: the
    side is 1 only when that extent is at most 1. *)
Theorem one_pixel_placement img p :
  img_mode img = RGBA -> width img = 1 -> height img = 1 ->
  pad_in_range p = true ->
  (forall size, 0 <= size <= int_max -> fits allocates size size ->
     exists pl m,
       fit_on_square_run allocates lanczos img size p = inr pl /\
       fit_on_square allocates lanczos img size p = inr (canvas pl) /\
       padded size p = inr m /\ 0 <= m <= size /\
       width (content pl) = Z.max 1 m /\ height (content pl) = Z.max 1 m /\
       (width (content pl) = 1 <-> m <= 1)) /\
  (forall w h, 0 <= w <= int_max -> 0 <= h <= int_max -> fits allocates w h ->
     exists pl mw mh,
       center_on_canvas_run allocates lanczos img w h p = inr pl /\
       center_on_canvas allocates lanczos img w h p = inr (canvas pl) /\
       padded w p = inr mw /\ padded h p = inr mh /\
       0 <= mw <= w /\ 0 <= mh <= h /\
       width (content pl) = Z.max 1 (Z.min mw mh) /\
       height (content pl) = Z.max 1 (Z.min mw mh) /\
       (width (content pl) = 1 <-> Z.min mw mh <= 1)).
Proof.
  intros M W1 H1 Hp.
  assert (Hw : 1 <= width img <= int_max) by (rewrite W1; unfold int_max; lia).
  assert (Hh : 1 <= height img <= int_max) by (rewrite H1; unfold int_max; lia).
  split.
  - intros size Hs Hroom.
    destruct (fit_on_square_run_total img size p M Hw Hh Hs Hp Hroom)
      as (pl & m & iw & ih & E & Em & Hm & _).
    pose proof E as E'. apply fit_on_square_run_inv in E'.
    destruct E' as (cv & m0 & sw0 & sh0 & iw0 & ih0 & _ & Em0 & Esw0 & Esh0 & Eiw0 & Eih0
                    & Er & _).
    rewrite Em in Em0. injection Em0 as <-.
    destruct (dims_unit m m) as (sw & sh & Esw & Esh & Ei); try lia.
    rewrite Z.min_id in Ei. rewrite W1 in Esw0, Eiw0. rewrite H1 in Esh0, Eih0.
    rewrite Esw in Esw0. injection Esw0 as <-.
    rewrite Esh in Esh0. injection Esh0 as <-.
    rewrite Ei in Eiw0, Eih0. injection Eiw0 as <-. injection Eih0 as <-.
    apply resize_inv in Er. destruct Er as [Er _].
    exists pl, m. split; [exact E|]. split.
    { unfold fit_on_square. rewrite E. reflexivity. }
    rewrite Er. cbn [width height]. repeat split; auto; lia.
  - intros w h Hcw Hch Hroom.
    destruct (center_on_canvas_run_total img w h p M Hw Hh Hcw Hch Hp Hroom)
      as (pl & mw & mh & iw & ih & E & Emw & Emh & Hmw & Hmh & _).
    pose proof E as E'. apply center_on_canvas_run_inv in E'.
    destruct E' as (cv & mw0 & mh0 & sw0 & sh0 & iw0 & ih0 & _ & Emw0 & Emh0 & Esw0 & Esh0
                    & Eiw0 & Eih0 & Er & _).
    rewrite Emw in Emw0. injection Emw0 as <-.
    rewrite Emh in Emh0. injection Emh0 as <-.
    destruct (dims_unit mw mh) as (sw & sh & Esw & Esh & Ei); try lia.
    rewrite W1 in Esw0, Eiw0. rewrite H1 in Esh0, Eih0.
    rewrite Esw in Esw0. injection Esw0 as <-.
    rewrite Esh in Esh0. injection Esh0 as <-.
    rewrite Ei in Eiw0, Eih0. injection Eiw0 as <-. injection Eih0 as <-.
    apply resize_inv in Er. destruct Er as [Er _].
    exists pl, mw, mh. split; [exact E|]. split.
    { unfold center_on_canvas. rewrite E. reflexivity. }
    rewrite Er. cbn [width height]. repeat split; auto; lia.
Qed.

(** Claim C2. For every source image, canvas and padding ratio in [0, 0.5),
    the width and the height of the content placed by [fit_on_square] and by
    [center_on_canvas] exceed [canvas_dim * (1 - 2 * pad_ratio)], taken on
    the real numbers, by at most one pixel. *)
Theorem content_within_padding :
  (forall img size p pl,
      1 <= width img <= int_max -> 1 <= height img <= int_max ->
      pad_in_range p = true ->
      fit_on_square_run allocates lanczos img size p = inr pl ->
      (IZR (width (content pl)) <= IZR size * (1 - 2 * B2R p) + 1)%R /\
      (IZR (height (content pl)) <= IZR size * (1 - 2 * B2R p) + 1)%R) /\
  (forall img w h p pl,
      1 <= width img <= int_max -> 1 <= height img <= int_max ->
      pad_in_range p = true ->
      center_on_canvas_run allocates lanczos img w h p = inr pl ->
      (IZR (width (content pl)) <= IZR w * (1 - 2 * B2R p) + 1)%R /\
      (IZR (height (content pl)) <= IZR h * (1 - 2 * B2R p) + 1)%R).
Proof.
  assert (Hmax : forall n m i x, 0 <= n -> 0 <= i <= m ->
            (0 <= x < / 2)%R ->
            (IZR m <= IZR n * (1 - 2 * x) + / 1024)%R ->
            (IZR (Z.max 1 i) <= IZR n * (1 - 2 * x) + 1)%R).
  { intros n m i x Hn Hi Hx Hm.
    assert (0 <= IZR n)%R by (apply IZR_le; lia).
    assert (0 <= IZR n * (1 - 2 * x))%R by (apply Rmult_le_pos; lra).
    destruct (Z.max_spec 1 i) as [[_ ->]|[_ ->]].
    - assert (IZR i <= IZR m)%R by (apply IZR_le; lia). lra.
    - lra. }
  split.
  - intros img size p pl Hw Hh Hp H.
    destruct (fit_on_square_run_facts img size p pl Hw Hh Hp H)
      as (m & iw & ih & Em & Hm & Hiw & Hih & Wc & Hc & Hs).
    destruct (padded_spec size p Hs Hp) as (m' & Em' & _ & Hb & _).
    rewrite Em in Em'. injection Em' as <-.
    destruct (pad_in_range_spec p Hp) as [_ Hx].
    rewrite Wc, Hc. split; eapply Hmax; eauto; lia.
  - intros img w h p pl Hw Hh Hp H.
    destruct (center_on_canvas_run_facts img w h p pl Hw Hh Hp H)
      as (mw & mh & iw & ih & Emw & Emh & Hmw & Hmh & Hiw & Hih & Wc & Hc & Hcw & Hch).
    destruct (padded_spec w p Hcw Hp) as (mw' & Emw' & _ & Hbw & _).
    rewrite Emw in Emw'. injection Emw' as <-.
    destruct (padded_spec h p Hch Hp) as (mh' & Emh' & _ & Hbh & _).
    rewrite Emh in Emh'. injection Emh' as <-.
    destruct (pad_in_range_spec p Hp) as [_ Hx].
    rewrite Wc, Hc. split; eapply Hmax; eauto; lia.
Qed.

End Totality.

Lemma quarter_in_range : pad_in_range (Py.literal 25 100) = true.
Proof. reflexivity. Qed.

Lemma convert_RGB_size img :
  width (convert_RGB img) = width img /\ height (convert_RGB img) = height img.
Proof. unfold convert_RGB. destruct (img_mode img); split; reflexivity. Qed.

Lemma getpixel_map_rows m w h m' w' h' f rs i j :
  (Z.to_nat j < List.length rs)%nat ->
  (Z.to_nat i < List.length (nth (Z.to_nat j) rs []))%nat ->
  getpixel (Img m w h (map (map f) rs)) i j = f (getpixel (Img m' w' h' rs) i j).
Proof.
  intros Hj Hi. unfold getpixel. cbn [rows].
  rewrite (nth_map_in _ _ _ _ []) by assumption.
  now rewrite (nth_map_in _ _ _ _ (Px x00 x00 x00 x00)) by assumption.
Qed.

Lemma tabulate_row_length w h f j :
  0 <= j < h -> List.length (nth (Z.to_nat j) (tabulate w h f) []) = Z.to_nat w.
Proof.
  intros Hj. unfold tabulate.
  rewrite (nth_map_in _ _ _ _ 0) by (rewrite zrange_length; lia).
  now rewrite length_map, zrange_length.
Qed.

Lemma quotient_range m n :
  0 <= m -> 1 <= n -> (0 <= IZR m / IZR n <= IZR m)%R.
Proof.
  intros Hm Hn.
  assert (HN : (1 <= IZR n)%R) by (apply IZR_le; lia).
  assert (HM : (0 <= IZR m)%R) by (apply IZR_le; lia).
  split.
  - apply Rmult_le_pos; [lra|]. left. apply Rinv_0_lt_compat. lra.
  - apply Rmult_le_reg_r with (IZR n); [lra|].
    unfold Rdiv. rewrite Rmult_assoc, Rinv_l by lra. nra.
Qed.

(** [int(a / b)] on ints is the floor quotient, as long as the double
    quotient cannot be rounded up to the next integer. *)
Lemma truediv_floor a b :
  0 <= a < 2 ^ 51 -> 1 <= b < 2 ^ 53 ->
  exists q, Py.truediv a b = inr q /\ good q /\ Py.to_int q = inr (a / b).
Proof.
  intros Ha Hb.
  destruct (truediv_spec a b ltac:(lia) ltac:(lia)) as (q & Eq & Gq & Rq & _).
  exists q. split; [assumption|]. split; [assumption|].
  pose proof (Z_div_mod_eq_full a b) as Hd.
  pose proof (Z.mod_pos_bound a b ltac:(lia)) as Hr.
  set (k := a / b) in *. set (r := a mod b) in *.
  assert (Hk : 0 <= k) by (apply Z.div_pos; lia).
  assert (Hka : k <= a) by nia.
  assert (HB : (1 <= IZR b < 9007199254740992)%R) by (split; [apply IZR_le|apply IZR_lt]; lia).
  assert (HA : (0 <= IZR a < 2251799813685248)%R) by (split; [apply IZR_le|apply IZR_lt]; lia).
  assert (Hx : (IZR a / IZR b = IZR k + IZR r / IZR b)%R).
  { rewrite Hd, plus_IZR, mult_IZR. field. lra. }
  assert (HR : (0 <= IZR r <= IZR b - 1)%R).
  { split; [apply IZR_le; lia|]. rewrite <- minus_IZR. apply IZR_le. lia. }
  assert (Hfrac : (0 <= IZR r / IZR b)%R).
  { apply Rmult_le_pos; [lra|]. left. apply Rinv_0_lt_compat. lra. }
  pose proof (quotient_range a b ltac:(lia) ltac:(lia)) as Hq.
  assert (Rk : representable (IZR k)) by (apply representable_int; lia).
  assert (Ra : representable (IZR a)) by (apply representable_int; lia).
  pose proof (rounds_lower _ _ (IZR k) (IZR a) Rq Rk Ra ltac:(lra)) as Lo.
  destruct (rounds_error _ _ (IZR a) Rq Ra Hq) as [Up _].
  pose proof eps_val as Ee. pose proof (pow2_pos (-1074)) as Hd0.
  assert (Hdl : (pow2 (-1074) <= pow2 (-106))%R) by (apply pow2_le; lia).
  assert (E106 : pow2 (-106) = (pow2 (-52) * pow2 (-54))%R) by (rewrite <- pow2_add; reflexivity).
  assert (E54 : pow2 (-54) = (pow2 (-52) * / 4)%R).
  { replace (-54) with (-52 + -2) by lia. rewrite pow2_add. f_equal.
    unfold pow2. simpl. lra. }
  set (eps := pow2 (-52)) in *. set (dl := pow2 (-1074)) in *.
  (* b * (x * eps + dl) < 1 *)
  assert (Hbx : (IZR b * (IZR a / IZR b) = IZR a)%R) by (field; lra).
  assert (Hsmall : (IZR b * (IZR a / IZR b * eps + dl) < 1)%R).
  { replace (IZR b * (IZR a / IZR b * eps + dl))%R
      with (IZR b * (IZR a / IZR b) * eps + IZR b * dl)%R by ring.
    rewrite Hbx.
    assert (IZR a * eps <= 2251799813685248 * eps)%R by nra.
    assert (IZR b * dl <= 9007199254740992 * (eps * (eps * / 4)))%R.
    { rewrite <- E54, <- E106. nra. }
    rewrite Ee in *. lra. }
  assert (Hlt : (B2R q < IZR k + 1)%R).
  { apply Rle_lt_trans with (IZR a / IZR b + IZR a / IZR b * eps + dl)%R; [lra|].
    apply Rmult_lt_reg_l with (IZR b); [lra|].
    replace (IZR b * (IZR a / IZR b + IZR a / IZR b * eps + dl))%R
      with (IZR b * (IZR a / IZR b) + IZR b * (IZR a / IZR b * eps + dl))%R by ring.
    rewrite Hbx.
    assert (IZR a = IZR b * IZR k + IZR r)%R.
    { rewrite Hd at 1. rewrite plus_IZR, mult_IZR. reflexivity. }
    nra. }
  destruct (to_int_spec q Gq) as (z & Ez & _ & Z1 & Z2).
  rewrite Ez. f_equal.
  assert (z < k + 1) by (apply lt_IZR; rewrite plus_IZR; lra).
  assert (k < z + 1) by (apply lt_IZR; rewrite plus_IZR; lra).
  lia.
Qed.

Section Flag.

Variable allocates : Z -> Z -> bool.
Variable lanczos : image -> Z -> Z -> Z -> Z -> pixel.

Lemma flag_height_floor rw rh base :
  1 <= rw < 2 ^ 53 -> 0 <= base * rh < 2 ^ 51 ->
  flag_height rw rh base = inr (base * rh / rw).
Proof.
  intros Hrw Hwh.
  destruct (truediv_floor (base * rh) rw Hwh Hrw) as (q & Eq & _ & Ez).
  unfold flag_height. rewrite Eq, bind_inr_eq. exact Ez.
Qed.

(** The run of [flag_mockup] on inputs in range: the placement on the
    transparent canvas, pasted over the white background. *)
Lemma flag_mockup_runs im_trans rw rh base :
  img_mode im_trans = RGBA ->
  1 <= width im_trans <= int_max -> 1 <= height im_trans <= int_max ->
  1 <= rw < 2 ^ 53 -> 0 <= base * rh < 2 ^ 51 ->
  0 <= base <= int_max -> base * rh / rw <= int_max ->
  fits allocates base (base * rh / rw) ->
  exists placed,
    canvas placed
    = pasted (Img RGBA base (base * rh / rw)
               (tabulate base (base * rh / rw) (fun _ _ => Px xff xff xff x00)))
            (content placed) (pos_x placed) (pos_y placed) (content placed) /\
    flag_mockup_run allocates lanczos im_trans rw rh base
    = inr (placed,
           pasted (Img RGB base (base * rh / rw)
                    (tabulate base (base * rh / rw) (fun _ _ => Px xff xff xff xff)))
                 (convert_RGB (canvas placed)) 0 0 (canvas placed)).
Proof.
  intros M Hw Hh Hrw Hwh HW HH Hroom.
  pose proof (flag_height_floor rw rh base Hrw Hwh) as EH.
  set (H := base * rh / rw) in *.
  assert (HH0 : 0 <= H <= int_max) by (split; [apply Z.div_pos; lia|assumption]).
  destruct (center_on_canvas_run_total allocates lanczos im_trans base H (Py.literal 25 100)
              M Hw Hh HW HH0 quarter_in_range Hroom)
    as (pl & mw & mh & iw & ih & E & _).
  pose proof E as E'. apply center_on_canvas_run_inv in E'.
  destruct E' as (cv & mw' & mh' & sw' & sh' & iw' & ih' & Ecv & _ & _ & _ & _ & _ & _ & _ & _ & _ & Ec).
  apply Image_new_inv in Ecv. destruct Ecv as [Ecv _]. subst cv.
  exists pl. split; [exact Ec|].
  unfold flag_mockup_run. rewrite EH, bind_inr_eq.
  rewrite (Image_new_ok allocates _ _ _ _ HW HH0) by (apply Hroom; lia).
  rewrite bind_inr_eq.
  rewrite center_canvas_run_eq, E, bind_inr_eq.
  destruct (convert_RGB_size (canvas pl)) as [Wc Hc].
  rewrite paste_through; [reflexivity|now rewrite Ec|now rewrite Wc|now rewrite Hc].
Qed.

(** The pixels of a flag outside the placed content. *)
Lemma flag_background placed base H i j :
  canvas placed
  = pasted (Img RGBA base H (tabulate base H (fun _ _ => Px xff xff xff x00)))
           (content placed) (pos_x placed) (pos_y placed) (content placed) ->
  0 <= i < base -> 0 <= j < H ->
  in_box (pos_x placed) (pos_y placed)
         (width (content placed)) (height (content placed)) i j = false ->
  getpixel (pasted (Img RGB base H (tabulate base H (fun _ _ => Px xff xff xff xff)))
                   (convert_RGB (canvas placed)) 0 0 (canvas placed)) i j = white.
Proof.
  intros Ec Hi Hj Hout.
  unfold pasted at 1. cbn [width height img_mode].
  rewrite getpixel_tabulate by assumption.
  rewrite getpixel_tabulate by assumption.
  destruct (convert_RGB_size (canvas placed)) as [-> ->].
  rewrite Ec. cbn [pasted width height].
  assert (Hin : in_box 0 0 base H i j = true).
  { unfold in_box. rewrite !andb_true_iff, !Z.leb_le, !Z.ltb_lt. lia. }
  rewrite Hin, !Z.sub_0_r.
  rewrite pasted_pixel by assumption. rewrite Hout.
  cbn [alpha]. apply blend_pixel_transparent.
Qed.

(** Claim C7, amended. The height of a flag mockup is [int(width * rh /
    rw)], the floor of the quotient, not its rounding: at ratio 3:2 and base
    width 900 it is exactly 600. On a source of mode RGBA, with the ratio and
    the width in range and room for the canvas, [flag_mockup] returns an RGB
    image, hence opaque, of [width] by that height, and every pixel outside
    the placed content is white. *)
Theorem flag_mockup_height_truncated im_trans rw rh base :
  img_mode im_trans = RGBA ->
  1 <= width im_trans <= int_max -> 1 <= height im_trans <= int_max ->
  1 <= rw < 2 ^ 53 -> 0 <= base * rh < 2 ^ 51 ->
  0 <= base <= int_max -> base * rh / rw <= int_max ->
  fits allocates base (base * rh / rw) ->
  flag_height 3 2 900 = inr 600 /\
  flag_height rw rh base = inr (base * rh / rw) /\
  exists placed bg,
    flag_mockup_run allocates lanczos im_trans rw rh base = inr (placed, bg) /\
    flag_mockup allocates lanczos im_trans rw rh base = inr bg /\
    img_mode bg = RGB /\ width bg = base /\ height bg = base * rh / rw /\
    forall i j, 0 <= i < base -> 0 <= j < base * rh / rw ->
      in_box (pos_x placed) (pos_y placed)
             (width (content placed)) (height (content placed)) i j = false ->
      getpixel bg i j = white /\ getpixel (convert_RGBA bg) i j = white.
Proof.
  intros M Hw Hh Hrw Hwh HW HH Hroom.
  split; [vm_compute; reflexivity|].
  split; [now apply flag_height_floor|].
  destruct (flag_mockup_runs im_trans rw rh base M Hw Hh Hrw Hwh HW HH Hroom)
    as (pl & Ec & Erun).
  set (H := base * rh / rw) in *.
  set (bg0 := Img RGB base H (tabulate base H (fun _ _ => Px xff xff xff xff))) in *.
  exists pl, (pasted bg0 (convert_RGB (canvas pl)) 0 0 (canvas pl)).
  split; [exact Erun|]. split.
  { unfold flag_mockup. rewrite Erun. reflexivity. }
  split; [reflexivity|]. split; [reflexivity|]. split; [reflexivity|].
  intros i j Hi Hj Hout.
  pose proof (flag_background pl base H i j Ec Hi Hj Hout) as Hpx.
  fold bg0 in Hpx. split; [exact Hpx|].
  unfold convert_RGBA, pasted. cbn [img_mode bg0 width height rows].
  rewrite (getpixel_map_rows _ _ _ RGB base H).
  - unfold pasted in Hpx. cbn [img_mode bg0 width height] in Hpx.
    rewrite Hpx. reflexivity.
  - rewrite tabulate_length. lia.
  - rewrite tabulate_row_length by assumption. lia.
Qed.

End Flag.

(** Claim C7 as stated fails in its derivation of the height: at ratio 3:2
    and base width 10 the mockup is 6 pixels high, where rounding [10 * 2 /
    3] gives 7. *)
Lemma flag_height_not_rounded :
  ~ (forall base placed bg h,
       flag_mockup_run roomy nearest dot 3 2 base = inr (placed, bg) ->
       flag_height_rounded 3 2 base = inr h -> height bg = h).
Proof.
  intros H.
  assert (E : exists placed bg,
             flag_mockup_run roomy nearest dot 3 2 10 = inr (placed, bg) /\
             height bg = 6).
  { vm_compute. eexists _, _. split; reflexivity. }
  destruct E as (placed & bg & E & Hb).
  assert (R : flag_height_rounded 3 2 10 = inr 7) by (vm_compute; reflexivity).
  specialize (H 10 placed bg 7 E R). rewrite Hb in H. discriminate H.
Qed.

(** ** The theorems at concrete inputs *)

Lemma roomy_fits w h :
  Z.max 1 w * Z.max 1 h <= 16777216 -> fits roomy w h.
Proof.
  intros Hb w' h' Hw' Hh'. unfold roomy. apply Z.leb_le. nia.
Qed.

Lemma fits_le allocates w h w' h' :
  fits allocates w h -> w' <= w -> h' <= h -> fits allocates w' h'.
Proof. intros F Hw Hh a b Ha Hb. apply F; lia. Qed.

Lemma placement_dims_truncated_witness :
  (exists pl, fit_on_square_run roomy nearest sample_4x7 13 tenth = inr pl /\
     rule_dims Py.to_int (width sample_4x7) (height sample_4x7) 13 13 tenth
     = inr (width (content pl), height (content pl))) /\
  (exists pl, center_on_canvas_run roomy nearest sample_4x7 12 9 tenth = inr pl /\
     rule_dims Py.to_int (width sample_4x7) (height sample_4x7) 12 9 tenth
     = inr (width (content pl), height (content pl))).
Proof.
  split.
  - destruct (fit_on_square_run roomy nearest sample_4x7 13 tenth) as [e|pl] eqn:E;
      [vm_compute in E; discriminate E|].
    exists pl. split; [reflexivity|].
    exact (proj1 (placement_dims_truncated roomy nearest) _ _ _ _ E).
  - destruct (center_on_canvas_run roomy nearest sample_4x7 12 9 tenth) as [e|pl] eqn:E;
      [vm_compute in E; discriminate E|].
    exists pl. split; [reflexivity|].
    exact (proj2 (placement_dims_truncated roomy nearest) _ _ _ _ _ E).
Defined.

Lemma placement_centered_witness :
  (exists cv new x y,
     fit_on_square roomy nearest sample_4x7 13 tenth = inr cv /\
     x = (13 - width new) / 2 /\ y = (13 - height new) / 2 /\
     paste (Img RGBA 13 13 (tabulate 13 13 (fun _ _ => Px x00 x00 x00 x00)))
           new x y new = inr cv) /\
  (exists cv new x y,
     center_on_canvas roomy nearest sample_4x7 12 9 tenth = inr cv /\
     x = (12 - width new) / 2 /\ y = (9 - height new) / 2 /\
     paste (Img RGBA 12 9 (tabulate 12 9 (fun _ _ => Px xff xff xff x00)))
           new x y new = inr cv).
Proof.
  split.
  - destruct (fit_on_square roomy nearest sample_4x7 13 tenth) as [e|cv] eqn:E;
      [vm_compute in E; discriminate E|].
    destruct (proj1 (placement_centered roomy nearest) _ _ _ _ E)
      as (new & x & y & _ & _ & X & Y & _ & _ & P & _).
    exists cv, new, x, y. repeat split; assumption.
  - destruct (center_on_canvas roomy nearest sample_4x7 12 9 tenth) as [e|cv] eqn:E;
      [vm_compute in E; discriminate E|].
    destruct (proj2 (placement_centered roomy nearest) _ _ _ _ _ E)
      as (new & x & y & _ & _ & X & Y & _ & _ & P & _).
    exists cv, new, x, y. repeat split; assumption.
Defined.

Lemma content_within_padding_witness :
  (exists pl, fit_on_square_run roomy nearest sample_4x7 13 tenth = inr pl /\
     (IZR (width (content pl)) <= 13 * (1 - 2 * B2R tenth) + 1)%R /\
     (IZR (height (content pl)) <= 13 * (1 - 2 * B2R tenth) + 1)%R) /\
  (exists pl, center_on_canvas_run roomy nearest sample_4x7 12 9 tenth = inr pl /\
     (IZR (width (content pl)) <= 12 * (1 - 2 * B2R tenth) + 1)%R /\
     (IZR (height (content pl)) <= 9 * (1 - 2 * B2R tenth) + 1)%R).
Proof.
  assert (Hw : 1 <= width sample_4x7 <= int_max) by (vm_compute; split; discriminate).
  assert (Hh : 1 <= height sample_4x7 <= int_max) by (vm_compute; split; discriminate).
  assert (Hp : pad_in_range tenth = true) by reflexivity.
  split.
  - destruct (fit_on_square_run roomy nearest sample_4x7 13 tenth) as [e|pl] eqn:E;
      [vm_compute in E; discriminate E|].
    exists pl. split; [reflexivity|].
    exact (proj1 (content_within_padding roomy nearest) _ _ _ _ Hw Hh Hp E).
  - destruct (center_on_canvas_run roomy nearest sample_4x7 12 9 tenth) as [e|pl] eqn:E;
      [vm_compute in E; discriminate E|].
    exists pl. split; [reflexivity|].
    exact (proj2 (content_within_padding roomy nearest) _ _ _ _ _ Hw Hh Hp E).
Defined.

Lemma square_is_centered_up_to_fill_witness :
  exists a b,
    fit_on_square_run roomy nearest dot 3 tenth = inr a /\
    center_on_canvas_run roomy nearest dot 3 3 tenth = inr b /\
    same_placement a b /\
    getpixel (canvas a) 2 2 = Px x00 x00 x00 x00 /\
    getpixel (canvas b) 2 2 = Px xff xff xff x00.
Proof.
  pose proof (square_is_centered_up_to_fill roomy nearest dot 3 tenth) as H.
  destruct (fit_on_square_run roomy nearest dot 3 tenth) as [e|a] eqn:Ea;
    [vm_compute in Ea; discriminate Ea|].
  destruct (center_on_canvas_run roomy nearest dot 3 3 tenth) as [e|b] eqn:Eb;
    [destruct H|].
  exists a, b. destruct H as [S P].
  specialize (P 2 2 ltac:(lia) ltac:(lia)). cbv zeta in P. destruct P as [_ P].
  assert (B : in_box (pos_x a) (pos_y a) (width (content a)) (height (content a)) 2 2
              = false).
  { vm_compute in Ea. injection Ea as <-. reflexivity. }
  rewrite B in P. destruct P as [Pa Pb].
  repeat split; try assumption; apply S.
Defined.

Lemma one_pixel_placement_witness :
  (exists pl m, fit_on_square_run roomy nearest dot 10 tenth = inr pl /\
     padded 10 tenth = inr m /\ 0 <= m <= 10 /\
     width (content pl) = Z.max 1 m /\ height (content pl) = Z.max 1 m) /\
  (exists pl mw mh, center_on_canvas_run roomy nearest dot 12 9 tenth = inr pl /\
     padded 12 tenth = inr mw /\ padded 9 tenth = inr mh /\
     0 <= mw <= 12 /\ 0 <= mh <= 9 /\
     width (content pl) = Z.max 1 (Z.min mw mh) /\
     height (content pl) = Z.max 1 (Z.min mw mh)).
Proof.
  pose proof (one_pixel_placement roomy nearest dot tenth eq_refl eq_refl eq_refl eq_refl)
    as [F C].
  split.
  - destruct (F 10 ltac:(unfold int_max; lia) ltac:(apply roomy_fits; lia))
      as (pl & m & E & _ & Em & Hm & W & H & _).
    exists pl, m. repeat split; try assumption; lia.
  - destruct (C 12 9 ltac:(unfold int_max; lia) ltac:(unfold int_max; lia)
                ltac:(apply roomy_fits; lia))
      as (pl & mw & mh & E & _ & Emw & Emh & Hmw & Hmh & W & H & _).
    exists pl, mw, mh. repeat split; try assumption; lia.
Defined.

Lemma flag_mockup_height_truncated_witness :
  flag_height 3 2 900 = inr 600 /\
  exists placed bg,
    flag_mockup_run roomy nearest dot 3 2 900 = inr (placed, bg) /\
    img_mode bg = RGB /\ width bg = 900 /\ height bg = 600.
Proof.
  assert (Hw : 1 <= width dot <= int_max) by (vm_compute; split; discriminate).
  assert (Hh : 1 <= height dot <= int_max) by (vm_compute; split; discriminate).
  destruct (flag_mockup_height_truncated roomy nearest dot 3 2 900 eq_refl Hw Hh
              ltac:(lia) ltac:(lia) ltac:(unfold int_max; lia)
              ltac:(vm_compute; discriminate) ltac:(apply roomy_fits; vm_compute; discriminate))
    as (A & _ & pl & bg & E & _ & M & W & H & _).
  split; [exact A|]. exists pl, bg. repeat split; assumption.
Defined.

(** * Further properties *)

Lemma pasted_well_formed dst src x y mask : well_formed (pasted dst src x y mask).
Proof.
  unfold well_formed, pasted. cbn [rows width height]. split.
  - apply tabulate_length.
  - apply tabulate_rows.
Qed.

Section Extras.

Variable allocates : Z -> Z -> bool.
Variable lanczos : image -> Z -> Z -> Z -> Z -> pixel.

Lemma fit_on_square_of_run img size p pl :
  fit_on_square_run allocates lanczos img size p = inr pl ->
  fit_on_square allocates lanczos img size p = inr (canvas pl).
Proof. intros H. unfold fit_on_square. rewrite H. reflexivity. Qed.

Lemma center_on_canvas_of_run img w h p pl :
  center_on_canvas_run allocates lanczos img w h p = inr pl ->
  center_on_canvas allocates lanczos img w h p = inr (canvas pl).
Proof. intros H. unfold center_on_canvas. rewrite H. reflexivity. Qed.

Lemma fit_canvas_shape img size p pl :
  fit_on_square_run allocates lanczos img size p = inr pl ->
  img_mode (canvas pl) = RGBA /\ width (canvas pl) = size /\
  height (canvas pl) = size /\ well_formed (canvas pl).
Proof.
  intros H. apply fit_on_square_run_inv in H.
  destruct H as (cv & m & sw & sh & iw & ih & Ec & _ & _ & _ & _ & _ & _ & _ & _ & ->).
  apply Image_new_inv in Ec. destruct Ec as [-> _].
  repeat split; try reflexivity; apply pasted_well_formed.
Qed.

Lemma center_canvas_shape img w h p pl :
  center_on_canvas_run allocates lanczos img w h p = inr pl ->
  img_mode (canvas pl) = RGBA /\ width (canvas pl) = w /\
  height (canvas pl) = h /\ well_formed (canvas pl).
Proof.
  intros H. apply center_on_canvas_run_inv in H.
  destruct H as (cv & mw & mh & sw & sh & iw & ih & Ec & _ & _ & _ & _ & _ & _ & _ & _ & _ & ->).
  apply Image_new_inv in Ec. destruct Ec as [-> _].
  repeat split; try reflexivity; apply pasted_well_formed.
Qed.

(** Extra X3. On a canvas of at least one pixel per side the content lies
    inside the canvas, at a non-negative offset, and the margin on the right
    (bottom) is the margin on the left (top) or one pixel more. *)
Theorem content_inside_canvas :
  (forall img size p pl,
      1 <= width img <= int_max -> 1 <= height img <= int_max ->
      pad_in_range p = true -> 1 <= size ->
      fit_on_square_run allocates lanczos img size p = inr pl ->
      0 <= pos_x pl /\ pos_x pl + width (content pl) <= size /\
      0 <= pos_y pl /\ pos_y pl + height (content pl) <= size /\
      0 <= (size - width (content pl) - pos_x pl) - pos_x pl <= 1 /\
      0 <= (size - height (content pl) - pos_y pl) - pos_y pl <= 1) /\
  (forall img w h p pl,
      1 <= width img <= int_max -> 1 <= height img <= int_max ->
      pad_in_range p = true -> 1 <= w -> 1 <= h ->
      center_on_canvas_run allocates lanczos img w h p = inr pl ->
      0 <= pos_x pl /\ pos_x pl + width (content pl) <= w /\
      0 <= pos_y pl /\ pos_y pl + height (content pl) <= h /\
      0 <= (w - width (content pl) - pos_x pl) - pos_x pl <= 1 /\
      0 <= (h - height (content pl) - pos_y pl) - pos_y pl <= 1).
Proof.
  split.
  - intros img size p pl Hw Hh Hp Hs H.
    destruct (fit_on_square_run_facts allocates lanczos img size p pl Hw Hh Hp H)
      as (m & iw & ih & Em & Hm & Hiw & Hih & Wc & Hc & Hsz).
    apply fit_on_square_run_inv in H.
    destruct H as (cv & m0 & sw0 & sh0 & iw0 & ih0 & _ & _ & _ & _ & _ & _ & Er & X & Y & _).
    apply resize_inv in Er. destruct Er as [Er _].
    rewrite Er in Wc, Hc. cbn [width height] in Wc, Hc.
    rewrite Er. cbn [width height]. rewrite X, Y.
    pose proof (half_floor (size - Z.max 1 iw0)).
    pose proof (half_floor (size - Z.max 1 ih0)).
    lia.
  - intros img w h p pl Hw Hh Hp Hcw Hch H.
    destruct (center_on_canvas_run_facts allocates lanczos img w h p pl Hw Hh Hp H)
      as (mw & mh & iw & ih & Emw & Emh & Hmw & Hmh & Hiw & Hih & Wc & Hc & Hsw & Hsh).
    apply center_on_canvas_run_inv in H.
    destruct H as (cv & mw0 & mh0 & sw0 & sh0 & iw0 & ih0 & _ & _ & _ & _ & _ & _ & _ & Er & X & Y & _).
    apply resize_inv in Er. destruct Er as [Er _].
    rewrite Er in Wc, Hc. cbn [width height] in Wc, Hc.
    rewrite Er. cbn [width height]. rewrite X, Y.
    pose proof (half_floor (w - Z.max 1 iw0)).
    pose proof (half_floor (h - Z.max 1 ih0)).
    lia.
Qed.

(** Extra X4. A negative canvas size makes both compositors raise
    [ValueError], whatever the image and the padding ratio. *)
Theorem negative_canvas_raises img w h size p :
  (size < 0 -> fit_on_square allocates lanczos img size p = inl ValueError) /\
  (w < 0 \/ h < 0 -> center_on_canvas allocates lanczos img w h p = inl ValueError).
Proof.
  split.
  - intros Hs. unfold fit_on_square, fit_on_square_run, Image_new, check_size.
    destruct (Z.ltb_spec size 0); [reflexivity|lia].
  - intros Hs. unfold center_on_canvas, center_on_canvas_run, Image_new, check_size.
    destruct (Z.ltb_spec w 0), (Z.ltb_spec h 0); try reflexivity; lia.
Qed.

Lemma truediv_zero a : Py.truediv a 0 = inl ZeroDivisionError.
Proof. reflexivity. Qed.

(** Extra X5. A source without pixels (width 0, or height 0) never gets a
    canvas back: for every valid canvas and padding both compositors raise
    [ZeroDivisionError] when the machine has room for the canvas, which is
    allocated first, and [MemoryError] when it has not. *)
Theorem empty_source_raises img p :
  pad_in_range p = true -> width img = 0 \/ (1 <= width img <= int_max /\ height img = 0) ->
  (forall size, 0 <= size <= int_max ->
     fit_on_square allocates lanczos img size p
     = inl (if allocates size size then ZeroDivisionError else MemoryError)) /\
  (forall w h, 0 <= w <= int_max -> 0 <= h <= int_max ->
     center_on_canvas allocates lanczos img w h p
     = inl (if allocates w h then ZeroDivisionError else MemoryError)).
Proof.
  intros Hp Hz. split.
  - intros size Hs.
    destruct (padded_spec size p Hs Hp) as (m & Em & Hm & _).
    unfold fit_on_square, fit_on_square_run. cbv zeta.
    destruct (allocates size size) eqn:Ha.
    2:{ now rewrite (Image_new_full allocates _ _ _ _ Hs Hs Ha). }
    rewrite (Image_new_ok allocates _ _ _ _ Hs Hs Ha), bind_inr_eq. rewrite Em, bind_inr_eq.
    destruct Hz as [W0|[Hw H0]].
    + rewrite W0, truediv_zero. reflexivity.
    + destruct (truediv_spec m (width img)) as (sw & Esw & _); [unfold int_max in *; lia|lia|].
      rewrite Esw, bind_inr_eq, H0, truediv_zero. reflexivity.
  - intros w h Hw Hh.
    destruct (padded_spec w p Hw Hp) as (mw & Emw & Hmw & _).
    destruct (padded_spec h p Hh Hp) as (mh & Emh & Hmh & _).
    unfold center_on_canvas, center_on_canvas_run.
    destruct (allocates w h) eqn:Ha.
    2:{ now rewrite (Image_new_full allocates _ _ _ _ Hw Hh Ha). }
    rewrite (Image_new_ok allocates _ _ _ _ Hw Hh Ha), bind_inr_eq.
    rewrite Emw, bind_inr_eq, Emh, bind_inr_eq.
    destruct Hz as [W0|[Hi H0]].
    + rewrite W0, truediv_zero. reflexivity.
    + destruct (truediv_spec mw (width img)) as (sw & Esw & _); [unfold int_max in *; lia|lia|].
      rewrite Esw, bind_inr_eq, H0, truediv_zero. reflexivity.
Qed.

End Extras.

(** [int(n * scale)] reaches the padded extent [m] up to one pixel when
    [scale] is the rounded [m / n] or larger. *)
Lemma axis_fill m n s q z :
  0 <= m <= int_max -> 1 <= n <= int_max ->
  good s -> rounds_to (IZR m / IZR n) q ->
  (B2R q <= B2R s)%R -> (IZR n * B2R s <= IZR m + / 2)%R ->
  scaled n s = inr z -> m - 1 <= z.
Proof.
  unfold int_max. intros Hm Hn Gs Rq Hqs Hprod Ez.
  assert (HN : (1 <= IZR n <= 2147483647)%R) by (split; apply IZR_le; lia).
  assert (HM : (0 <= IZR m <= 2147483647)%R) by (split; apply IZR_le; lia).
  pose proof (quotient_range m n ltac:(lia) ltac:(lia)) as Hq.
  destruct (rounds_error _ _ (IZR m) Rq (representable_int m ltac:(lia)) Hq) as [_ E2].
  pose proof (good_nonneg s Gs) as Hs0.
  destruct (scaled_spec n s (IZR m + / 2) ltac:(lia) Gs
              (representable_half_int m ltac:(lia)) Hprod)
    as (z' & v & _ & _ & Ez' & Rv & Gv & _ & _ & _ & Hz2).
  rewrite Ez in Ez'. injection Ez' as <-.
  assert (Hx : (0 <= IZR n * B2R s <= IZR m + / 2)%R) by (split; [nra|lra]).
  destruct (rounds_error _ _ (IZR m + / 2) Rv (representable_half_int m ltac:(lia)) Hx)
    as [_ V2].
  pose proof eps_val as Ee. pose proof delta_le_eps as Ed.
  pose proof (pow2_pos (-1074)) as Hd0.
  set (eps := pow2 (-52)) in *. set (dl := pow2 (-1074)) in *.
  assert (Hmn : (IZR n * (IZR m / IZR n) = IZR m)%R) by (field; lra).
  assert (L1 : (IZR m <= IZR n * B2R s + IZR m * eps + IZR n * dl)%R).
  { apply Rle_trans with (IZR n * (B2R q + IZR m / IZR n * eps + dl))%R.
    - rewrite <- Hmn at 1. apply Rmult_le_compat_l; lra.
    - replace (IZR n * (B2R q + IZR m / IZR n * eps + dl))%R
        with (IZR n * B2R q + IZR n * (IZR m / IZR n) * eps + IZR n * dl)%R by ring.
      rewrite Hmn. assert (IZR n * B2R q <= IZR n * B2R s)%R by (apply Rmult_le_compat_l; lra).
      lra. }
  assert (IZR m * eps <= 2147483647 * eps)%R by nra.
  assert (IZR n * dl <= 2147483647 * eps)%R by nra.
  assert (IZR n * B2R s * eps <= 2147483648 * eps)%R by nra.
  assert (IZR m - 2 < IZR z)%R by (rewrite Ee in *; lra).
  assert (m - 2 < z); [|lia].
  apply lt_IZR. rewrite minus_IZR. assumption.
Qed.

Lemma axis_product m n s q :
  0 <= m <= int_max -> 1 <= n <= int_max ->
  good s -> rounds_to (IZR m / IZR n) q -> (B2R s <= B2R q)%R ->
  (IZR n * B2R s <= IZR m + / 2)%R.
Proof.
  unfold int_max. intros Hm Hn Gs Rq Hsq.
  assert (HN : (1 <= IZR n <= 2147483647)%R) by (split; apply IZR_le; lia).
  assert (HM : (0 <= IZR m <= 2147483647)%R) by (split; apply IZR_le; lia).
  pose proof (quotient_range m n ltac:(lia) ltac:(lia)) as Hq.
  destruct (rounds_error _ _ (IZR m) Rq (representable_int m ltac:(lia)) Hq) as [E1 _].
  pose proof eps_val as Ee. pose proof delta_le_eps as Ed.
  pose proof (pow2_pos (-1074)) as Hd0.
  set (eps := pow2 (-52)) in *. set (dl := pow2 (-1074)) in *.
  assert (Hmn : (IZR n * (IZR m / IZR n) = IZR m)%R) by (field; lra).
  apply Rle_trans with (IZR n * (IZR m / IZR n + IZR m / IZR n * eps + dl))%R.
  - apply Rmult_le_compat_l; lra.
  - replace (IZR n * (IZR m / IZR n + IZR m / IZR n * eps + dl))%R
      with (IZR n * (IZR m / IZR n) + IZR n * (IZR m / IZR n) * eps + IZR n * dl)%R by ring.
    rewrite Hmn.
    assert (IZR m * eps <= 2147483647 * eps)%R by nra.
    assert (IZR n * dl <= 2147483647 * eps)%R by nra.
    rewrite Ee in *. lra.
Qed.

(** When [h <= w], the scale [min(m / w, m / h)] lies between some rounding
    of [m / w] and the double [m / w] itself. *)
Lemma min_scale_lower m w h sw sh :
  0 <= m <= int_max -> 1 <= h <= w -> w <= int_max ->
  good sw -> good sh ->
  rounds_to (IZR m / IZR w) sw -> rounds_to (IZR m / IZR h) sh ->
  exists q, rounds_to (IZR m / IZR w) q /\ (B2R q <= B2R (Py.min sw sh))%R /\
            (B2R (Py.min sw sh) <= B2R sw)%R.
Proof.
  intros Hm Hh Hw Gw Gh Rw Rh.
  destruct (min_spec sw sh Gw Gh) as [_ Vm]. rewrite Vm.
  destruct (Rle_lt_dec (B2R sw) (B2R sh)) as [Hle|Hlt].
  - exists sw. rewrite Rmin_left by assumption. repeat split; auto; lra.
  - (* [sh] is the smaller double *)
    rewrite Rmin_right by lra.
    assert (HW : (1 <= IZR h <= IZR w)%R) by (split; apply IZR_le; lia).
    assert (HM : (0 <= IZR m)%R) by (apply IZR_le; lia).
    assert (Hq : (IZR m / IZR w <= IZR m / IZR h)%R).
    { unfold Rdiv. apply Rmult_le_compat_l; [lra|].
      apply Rinv_le_contravar; lra. }
    pose proof (good_representable sw Gw) as Rsw.
    pose proof (good_representable sh Gh) as Rsh.
    pose proof (quotient_range m h ltac:(lia) ltac:(lia)) as Hqh.
    pose proof (quotient_range m w ltac:(lia) ltac:(lia)) as Hqw.
    assert (Rm : representable (IZR m)) by (apply representable_int; unfold int_max in *; lia).
    (* if [sw <= m/h], the rounding [sh] of [m/h] cannot be below [sw] *)
    destruct (Rle_lt_dec (B2R sw) (IZR m / IZR h)) as [Hb|Hb].
    + pose proof (rounds_lower _ _ (B2R sw) (IZR m) Rh Rsw Rm ltac:(lra)). lra.
    + (* if [m/w <= sh], the rounding [sw] of [m/w] cannot be above [sh] *)
      destruct (Rle_lt_dec (IZR m / IZR w) (B2R sh)) as [Hc|Hc].
      * destruct (rounds_upper _ _ (B2R sh) Rw Rsh Hc) as (_ & U & _). lra.
      * (* [sh < m/w <= m/h]: [sh] rounds [m/h] down, hence [m/w] too *)
        exists sh. split; [|split; lra].
        destruct Rh as (m' & m1 & e' & Hb' & Hn' & He' & Hloc & Hr).
        exists m', m1, e'. repeat (split; [assumption|]).
        assert (Hval : B2R sh = F2R m1 e').
        { destruct Hr as [[-> [s ->]]|(m2 & e2 & Ev & Hcan & [[_ ->]|[_ Ei]])].
          - simpl. now rewrite F2R_0.
          - simpl. exact Ev.
          - destruct Gh as [[? G]|(? & ? & G & _)]; rewrite G in Ei; discriminate Ei. }
        split; [|exact Hr].
        right. destruct Hloc as [[Ex E1]|[[L1 L2] Hm1]].
        { exfalso. subst m1. rewrite <- Ex in Hval. lra. }
        destruct Hm1 as [->| ->].
        -- split; [|left; reflexivity]. rewrite <- Hval. split; lra.
        -- exfalso. rewrite Hval in Hc. lra.
Qed.

Lemma min_comm_value sw sh :
  good sw -> good sh -> B2R (Py.min sw sh) = B2R (Py.min sh sw).
Proof.
  intros Gw Gh. destruct (min_spec sw sh Gw Gh) as [_ ->].
  destruct (min_spec sh sw Gh Gw) as [_ ->]. apply Rmin_comm.
Qed.

Section Fill.

Variable allocates : Z -> Z -> bool.
Variable lanczos : image -> Z -> Z -> Z -> Z -> pixel.

(** Extra X6. [fit_on_square] fills the padded square along the longer side
    of the source: that side of the content is the padded extent [m =
    int(size * (1 - 2 * pad_ratio))] or one pixel less, and one pixel when
    [m] is 0. *)
Theorem longer_side_fills_padded_square img size p pl m :
  1 <= width img <= int_max -> 1 <= height img <= int_max ->
  pad_in_range p = true ->
  fit_on_square_run allocates lanczos img size p = inr pl -> padded size p = inr m ->
  (height img <= width img -> m - 1 <= width (content pl) <= Z.max 1 m) /\
  (width img <= height img -> m - 1 <= height (content pl) <= Z.max 1 m).
Proof.
  intros Hw Hh Hp H Em.
  pose proof H as H'. apply fit_on_square_run_inv in H'.
  destruct H' as (cv & m0 & sw & sh & iw & ih & Ec & Em0 & Esw & Esh & Eiw & Eih & Er & _).
  rewrite Em in Em0. injection Em0 as <-.
  apply Image_new_inv in Ec. destruct Ec as (_ & Hs & _).
  destruct (padded_spec size p Hs Hp) as (m' & Em' & Hm & _).
  rewrite Em in Em'. injection Em' as <-.
  assert (Hmi : 0 <= m <= int_max) by lia.
  destruct (truediv_spec m (width img)) as (sw' & Esw' & Gw & Rw & _);
    [unfold int_max in *; lia|lia|].
  rewrite Esw in Esw'. injection Esw' as <-.
  destruct (truediv_spec m (height img)) as (sh' & Esh' & Gh & Rh & _);
    [unfold int_max in *; lia|lia|].
  rewrite Esh in Esh'. injection Esh' as <-.
  destruct (min_spec sw sh Gw Gh) as [Gm Vm].
  apply resize_inv in Er. destruct Er as [Er _].
  destruct (dims_spec m m (width img) (height img) Hmi Hmi Hw Hh)
    as (sw2 & sh2 & iw2 & ih2 & A1 & A2 & A3 & A4 & Biw & Bih).
  rewrite Esw in A1. injection A1 as <-. rewrite Esh in A2. injection A2 as <-.
  rewrite Eiw in A3. injection A3 as <-. rewrite Eih in A4. injection A4 as <-.
  rewrite Er. cbn [width height]. split.
  - intros Hle.
    destruct (min_scale_lower m (width img) (height img) sw sh) as (q & Rq & Q1 & Q2);
      try assumption; try lia.
    pose proof (axis_product m (width img) (Py.min sw sh) sw Hmi Hw Gm Rw Q2) as Hprod.
    pose proof (axis_fill m (width img) (Py.min sw sh) q iw Hmi Hw Gm Rq Q1 Hprod Eiw).
    lia.
  - intros Hle.
    destruct (min_scale_lower m (height img) (width img) sh sw) as (q & Rq & Q1 & Q2);
      try assumption; try lia.
    rewrite <- (min_comm_value sw sh Gw Gh) in Q1, Q2.
    pose proof (axis_product m (height img) (Py.min sw sh) sh Hmi Hh Gm Rh Q2) as Hprod.
    pose proof (axis_fill m (height img) (Py.min sw sh) q ih Hmi Hh Gm Rq Q1 Hprod Eih).
    lia.
Qed.

End Fill.

Lemma near_white_spec t tol p :
  near_white t tol p = true <-> t < max3 p /\ max3 p - min3 p < tol.
Proof.
  unfold near_white, max3, min3.
  pose proof (b2z_range (red p)). pose proof (b2z_range (green p)).
  pose proof (b2z_range (blue p)).
  rewrite andb_true_iff, !Z.ltb_lt, Z.mod_small by lia. tauto.
Qed.

Lemma Forall2_map_both {A B : Type} (R : B -> B -> Prop) (f g : A -> B) l :
  (forall x, R (f x) (g x)) -> Forall2 R (map f l) (map g l).
Proof. intros H. induction l; simpl; constructor; auto. Qed.

(** Extra X9. Raising the threshold or lowering the tolerance clears fewer
    pixels: a pixel transparent after [remove_near_white_bg img t' tol'] is
    transparent after [remove_near_white_bg img t tol] when [t <= t'] and
    [tol' <= tol]. *)
Theorem remove_near_white_bg_monotone img t tol t' tol' :
  t <= t' -> tol' <= tol ->
  Forall2 (Forall2 (fun p q => alpha q = x00 -> alpha p = x00))
    (rows (remove_near_white_bg img t tol))
    (rows (remove_near_white_bg img t' tol')).
Proof.
  intros Ht Htol. unfold remove_near_white_bg. cbn [rows].
  apply Forall2_map_both. intros r. apply Forall2_map_both. intros p.
  unfold clear_near_white. cbn [alpha].
  destruct (near_white t' tol' p) eqn:N'.
  - apply near_white_spec in N'.
    assert (N : near_white t tol p = true) by (apply near_white_spec; lia).
    rewrite N. reflexivity.
  - destruct (near_white t tol p); auto.
Qed.

(** Extra X10. With a threshold of 255 or more, or a tolerance of 0 or less,
    no pixel is near-white: [remove_near_white_bg] returns the RGBA
    conversion of its input unchanged. *)
Theorem remove_near_white_bg_nothing_to_clear img t tol :
  255 <= t \/ tol <= 0 ->
  remove_near_white_bg img t tol = convert_RGBA img.
Proof.
  intros Hr.
  assert (Hid : forall p, clear_near_white t tol p = p).
  { intros p. unfold clear_near_white.
    destruct (near_white t tol p) eqn:N.
    - apply near_white_spec in N. unfold max3, min3 in N.
      pose proof (b2z_range (red p)). pose proof (b2z_range (green p)).
      pose proof (b2z_range (blue p)). lia.
    - now destruct p. }
  unfold remove_near_white_bg.
  rewrite (map_ext _ (fun r => r)).
  - rewrite map_id. unfold convert_RGBA. destruct (img_mode img) eqn:M.
    + reflexivity.
    + destruct img. cbn in *. now subst.
  - intros r. rewrite (map_ext _ (fun p => p)) by assumption. apply map_id.
Qed.

(** Extra X11. Two background removals with different settings commute. *)
Theorem remove_near_white_bg_commute img t1 tol1 t2 tol2 :
  remove_near_white_bg (remove_near_white_bg img t1 tol1) t2 tol2
  = remove_near_white_bg (remove_near_white_bg img t2 tol2) t1 tol1.
Proof.
  unfold remove_near_white_bg at 1 3.
  rewrite !convert_RGBA_idem by reflexivity.
  unfold remove_near_white_bg. cbn [width height rows]. f_equal.
  rewrite !map_map. apply map_ext. intros r. rewrite !map_map.
  apply map_ext. intros p.
  unfold clear_near_white at 1 3.
  rewrite (near_white_rgb t2 tol2 p (clear_near_white t1 tol1 p)) by (repeat split).
  rewrite (near_white_rgb t1 tol1 p (clear_near_white t2 tol2 p)) by (repeat split).
  cbn [red green blue alpha clear_near_white].
  destruct (near_white t1 tol1 p), (near_white t2 tol2 p); reflexivity.
Qed.

(** Extra X12. An RGB input is treated as opaque: in the output every
    near-white pixel has alpha 0 and every other pixel alpha 255. *)
Theorem remove_near_white_bg_of_RGB img t tol :
  img_mode img = RGB ->
  img_mode (remove_near_white_bg img t tol) = RGBA /\
  Forall (Forall (fun q => alpha q = if near_white t tol q then x00 else xff))
    (rows (remove_near_white_bg img t tol)).
Proof.
  intros M. split; [reflexivity|].
  unfold remove_near_white_bg, convert_RGBA. rewrite M. cbn [rows].
  rewrite map_map. apply Forall_map, Forall_forall. intros r _.
  rewrite map_map. apply Forall_map, Forall_forall. intros p _.
  unfold clear_near_white. cbn [alpha red green blue].
  rewrite (near_white_rgb t tol (Px (red p) (green p) (blue p) xff)
             (Px (red p) (green p) (blue p)
                 (if near_white t tol (Px (red p) (green p) (blue p) xff)
                  then z2b 0 else xff))) by (repeat split).
  destruct (near_white t tol _); reflexivity.
Qed.

(** ** Locating the input: facts *)

Lemma ascii_compare_N a b : Ascii.compare a b = N.compare (N_of_ascii a) (N_of_ascii b).
Proof. reflexivity. Qed.

Lemma string_compare_refl s : String.compare s s = Eq.
Proof.
  induction s as [|a s IH]; simpl; [reflexivity|].
  now rewrite ascii_compare_N, N.compare_refl.
Qed.

Lemma string_compare_trans c s1 : forall s2 s3,
  String.compare s1 s2 = c -> String.compare s2 s3 = c -> String.compare s1 s3 = c.
Proof.
  induction s1 as [|a1 s1 IH]; intros [|a2 s2] [|a3 s3]; simpl; try congruence.
  rewrite !ascii_compare_N.
  destruct (N.compare_spec (N_of_ascii a1) (N_of_ascii a2)) as [E12|L12|G12];
  destruct (N.compare_spec (N_of_ascii a2) (N_of_ascii a3)) as [E23|L23|G23];
    try congruence; intros H1 H2.
  - rewrite E12, E23, N.compare_refl. eauto.
  - rewrite E12. apply N.compare_lt_iff in L23. rewrite L23. assumption.
  - rewrite E12. apply N.compare_gt_iff in G23. rewrite G23. assumption.
  - rewrite <- E23. apply N.compare_lt_iff in L12. rewrite L12. assumption.
  - assert (L : (N_of_ascii a1 < N_of_ascii a3)%N) by lia.
    apply N.compare_lt_iff in L. rewrite L. assumption.
  - rewrite <- E23. apply N.compare_gt_iff in G12. rewrite G12. assumption.
  - assert (L : (N_of_ascii a3 < N_of_ascii a1)%N) by lia.
    apply N.compare_gt_iff in L. rewrite L. assumption.
Qed.

Lemma string_leb_trans s1 s2 s3 :
  String.leb s1 s2 = true -> String.leb s2 s3 = true -> String.leb s1 s3 = true.
Proof.
  unfold String.leb.
  destruct (String.compare s1 s2) eqn:E12; try discriminate;
  destruct (String.compare s2 s3) eqn:E23; try discriminate; intros _ _.
  - apply String.compare_eq_iff in E12. subst. now rewrite E23.
  - apply String.compare_eq_iff in E12. subst. now rewrite E23.
  - apply String.compare_eq_iff in E23. subst. now rewrite E12.
  - now rewrite (string_compare_trans Lt s1 s2 s3 E12 E23).
Qed.

Lemma string_leb_refl s : String.leb s s = true.
Proof. unfold String.leb. now rewrite string_compare_refl. Qed.

Lemma tuple_leb_trans x y z :
  tuple_leb x y = true -> tuple_leb y z = true -> tuple_leb x z = true.
Proof.
  unfold tuple_leb. rewrite !orb_true_iff, !andb_true_iff, !Z.ltb_lt, !Z.eqb_eq.
  intros [H1|[H1 L1]] [H2|[H2 L2]]; try (left; lia).
  right. split; [lia|]. eapply string_leb_trans; eassumption.
Qed.

Lemma tuple_leb_total x y : tuple_leb x y = true \/ tuple_leb y x = true.
Proof.
  unfold tuple_leb. rewrite !orb_true_iff, !andb_true_iff, !Z.ltb_lt, !Z.eqb_eq.
  destruct (Z.lt_total (fst x) (fst y)) as [H|[H|H]]; auto.
  destruct (String.leb_total (snd x) (snd y)); auto.
Qed.

Lemma tuple_leb_refl x : tuple_leb x x = true.
Proof. destruct (tuple_leb_total x x); assumption. Qed.

Lemma tuple_leb_size x y : tuple_leb x y = true -> fst x <= fst y.
Proof.
  unfold tuple_leb. rewrite !orb_true_iff, !andb_true_iff, !Z.ltb_lt, !Z.eqb_eq. lia.
Qed.

Lemma insert_desc_in x l y : In y (insert_desc x l) <-> y = x \/ In y l.
Proof.
  induction l as [|z l IH]; simpl.
  - intuition.
  - destruct (tuple_leb z x); simpl; [intuition|]. rewrite IH. intuition.
Qed.

Lemma sort_reverse_in l y : In y (sort_reverse l) <-> In y l.
Proof.
  induction l as [|x l IH]; simpl; [tauto|].
  rewrite insert_desc_in, IH. intuition.
Qed.

(** The head of an insertion is the larger of the element and the old head. *)
Lemma insert_desc_head x l :
  (forall y, In y l -> tuple_leb y (hd x l) = true) ->
  forall y, In y (insert_desc x l) -> tuple_leb y (hd x (insert_desc x l)) = true.
Proof.
  destruct l as [|z l]; simpl.
  - intros _ y [<-|[]]. apply tuple_leb_refl.
  - intros Hmax. destruct (tuple_leb z x) eqn:E; simpl.
    + intros y [<-|Hy]; [apply tuple_leb_refl|].
      apply tuple_leb_trans with z; auto.
    + intros y [<-|Hy]; [apply tuple_leb_refl|].
      apply insert_desc_in in Hy. destruct Hy as [->|Hy].
      * destruct (tuple_leb_total x z) as [H|H]; [assumption|congruence].
      * apply Hmax. right. exact Hy.
Qed.

Lemma sort_reverse_head l d :
  forall y, In y (sort_reverse l) -> tuple_leb y (hd d (sort_reverse l)) = true.
Proof.
  induction l as [|x l IH]; simpl; [tauto|].
  intros y Hy.
  assert (H : tuple_leb y (hd x (insert_desc x (sort_reverse l))) = true).
  { apply insert_desc_head; [|assumption].
    intros z Hz. specialize (IH z Hz).
    destruct (sort_reverse l); [destruct Hz|exact IH]. }
  destruct (insert_desc x (sort_reverse l)); [destruct Hy|exact H].
Qed.

Section FindInput_facts.

Variable path_exists : string -> bool.
Variable listdir : string -> py (list string).
Variable getsize : string -> py Z.

(** Extra X15. [find_input] returns the first of [INPUT_CANDIDATES] that
    exists in the directory, whatever else the directory holds, and whether
    or not the directory can be listed. *)
Theorem find_input_prefers_candidates path earlier c later :
  INPUT_CANDIDATES = earlier ++ c :: later ->
  (forall d, In d earlier -> path_exists (path_join path d) = false) ->
  path_exists (path_join path c) = true ->
  find_input path_exists listdir getsize path = inr (path_join path c).
Proof.
  intros Hc He Hx. unfold find_input. rewrite Hc.
  assert (F : find (fun name => path_exists (path_join path name)) (earlier ++ c :: later)
              = Some c).
  { clear Hc. induction earlier as [|d l IH]; simpl.
    - now rewrite Hx.
    - rewrite (He d) by (now left). apply IH. intros d' Hd'. apply He. now right. }
  rewrite F. reflexivity.
Qed.

Lemma no_candidate path :
  (forall c, In c INPUT_CANDIDATES -> path_exists (path_join path c) = false) ->
  find (fun name => path_exists (path_join path name)) INPUT_CANDIDATES = None.
Proof.
  intros Hn.
  destruct (find _ INPUT_CANDIDATES) as [c|] eqn:E; [|reflexivity].
  apply find_some in E. destruct E as [Hin Hx]. rewrite (Hn c Hin) in Hx. discriminate.
Qed.

Lemma image_files_in path names : forall cands,
  image_files getsize path names = inr cands ->
  forall x, In x cands <->
    exists f, In f names /\ endswith_any (lower f) exts = true /\
              getsize (path_join path f) = inr (fst x) /\ snd x = path_join path f.
Proof.
  induction names as [|g names IH]; intros cands H x; cbn [image_files] in H.
  - injection H as <-. split; [intros []|intros (f & [] & _)].
  - destruct (endswith_any (lower g) exts) eqn:Eg.
    + inv_bind H. inv_bind H. injection H as <-.
      specialize (IH _ E0 x). cbn [In]. rewrite IH. split.
      * intros [<-|(f & Hf & He & Hs & Hp)].
        -- exists g. cbn [fst snd]. auto.
        -- exists f. auto.
      * intros (f & [<-|Hf] & He & Hs & Hp).
        -- left. destruct x as [sx px]. cbn [fst snd] in *. subst px.
           rewrite E in Hs. now injection Hs as <-.
        -- right. exists f. auto.
    + specialize (IH _ H x). rewrite IH. split.
      * intros (f & Hf & R). exists f. split; [now right|exact R].
      * intros (f & [<-|Hf] & He & R); [congruence|]. exists f. auto.
Qed.

Lemma image_files_total path names :
  (forall f, In f names -> endswith_any (lower f) exts = true ->
             exists size, getsize (path_join path f) = inr size) ->
  exists cands, image_files getsize path names = inr cands.
Proof.
  induction names as [|g names IH]; intros Hs; cbn [image_files].
  - eexists. reflexivity.
  - destruct IH as (cands & E); [intros f Hf; apply Hs; now right|].
    destruct (endswith_any (lower g) exts) eqn:Eg; [|eauto].
    destruct (Hs g (or_introl eq_refl) Eg) as (size & Es).
    rewrite Es, bind_inr_eq, E, bind_inr_eq. eexists. reflexivity.
Qed.

Lemma image_files_stops path before f after e :
  (forall g, In g before -> endswith_any (lower g) exts = true ->
             exists size, getsize (path_join path g) = inr size) ->
  endswith_any (lower f) exts = true -> getsize (path_join path f) = inl e ->
  image_files getsize path (before ++ f :: after) = inl e.
Proof.
  intros Hb Hf He. induction before as [|g before IH]; cbn [image_files app].
  - rewrite Hf, He. reflexivity.
  - rewrite IH by (intros g' Hg'; apply Hb; now right).
    destruct (endswith_any (lower g) exts) eqn:Eg; [|reflexivity].
    destruct (Hb g (or_introl eq_refl) Eg) as (size & Es).
    rewrite Es, bind_inr_eq. reflexivity.
Qed.

(** Extra X16. When none of the candidates exists, the path [find_input]
    returns names a listed file with an image extension (in any letter
    case) whose size is the largest among those files: the directory was
    listed and the size of each of them was read. *)
Theorem find_input_falls_back_to_largest path p :
  (forall c, In c INPUT_CANDIDATES -> path_exists (path_join path c) = false) ->
  find_input path_exists listdir getsize path = inr p ->
  exists names f size,
    listdir path = inr names /\
    In f names /\ endswith_any (lower f) exts = true /\
    p = path_join path f /\ getsize p = inr size /\
    forall g, In g names -> endswith_any (lower g) exts = true ->
      exists size', getsize (path_join path g) = inr size' /\ size' <= size.
Proof.
  intros Hn H. unfold find_input in H. rewrite (no_candidate path Hn) in H.
  inv_bind H. inv_bind H. rename a into names, a0 into cands.
  destruct (sort_reverse cands) as [|c l] eqn:Es; [discriminate|].
  injection H as <-.
  assert (Hc : In c cands) by (apply sort_reverse_in; rewrite Es; now left).
  apply (image_files_in path names cands E0) in Hc.
  destruct Hc as (f & Hf & He & Hsz & Hp).
  exists names, f, (fst c). rewrite Hp at 2.
  repeat split; auto.
  intros g Hg Hge.
  assert (Hall : forall h, In h names -> endswith_any (lower h) exts = true ->
                   exists size, getsize (path_join path h) = inr size).
  { intros h Hh Hhe. destruct (getsize (path_join path h)) as [e|sz] eqn:Eh; [|eauto].
    exfalso. apply in_split in Hh. destruct Hh as (l1 & l2 & ->).
    clear Hf Hg.
    assert (Hstop : forall before after cs,
              image_files getsize path (before ++ h :: after) = inr cs -> False).
    { induction before as [|b before IHb]; intros after cs Hcs; cbn [image_files app] in Hcs.
      - rewrite Hhe, Eh in Hcs. discriminate.
      - destruct (endswith_any (lower b) exts).
        + inv_bind Hcs. inv_bind Hcs. eauto.
        + eauto. }
    exact (Hstop _ _ _ E0). }
  destruct (Hall g Hg Hge) as (sg & Eg). exists sg. split; [exact Eg|].
  assert (Hin : In (sg, path_join path g) (sort_reverse cands)).
  { apply sort_reverse_in. apply (image_files_in path names cands E0).
    exists g. cbn [fst snd]. auto. }
  pose proof (sort_reverse_head cands (0, ""%string) _ Hin) as Hmax.
  rewrite Es in Hmax. cbn [hd] in Hmax.
  apply tuple_leb_size in Hmax. exact Hmax.
Qed.

(** Extra X17. When the directory can be listed and the size of every listed
    image file can be read, [find_input] raises exactly when none of the
    candidates exists and no listed file has an image extension, and what it
    raises is [FileNotFoundError]. *)
Theorem find_input_raises_iff_no_image path names :
  listdir path = inr names ->
  (forall f, In f names -> endswith_any (lower f) exts = true ->
             exists size, getsize (path_join path f) = inr size) ->
  ((exists e, find_input path_exists listdir getsize path = inl e) <->
   (forall c, In c INPUT_CANDIDATES -> path_exists (path_join path c) = false) /\
   (forall f, In f names -> endswith_any (lower f) exts = false)) /\
  (forall e, find_input path_exists listdir getsize path = inl e ->
             e = FileNotFoundError).
Proof.
  intros Hl Hs.
  destruct (image_files_total path names Hs) as (cands & Ec).
  pose proof (image_files_in path names cands Ec) as Hin.
  unfold find_input. rewrite Hl, bind_inr_eq, Ec, bind_inr_eq.
  split; [split|].
  - intros [e H].
    destruct (find _ INPUT_CANDIDATES) as [c|] eqn:E; [discriminate|].
    destruct (sort_reverse cands) as [|c l] eqn:Es; [|discriminate].
    split.
    + intros c Hc. apply (find_none _ _ E c Hc).
    + intros f Hf. destruct (endswith_any (lower f) exts) eqn:He; [|reflexivity].
      destruct (Hs f Hf He) as (size & Esz).
      assert (Hc : In (size, path_join path f) (sort_reverse cands)).
      { apply sort_reverse_in, Hin. exists f. cbn [fst snd]. auto. }
      rewrite Es in Hc. destruct Hc.
  - intros [Hn Hf]. rewrite (no_candidate path Hn).
    destruct (sort_reverse cands) as [|c l] eqn:Es; [eexists; reflexivity|].
    assert (Hc : In c cands) by (apply sort_reverse_in; rewrite Es; now left).
    apply Hin in Hc. destruct Hc as (f & Hfin & He & _).
    rewrite (Hf f Hfin) in He. discriminate.
  - intros e H.
    destruct (find _ INPUT_CANDIDATES) as [c|]; [discriminate|].
    destruct (sort_reverse cands) as [|c l]; [|discriminate].
    now injection H as <-.
Qed.

(** Extra X21. Without a candidate, what [os.listdir] raises and what
    [os.path.getsize] raises on the first listed image file it fails on
    reaches the caller: no other file is returned in place of one whose size
    cannot be read. *)
Theorem find_input_passes_os_errors path e :
  (forall c, In c INPUT_CANDIDATES -> path_exists (path_join path c) = false) ->
  (listdir path = inl e ->
   find_input path_exists listdir getsize path = inl e) /\
  (forall before f after,
     listdir path = inr (before ++ f :: after) ->
     (forall g, In g before -> endswith_any (lower g) exts = true ->
                exists size, getsize (path_join path g) = inr size) ->
     endswith_any (lower f) exts = true -> getsize (path_join path f) = inl e ->
     find_input path_exists listdir getsize path = inl e).
Proof.
  intros Hn. unfold find_input. rewrite (no_candidate path Hn). split.
  - intros ->. reflexivity.
  - intros before f after Hl Hb Hf He.
    rewrite Hl, bind_inr_eq, (image_files_stops path before f after e Hb Hf He).
    reflexivity.
Qed.

End FindInput_facts.

(** ** The files [main] writes: facts *)

Lemma distinct_NoDup l : distinct l = true -> NoDup l.
Proof.
  induction l as [|x l IH]; simpl; [constructor|].
  rewrite andb_true_iff, negb_true_iff. intros [Hx Hl].
  constructor; [|auto].
  intros Hin. assert (existsb (String.eqb x) l = true); [|congruence].
  apply existsb_exists. exists x. split; [assumption|apply String.eqb_refl].
Qed.

Lemma is_created_spec d : is_created d = true <-> In d created_dirs.
Proof.
  unfold is_created. rewrite existsb_exists. split.
  - intros (x & Hx & E). apply String.eqb_eq in E. now subst.
  - intros H. exists d. split; [assumption|apply String.eqb_refl].
Qed.

(** Extra X19. Nine of the files go to directories [main] never creates: the
    desktop icons, the emoji and the flags are saved under [desktop/],
    [emoji/] and [flags/] relative to the working directory, while [ensure]
    created these three under [logo_asset_pack/]. Every other file goes to a
    directory created by [ensure]. *)
Theorem main_writes_outside_created_dirs basename :
  map saved_path (filter (fun s => negb (is_created (dir s))) (main_saves basename))
  = ["desktop/appicon-128.png"; "desktop/appicon-256.png"; "desktop/appicon-512.png";
     "desktop/appicon-1024.png"; "emoji/emoji-128.png"; "emoji/emoji-256.png";
     "emoji/emoji-512.png"; "flags/flag-900x600-3x2.png";
     "flags/flag-1500x900-5x3.png"]%string /\
  is_created DESKTOP_DIR = true /\ is_created EMOJI_DIR = true /\
  is_created FLAGS_DIR = true /\
  ~ In "desktop"%string created_dirs /\ ~ In "emoji"%string created_dirs /\
  ~ In "flags"%string created_dirs.
Proof.
  split; [reflexivity|]. repeat (split; [reflexivity|]).
  repeat split; intros H; apply is_created_spec in H; vm_compute in H; discriminate H.
Qed.

Lemma main_paths_NoDup basename : NoDup (map saved_path (main_saves basename)).
Proof.
  change (map saved_path (main_saves basename)) with
    (("logo_asset_pack/source/original_" ++ basename)%string
       :: map saved_path (tl (main_saves ""))).
  constructor.
  - intros Hin. vm_compute in Hin.
    repeat (destruct Hin as [Hin|Hin]; [discriminate Hin|]). exact Hin.
  - apply distinct_NoDup. vm_compute. reflexivity.
Qed.

Lemma existsb_eqb_In d l : existsb (String.eqb d) l = true <-> In d l.
Proof.
  rewrite existsb_exists. split.
  - intros (x & Hx & E). apply String.eqb_eq in E. now subst.
  - intros H. exists d. split; [assumption|apply String.eqb_refl].
Qed.




Section Main_facts.

Variable allocates : Z -> Z -> bool.
Variable lanczos : image -> Z -> Z -> Z -> Z -> pixel.

Lemma render_ok_runs im_trans r :
  img_mode im_trans = RGBA ->
  1 <= width im_trans <= int_max -> 1 <= height im_trans <= int_max ->
  render_ok r = true -> r <> Derived ->
  fits allocates (fst (expected_size r)) (snd (expected_size r)) ->
  exists img, run_render allocates lanczos im_trans r = inr img /\
              (width img, height img) = expected_size r /\ well_formed img.
Proof.
  intros M Hw Hh Hok Hd Hroom. destruct r as [s p|w h p|rw rh base|]; [| | |congruence];
    cbn [render_ok run_render expected_size fst snd] in *.
  - rewrite !andb_true_iff, !Z.leb_le in Hok. destruct Hok as [[H0 H1] Hp].
    destruct (fit_on_square_run_total allocates lanczos im_trans s p M Hw Hh (conj H0 H1) Hp Hroom)
      as (pl & m & iw & ih & E & _).
    destruct (fit_canvas_shape allocates lanczos im_trans s p pl E) as (_ & W & H & WF).
    exists (canvas pl). rewrite W, H.
    split; [now apply fit_on_square_of_run|auto].
  - rewrite !andb_true_iff, !Z.leb_le in Hok.
    destruct Hok as [[[[H0 H1] H2] H3] Hp].
    destruct (center_on_canvas_run_total allocates lanczos im_trans w h p M Hw Hh
                (conj H0 H1) (conj H2 H3) Hp Hroom) as (pl & mw & mh & iw & ih & E & _).
    destruct (center_canvas_shape allocates lanczos im_trans w h p pl E) as (_ & W & H & WF).
    exists (canvas pl). rewrite W, H.
    split; [now apply center_on_canvas_of_run|auto].
  - rewrite !andb_true_iff, !Z.leb_le, !Z.ltb_lt in Hok.
    destruct Hok as [[[[[[H0 H1] H2] H3] H4] H5] H6].
    destruct (flag_mockup_runs allocates lanczos im_trans rw rh base M Hw Hh
                (conj H0 H1) (conj H2 H3) (conj H4 H5) H6 Hroom) as (pl & _ & Erun).
    eexists. split; [unfold flag_mockup; rewrite Erun; reflexivity|].
    split; [reflexivity|apply pasted_well_formed].
Qed.

(** The renders of a list of saves on a source of mode RGBA and a machine
    with room for [n] by [n] pixels. *)
Lemma renders_run im_trans n saves :
  img_mode im_trans = RGBA ->
  1 <= width im_trans <= int_max -> 1 <= height im_trans <= int_max ->
  fits allocates n n ->
  forallb (fun s => render_ok (how s) && size_within n (how s)) saves = true ->
  Forall (fun s =>
            (how s <> Derived ->
             exists img, run_render allocates lanczos im_trans (how s) = inr img /\
                         (width img, height img) = expected_size (how s) /\
                         well_formed img) /\
            exists img, run_render allocates lanczos im_trans (how s) = inr img)
         saves.
Proof.
  intros M Hw Hh Hroom Hall. rewrite forallb_forall in Hall. apply Forall_forall.
  intros s Hs. specialize (Hall s Hs). apply andb_true_iff in Hall.
  destruct Hall as [Hok Hsz]. unfold size_within in Hsz.
  apply andb_true_iff in Hsz. rewrite !Z.leb_le in Hsz.
  assert (R : how s <> Derived ->
              exists img, run_render allocates lanczos im_trans (how s) = inr img /\
                          (width img, height img) = expected_size (how s) /\
                          well_formed img).
  { intros Hd. apply render_ok_runs; auto.
    apply (fits_le allocates n n); [assumption|lia|lia]. }
  split; [exact R|].
  destruct (how s) eqn:Eh; try (destruct R as (img & E & _); [discriminate|eauto]).
  eexists. reflexivity.
Qed.

Variable isdir : string -> bool.
Variable os_error : string -> option exn.





(** A run whose saves find their directory, whose renders return and that
    the operating system lets be writes every file. *)
Lemma run_ready im_trans given cs : forall w,
  (forall d, In d given -> isdir d = true) ->
  dirs_ready given (made w) cs = true ->
  (forall p, os_error p = None) ->
  Forall (fun s => exists img, run_render allocates lanczos im_trans (how s) = inr img)
         (saves_of cs) ->
  exists w', run allocates lanczos isdir os_error im_trans w cs = (w', None) /\
             written w' = written w ++ map saved_path (saves_of cs).
Proof.
  induction cs as [|c cs IH]; intros w Hg Hd Hos Hr; cbn [run].
  - exists w. cbn. now rewrite app_nil_r.
  - destruct c as [p|s]; cbn [dirs_ready saves_of flat_map app] in *.
    + cbn [run_call]. unfold ensure. rewrite Hos.
      destruct (IH (World (makedirs p ++ made w) (written w)) Hg Hd Hos Hr)
        as (w' & E & Hw).
      exists w'. split; [exact E|exact Hw].
    + apply andb_true_iff in Hd. destruct Hd as [Hdir Hd].
      inversion Hr as [|s' l (img & Er) Hr']. subst.
      cbn [run_call]. rewrite Er, bind_inr_eq. unfold save. rewrite Hos.
      assert (Hhas : has_dir isdir w (dir s) = true).
      { unfold has_dir. rewrite existsb_app in Hdir.
        apply orb_true_iff in Hdir. destruct Hdir as [->|Hin]; [reflexivity|].
        apply existsb_eqb_In in Hin. rewrite (Hg _ Hin). apply orb_true_r. }
      rewrite Hhas.
      destruct (IH (World (made w) (written w ++ [path_join (dir s) (file s)])) Hg Hd Hos Hr')
        as (w' & E & Hw).
      exists w'. split; [exact E|]. rewrite Hw. cbn [written].
      rewrite <- app_assoc. reflexivity.
Qed.

Variable path_exists : string -> bool.
Variable listdir : string -> py (list string).
Variable getsize : string -> py Z.
Variable Image_open_RGBA : string -> py image.
Variable print_error : option exn.

Lemma im_trans_shape im :
  img_mode (remove_near_white_bg im 245 15) = RGBA /\
  width (remove_near_white_bg im 245 15) = width im /\
  height (remove_near_white_bg im 245 15) = height im.
Proof.
  destruct (convert_RGBA_size im) as [W H].
  unfold remove_near_white_bg. cbn [img_mode width height]. auto.
Qed.

Lemma main_of_run src im :
  find_input path_exists listdir getsize "." = inr src ->
  Image_open_RGBA src = inr im ->
  main allocates lanczos isdir os_error path_exists listdir getsize Image_open_RGBA
       print_error
  = match run allocates lanczos isdir os_error (remove_near_white_bg im 245 15)
                (World [] []) (main_calls (os_path_basename src)) with
    | (w, None) => (w, print_error)
    | stopped => stopped
    end.
Proof. intros F O. unfold main. rewrite F, O. reflexivity. Qed.



(** Extra X20. Where the directories [desktop], [emoji] and [flags] are
    there, the input is found and decoded to at least one pixel per side,
    the machine has room for 3000 by 3000 pixels and the operating system
    lets the writes be, [main] raises nothing before its final [print]: it
    writes its 54 files, each once, and every composited one from an image
    of the size its name announces. *)
Theorem main_writes_every_file src im :
  find_input path_exists listdir getsize "." = inr src ->
  Image_open_RGBA src = inr im ->
  1 <= width im <= int_max -> 1 <= height im <= int_max ->
  fits allocates 3000 3000 ->
  isdir "desktop" = true -> isdir "emoji" = true -> isdir "flags" = true ->
  (forall p, os_error p = None) ->
  let result := main allocates lanczos isdir os_error path_exists listdir getsize
                     Image_open_RGBA print_error in
  let files := main_saves (os_path_basename src) in
  snd result = print_error /\
  written (fst result) = map saved_path files /\
  List.length (written (fst result)) = 54%nat /\ NoDup (written (fst result)) /\
  Forall (fun s =>
            how s <> Derived ->
            exists img,
              run_render allocates lanczos (remove_near_white_bg im 245 15) (how s)
              = inr img /\
              (width img, height img) = expected_size (how s) /\ well_formed img)
         files.
Proof.
  intros F O Hw Hh Hroom Hd He Hf Hos. cbv zeta.
  rewrite (main_of_run src im F O).
  destruct (im_trans_shape im) as (M & W & H).
  set (im_trans := remove_near_white_bg im 245 15) in *.
  set (b := os_path_basename src).
  pose proof (renders_run im_trans 3000 (main_saves b) M
                ltac:(rewrite W; exact Hw) ltac:(rewrite H; exact Hh) Hroom
                ltac:(vm_compute; reflexivity)) as Hrenders.
  assert (Hgiven : forall d, In d ["desktop"; "emoji"; "flags"]%string -> isdir d = true).
  { intros d [<-|[<-|[<-|[]]]]; assumption. }
  assert (Hreturn : Forall (fun s => exists img,
                       run_render allocates lanczos im_trans (how s) = inr img)
                      (saves_of (main_calls b))).
  { eapply Forall_impl; [|exact Hrenders]. intros s [_ X]. exact X. }
  destruct (run_ready im_trans ["desktop"; "emoji"; "flags"]%string (main_calls b)
              (World [] []) Hgiven ltac:(vm_compute; reflexivity) Hos Hreturn)
    as (w & R & Hwr).
  rewrite R. cbn [fst snd written app] in *. rewrite Hwr.
  split; [reflexivity|]. split; [reflexivity|].
  split; [rewrite length_map; reflexivity|].
  split; [apply main_paths_NoDup|].
  eapply Forall_impl; [|exact Hrenders]. intros s [X _]. exact X.
Qed.

End Main_facts.

Lemma blend_self_alpha a :
  b2z (blend a x00 a) <= b2z a /\ (blend a x00 a = xff <-> a = xff) /\
  (blend a x00 a = x00 <-> b2z a <= 11).
Proof.
  destruct a; vm_compute; (split; [discriminate|]); split; split;
    solve [ reflexivity | discriminate | intros; discriminate | intros H; exfalso; apply H; reflexivity ].
Qed.

Section Further.

Variable allocates : Z -> Z -> bool.
Variable lanczos : image -> Z -> Z -> Z -> Z -> pixel.

(** Extra X1. For every source of mode RGBA and at least one pixel per side,
    padding ratio in [0, 0.5) and canvas size up to the largest C int that
    the machine has room for, [fit_on_square] raises nothing and returns an
    RGBA canvas of exactly [size] by [size], whatever the aspect ratio of the
    source. *)
Theorem fit_on_square_returns_square img size p :
  img_mode img = RGBA ->
  1 <= width img <= int_max -> 1 <= height img <= int_max ->
  0 <= size <= int_max -> pad_in_range p = true -> fits allocates size size ->
  exists cv, fit_on_square allocates lanczos img size p = inr cv /\
    img_mode cv = RGBA /\ width cv = size /\ height cv = size /\ well_formed cv.
Proof.
  intros M Hw Hh Hs Hp Hroom.
  destruct (fit_on_square_run_total allocates lanczos img size p M Hw Hh Hs Hp Hroom)
    as (pl & m & iw & ih & E & _).
  exists (canvas pl). split; [now apply fit_on_square_of_run|].
  now apply (fit_canvas_shape allocates lanczos img size p).
Qed.

(** Extra X2. Under the same conditions [center_on_canvas] raises nothing and
    returns an RGBA canvas of exactly [w] by [h]. *)
Theorem center_on_canvas_returns_canvas img w h p :
  img_mode img = RGBA ->
  1 <= width img <= int_max -> 1 <= height img <= int_max ->
  0 <= w <= int_max -> 0 <= h <= int_max -> pad_in_range p = true ->
  fits allocates w h ->
  exists cv, center_on_canvas allocates lanczos img w h p = inr cv /\
    img_mode cv = RGBA /\ width cv = w /\ height cv = h /\ well_formed cv.
Proof.
  intros M Hw Hh Hcw Hch Hp Hroom.
  destruct (center_on_canvas_run_total allocates lanczos img w h p M Hw Hh Hcw Hch Hp Hroom)
    as (pl & mw & mh & iw & ih & E & _).
  exists (canvas pl). split; [now apply center_on_canvas_of_run|].
  now apply (center_canvas_shape allocates lanczos img w h p).
Qed.

(** Extra X7. The padded extent [int(n * (1 - 2 * pad_ratio))] is computed
    without error for [n] from 0 to the largest C int and a padding ratio in
    [0, 0.5); it lies between 0 and [n], and within one pixel below and a
    rounding error above the product taken on the real numbers. *)
Theorem padded_extent_bounds n p :
  0 <= n <= int_max -> pad_in_range p = true ->
  exists m, padded n p = inr m /\ 0 <= m <= n /\
    (IZR n * (1 - 2 * B2R p) - 1 - / 1024 < IZR m
     <= IZR n * (1 - 2 * B2R p) + / 1024)%R.
Proof.
  intros Hn Hp. destruct (padded_spec n p Hn Hp) as (m & E & Hm & U & L).
  exists m. repeat split; try assumption; try lia. lra.
Qed.

(** Extra X8. Pasting the content through its own alpha onto the transparent
    canvas never makes a pixel more opaque: inside the content the alpha of
    the canvas is at most that of the content, it is 255 exactly where the
    content is opaque, and content of alpha 11 or less disappears. *)
Theorem placement_alpha img size p pl i j :
  fit_on_square_run allocates lanczos img size p = inr pl ->
  0 <= i < size -> 0 <= j < size ->
  in_box (pos_x pl) (pos_y pl) (width (content pl)) (height (content pl)) i j = true ->
  let a := alpha (getpixel (content pl) (i - pos_x pl) (j - pos_y pl)) in
  let a' := alpha (getpixel (canvas pl) i j) in
  b2z a' <= b2z a /\ (a' = xff <-> a = xff) /\ (a' = x00 <-> b2z a <= 11).
Proof.
  intros H Hi Hj Hin.
  apply fit_on_square_run_inv in H.
  destruct H as (cv & m & sw & sh & iw & ih & Ec & _ & _ & _ & _ & _ & _ & _ & _ & Ecv).
  apply Image_new_inv in Ec. destruct Ec as [-> _].
  cbv zeta. rewrite Ecv, pasted_pixel by assumption. rewrite Hin.
  unfold blend_pixel. cbn [alpha]. apply blend_self_alpha.
Qed.

(** Extra X13. [int(width * rh / rw)], the height of a flag, is the floor
    quotient of the integers as long as [width * rh] is below 2^51: the
    division on doubles cannot round up to the next integer. *)
Theorem flag_height_is_floor rw rh base :
  1 <= rw < 2 ^ 53 -> 0 <= base * rh < 2 ^ 51 ->
  flag_height rw rh base = inr (base * rh / rw).
Proof.
  intros Hrw Hwh.
  destruct (truediv_floor (base * rh) rw Hwh Hrw) as (q & Eq & _ & Ez).
  unfold flag_height. rewrite Eq, bind_inr_eq. exact Ez.
Qed.

(** Extra X14. An opaque pixel of the resampled logo shows unchanged in the
    flag: where the content placed by [flag_mockup] has alpha 255, the pixel
    of the flag is the pixel of the content, through both pastes; and the
    flag is an image of [width] by [floor(width * rh / rw)] whose rows have
    that shape. *)
Theorem flag_mockup_shows_opaque_content im_trans rw rh base :
  img_mode im_trans = RGBA ->
  1 <= width im_trans <= int_max -> 1 <= height im_trans <= int_max ->
  1 <= rw < 2 ^ 53 -> 0 <= base * rh < 2 ^ 51 ->
  0 <= base <= int_max -> base * rh / rw <= int_max ->
  fits allocates base (base * rh / rw) ->
  exists placed bg,
    flag_mockup_run allocates lanczos im_trans rw rh base = inr (placed, bg) /\
    well_formed bg /\
    forall i j, 0 <= i < base -> 0 <= j < base * rh / rw ->
      in_box (pos_x placed) (pos_y placed)
             (width (content placed)) (height (content placed)) i j = true ->
      let c := getpixel (content placed) (i - pos_x placed) (j - pos_y placed) in
      alpha c = xff -> getpixel bg i j = c.
Proof.
  intros M Hw Hh Hrw Hwh HW HH Hroom.
  destruct (flag_mockup_runs allocates lanczos im_trans rw rh base M Hw Hh Hrw Hwh HW HH
              Hroom) as (pl & Ec & Erun).
  set (H := base * rh / rw) in *.
  exists pl, (pasted (Img RGB base H (tabulate base H (fun _ _ => Px xff xff xff xff)))
                     (convert_RGB (canvas pl)) 0 0 (canvas pl)).
  split; [exact Erun|]. split; [apply pasted_well_formed|].
  intros i j Hi Hj Hin c Hc.
  assert (Mcv : img_mode (canvas pl) = RGBA) by (rewrite Ec; reflexivity).
  assert (Wcv : width (canvas pl) = base) by (rewrite Ec; reflexivity).
  assert (Hcv' : height (canvas pl) = H) by (rewrite Ec; reflexivity).
  assert (Hcv : getpixel (canvas pl) i j = c).
  { rewrite Ec, pasted_pixel by assumption. rewrite Hin. fold c. rewrite Hc.
    apply blend_pixel_opaque. }
  assert (Hrgb : getpixel (convert_RGB (canvas pl)) i j
                 = Px (red c) (green c) (blue c) xff).
  { rewrite <- Hcv. unfold convert_RGB. rewrite Mcv, Ec. unfold pasted.
    cbn [rows width height img_mode].
    rewrite (getpixel_map_rows _ _ _ RGBA base H);
      [reflexivity
      |rewrite tabulate_length; lia
      |rewrite tabulate_row_length by assumption; lia]. }
  assert (Hbox : in_box 0 0 base H i j = true).
  { unfold in_box. rewrite !andb_true_iff, !Z.leb_le, !Z.ltb_lt. lia. }
  unfold pasted. cbn [width height img_mode].
  rewrite getpixel_tabulate by assumption.
  rewrite getpixel_tabulate by assumption.
  destruct (convert_RGB_size (canvas pl)) as [-> ->].
  rewrite Wcv, Hcv', Hbox, !Z.sub_0_r, Hcv, Hc, blend_pixel_opaque, Hrgb.
  destruct c as [r g b a]. cbn in Hc. subst a. reflexivity.
Qed.

(** Extra X22. The compositors use the source as its own transparency mask,
    so they need a source with an alpha channel: on a source of mode RGB and
    a canvas of at least one pixel per side both raise [ValueError] at the
    paste, after the canvas and the resampled content were made. *)
Theorem source_without_alpha_raises img p :
  img_mode img = RGB ->
  1 <= width img <= int_max -> 1 <= height img <= int_max ->
  pad_in_range p = true ->
  (forall size, 1 <= size <= int_max -> fits allocates size size ->
     fit_on_square allocates lanczos img size p = inl ValueError) /\
  (forall w h, 1 <= w <= int_max -> 1 <= h <= int_max -> fits allocates w h ->
     center_on_canvas allocates lanczos img w h p = inl ValueError).
Proof.
  intros M Hw Hh Hp. split.
  - intros size Hs Hroom.
    assert (Hs0 : 0 <= size <= int_max) by lia.
    destruct (padded_spec size p Hs0 Hp) as (m & Em & Hm & _).
    destruct (dims_spec m m (width img) (height img)) as
      (sw & sh & iw & ih & Esw & Esh & Eiw & Eih & Hiw & Hih); try lia.
    unfold fit_on_square, fit_on_square_run. cbv zeta.
    rewrite (Image_new_ok allocates _ _ _ _ Hs0 Hs0) by (apply Hroom; lia).
    rewrite bind_inr_eq.
    rewrite Em, bind_inr_eq, Esw, bind_inr_eq, Esh, bind_inr_eq.
    rewrite Eiw, bind_inr_eq, Eih, bind_inr_eq.
    rewrite resize_ok by (rewrite ?max_1; try apply Hroom; lia).
    rewrite bind_inr_eq, paste_bad_mask; [reflexivity|exact M|].
    unfold nothing_to_paste. cbn [width height]. rewrite !max_1.
    pose proof (half_floor (size - Z.max 1 iw)).
    pose proof (half_floor (size - Z.max 1 ih)).
    apply orb_false_iff. split; apply Z.leb_gt; lia.
  - intros w h Hcw Hch Hroom.
    assert (Hw0 : 0 <= w <= int_max) by lia.
    assert (Hh0 : 0 <= h <= int_max) by lia.
    destruct (padded_spec w p Hw0 Hp) as (mw & Emw & Hmw & _).
    destruct (padded_spec h p Hh0 Hp) as (mh & Emh & Hmh & _).
    destruct (dims_spec mw mh (width img) (height img)) as
      (sw & sh & iw & ih & Esw & Esh & Eiw & Eih & Hiw & Hih); try lia.
    unfold center_on_canvas, center_on_canvas_run. cbv zeta.
    rewrite (Image_new_ok allocates _ _ _ _ Hw0 Hh0) by (apply Hroom; lia).
    rewrite bind_inr_eq.
    rewrite Emw, bind_inr_eq, Emh, bind_inr_eq, Esw, bind_inr_eq, Esh, bind_inr_eq.
    rewrite Eiw, bind_inr_eq, Eih, bind_inr_eq.
    rewrite resize_ok by (rewrite ?max_1; try apply Hroom; lia).
    rewrite bind_inr_eq, paste_bad_mask; [reflexivity|exact M|].
    unfold nothing_to_paste. cbn [width height]. rewrite !max_1.
    pose proof (half_floor (w - Z.max 1 iw)).
    pose proof (half_floor (h - Z.max 1 ih)).
    apply orb_false_iff. split; apply Z.leb_gt; lia.
Qed.

End Further.

(** ** The further properties at concrete inputs *)

Lemma sample_4x7_size :
  (1 <= width sample_4x7 <= int_max) /\ (1 <= height sample_4x7 <= int_max).
Proof. vm_compute. repeat split; discriminate. Qed.

Lemma dot_size : (1 <= width dot <= int_max) /\ (1 <= height dot <= int_max).
Proof. vm_compute. repeat split; discriminate. Qed.

Lemma fit_on_square_returns_square_witness :
  exists cv, fit_on_square roomy nearest sample_4x7 13 tenth = inr cv /\
             img_mode cv = RGBA /\ width cv = 13 /\ height cv = 13 /\ well_formed cv.
Proof.
  apply fit_on_square_returns_square;
    [reflexivity | apply sample_4x7_size | apply sample_4x7_size | unfold int_max; lia
    | reflexivity | apply roomy_fits; lia].
Defined.

Lemma center_on_canvas_returns_canvas_witness :
  exists cv, center_on_canvas roomy nearest sample_4x7 12 9 tenth = inr cv /\
             img_mode cv = RGBA /\ width cv = 12 /\ height cv = 9 /\ well_formed cv.
Proof.
  apply center_on_canvas_returns_canvas;
    [reflexivity | apply sample_4x7_size | apply sample_4x7_size | unfold int_max; lia
    | unfold int_max; lia | reflexivity | apply roomy_fits; lia].
Defined.

Lemma content_inside_canvas_witness :
  exists pl, fit_on_square_run roomy nearest sample_4x7 13 tenth = inr pl /\
    0 <= pos_x pl /\ pos_x pl + width (content pl) <= 13 /\
    0 <= pos_y pl /\ pos_y pl + height (content pl) <= 13.
Proof.
  destruct (fit_on_square_run roomy nearest sample_4x7 13 tenth) as [e|pl] eqn:E;
    [vm_compute in E; discriminate E|].
  exists pl. split; [reflexivity|].
  destruct (proj1 (content_inside_canvas roomy nearest) sample_4x7 13 tenth pl
              (proj1 sample_4x7_size) (proj2 sample_4x7_size) eq_refl ltac:(lia) E)
    as (A & B & C & D & _).
  repeat split; assumption.
Defined.

Lemma negative_canvas_raises_witness :
  fit_on_square roomy nearest dot (-1) tenth = inl ValueError /\
  center_on_canvas roomy nearest dot 5 (-1) tenth = inl ValueError.
Proof.
  split.
  - apply (proj1 (negative_canvas_raises roomy nearest dot 0 0 (-1) tenth)). lia.
  - apply (proj2 (negative_canvas_raises roomy nearest dot 5 (-1) 0 tenth)). right. lia.
Defined.

Lemma empty_source_raises_witness :
  fit_on_square roomy nearest empty_image 16 tenth = inl ZeroDivisionError /\
  center_on_canvas roomy nearest empty_image 16 9 tenth = inl ZeroDivisionError.
Proof.
  destruct (empty_source_raises roomy nearest empty_image tenth eq_refl (or_introl eq_refl))
    as [F C].
  split; [apply F|apply C]; unfold int_max; lia.
Defined.

Lemma longer_side_fills_padded_square_witness :
  exists pl m, fit_on_square_run roomy nearest sample_4x7 13 tenth = inr pl /\
    padded 13 tenth = inr m /\ m - 1 <= height (content pl) <= Z.max 1 m.
Proof.
  destruct (fit_on_square_run roomy nearest sample_4x7 13 tenth) as [e|pl] eqn:E;
    [vm_compute in E; discriminate E|].
  destruct (padded 13 tenth) as [e|m] eqn:Em; [vm_compute in Em; discriminate Em|].
  exists pl, m. split; [reflexivity|]. split; [reflexivity|].
  apply (proj2 (longer_side_fills_padded_square roomy nearest sample_4x7 13 tenth pl m
                  (proj1 sample_4x7_size) (proj2 sample_4x7_size) eq_refl E Em)).
  vm_compute. discriminate.
Defined.

Lemma padded_extent_bounds_witness :
  exists m, padded 13 tenth = inr m /\ 0 <= m <= 13 /\
    (13 * (1 - 2 * B2R tenth) - 1 - / 1024 < IZR m
     <= 13 * (1 - 2 * B2R tenth) + / 1024)%R.
Proof. apply (padded_extent_bounds 13 tenth); [unfold int_max; lia|reflexivity]. Defined.

Lemma placement_alpha_witness :
  exists pl, fit_on_square_run roomy nearest dot 3 tenth = inr pl /\
    b2z (alpha (getpixel (canvas pl) 0 0))
    <= b2z (alpha (getpixel (content pl) (0 - pos_x pl) (0 - pos_y pl))).
Proof.
  destruct (fit_on_square_run roomy nearest dot 3 tenth) as [e|pl] eqn:E;
    [vm_compute in E; discriminate E|].
  exists pl. split; [reflexivity|].
  assert (B : in_box (pos_x pl) (pos_y pl) (width (content pl)) (height (content pl)) 0 0
              = true).
  { vm_compute in E. injection E as <-. reflexivity. }
  exact (proj1 (placement_alpha roomy nearest dot 3 tenth pl 0 0 E ltac:(lia) ltac:(lia) B)).
Defined.

Lemma remove_near_white_bg_monotone_witness :
  Forall2 (Forall2 (fun p q => alpha q = x00 -> alpha p = x00))
    (rows (remove_near_white_bg rgb_sample 245 15))
    (rows (remove_near_white_bg rgb_sample 250 10)).
Proof. apply remove_near_white_bg_monotone; lia. Defined.

Lemma remove_near_white_bg_nothing_to_clear_witness :
  remove_near_white_bg rgb_sample 255 15 = convert_RGBA rgb_sample.
Proof. apply remove_near_white_bg_nothing_to_clear. left. lia. Defined.

Lemma remove_near_white_bg_of_RGB_witness :
  img_mode (remove_near_white_bg rgb_sample 245 15) = RGBA /\
  Forall (Forall (fun q => alpha q = if near_white 245 15 q then x00 else xff))
    (rows (remove_near_white_bg rgb_sample 245 15)).
Proof. apply remove_near_white_bg_of_RGB. reflexivity. Defined.

Lemma flag_height_is_floor_witness : flag_height 5 3 1500 = inr 900.
Proof. apply (flag_height_is_floor 5 3 1500); lia. Defined.

Lemma flag_mockup_shows_opaque_content_witness :
  exists placed bg,
    flag_mockup_run roomy nearest dot 5 3 1500 = inr (placed, bg) /\ well_formed bg.
Proof.
  destruct (flag_mockup_shows_opaque_content roomy nearest dot 5 3 1500 eq_refl
              (proj1 dot_size) (proj2 dot_size) ltac:(lia) ltac:(lia)
              ltac:(unfold int_max; lia) ltac:(vm_compute; discriminate)
              ltac:(apply roomy_fits; vm_compute; discriminate))
    as (pl & bg & E & WF & _).
  exists pl, bg. split; assumption.
Defined.

Lemma find_input_prefers_candidates_witness :
  find_input sample_exists sample_listdir sample_getsize "."
  = inr "./logo_input.jpg"%string.
Proof.
  apply (find_input_prefers_candidates sample_exists sample_listdir sample_getsize
           "." ["logo_input.png"%string] "logo_input.jpg"
           ["logo_input.jpeg"; "logo_input.webp"; "logo_input.tif";
            "logo_input.tiff"]%string eq_refl).
  - intros d [<-|[]]. reflexivity.
  - reflexivity.
Defined.

Lemma find_input_falls_back_to_largest_witness :
  exists names f size,
    sample_listdir "." = inr names /\ In f names /\
    endswith_any (lower f) exts = true /\
    "./b.GIF"%string = path_join "." f /\ sample_getsize "./b.GIF" = inr size /\
    forall g, In g names -> endswith_any (lower g) exts = true ->
      exists size', sample_getsize (path_join "." g) = inr size' /\ size' <= size.
Proof.
  apply (find_input_falls_back_to_largest (fun _ => false) sample_listdir sample_getsize).
  - intros c _. reflexivity.
  - reflexivity.
Defined.

Lemma find_input_raises_iff_no_image_witness :
  find_input (fun _ => false) (fun _ => inr ["notes.txt"%string]) sample_getsize "."
  = inl FileNotFoundError.
Proof.
  destruct (find_input_raises_iff_no_image (fun _ => false)
              (fun _ => inr ["notes.txt"%string]) sample_getsize "." ["notes.txt"%string]
              eq_refl) as [[_ R] Only].
  - intros f [<-|[]] He. discriminate He.
  - destruct R as [e E].
    + split; [intros c _; reflexivity|intros f [<-|[]]; reflexivity].
    + rewrite E. f_equal. exact (Only e E).
Defined.

Lemma find_input_passes_os_errors_witness :
  find_input (fun _ => false) broken_listdir broken_getsize "." = inl FileNotFoundError.
Proof.
  apply (proj2 (find_input_passes_os_errors (fun _ => false) broken_listdir broken_getsize
                  "." FileNotFoundError ltac:(intros c _; reflexivity))
               ["a.png"%string] "gone.png"%string ["b.GIF"%string] eq_refl).
  - intros g [<-|[]] _. eexists. reflexivity.
  - reflexivity.
  - reflexivity.
Defined.


Lemma main_writes_every_file_witness :
  let result := main roomy nearest (fun _ => true) (fun _ => None)
                  sample_exists sample_listdir sample_getsize (fun _ => inr dot) None in
  snd result = None /\ List.length (written (fst result)) = 54%nat.
Proof.
  cbv zeta.
  destruct (main_writes_every_file roomy nearest (fun _ => true) (fun _ => None)
              sample_exists sample_listdir sample_getsize (fun _ => inr dot) None
              "./logo_input.jpg"%string dot eq_refl eq_refl
              (proj1 dot_size) (proj2 dot_size)
              ltac:(apply roomy_fits; vm_compute; discriminate)
              eq_refl eq_refl eq_refl ltac:(reflexivity))
    as (R & _ & L & _).
  split; assumption.
Defined.

Lemma source_without_alpha_raises_witness :
  fit_on_square roomy nearest rgb_sample 13 tenth = inl ValueError /\
  center_on_canvas roomy nearest rgb_sample 12 9 tenth = inl ValueError.
Proof.
  destruct (source_without_alpha_raises roomy nearest rgb_sample tenth eq_refl
              ltac:(vm_compute; split; discriminate) ltac:(vm_compute; split; discriminate)
              eq_refl) as [F C].
  split.
  - apply F; [unfold int_max; lia|apply roomy_fits; lia].
  - apply C; [unfold int_max; lia|unfold int_max; lia|apply roomy_fits; lia].
Defined.
